(** * SubtitleGenerator: the subtitle formatting and script detection pipeline

    A shallow embedding of [editor/editor.py] (class [SubtitleGenerator]) and
    of the pieces of the Python runtime it calls ([str.strip], [round],
    [divmod], [textwrap.fill], [posixpath]), followed by the properties of
    the pipeline.

    Conventions.
    - A Python [str] is a list of Unicode code points ([pystr]).
    - A Python [float] is an IEEE-754 binary64 value ([spec_float] at
      precision 53 and maximal exponent 1024).
    - A Python [int] is a [Z].
    - A raised exception is the [Raise] branch of [result]. *)

From Stdlib Require Import String Ascii.
From Stdlib Require Import List NArith ZArith Bool Lia Permutation.
From Stdlib Require Import Floats.SpecFloat DecimalN.
Import ListNotations.
Open Scope list_scope.

(* [length] is the length of a list throughout. *)
Abbreviation length := Datatypes.length.

Set Implicit Arguments.

(* ================================================================== *)
(** * Part I. The embedding *)
(* ================================================================== *)

(** ** Strings, exceptions *)

Definition pystr := list N.

Definition of_string (s : string) : pystr :=
  map N_of_ascii (list_ascii_of_string s).

Definition null (s : pystr) : bool :=
  match s with [] => true | _ => false end.

Inductive exn :=
| ValueError | IndexError | FileNotFoundError | OverflowError
| SystemExit | NotADirectoryError.

(** The outcome of a call: a value, an exception, or no return (a loop
    that is still running when the fuel of its model is spent). *)
Inductive result (A : Type) :=
| Ok (a : A)
| Raise (e : exn)
| Loops.
Arguments Ok {A} a.
Arguments Raise {A} e.
Arguments Loops {A}.

Definition bind {A B : Type} (r : result A) (k : A -> result B) : result B :=
  match r with
  | Ok a => k a
  | Raise e => Raise e
  | Loops => Loops
  end.

Notation "x <- r ;; k" := (bind r (fun x => k))
  (at level 61, r at next level, right associativity).

(** ** Unicode data

    [str.isspace] is a closed table of CPython ([_PyUnicode_IsWhitespace]);
    it is written out.  The Script property and the [\w] / [\d] classes are
    tables of the Unicode database: on ASCII they are written out, beyond
    ASCII they are the fields of [Unicode]. *)

Open Scope N_scope.

Definition between (lo hi c : N) : bool := (lo <=? c) && (c <=? hi).

Definition py_isspace (c : N) : bool :=
  between 0x09 0x0D c || between 0x1C 0x20 c || (c =? 0x85) || (c =? 0xA0)
  || (c =? 0x1680) || between 0x2000 0x200A c || (c =? 0x2028)
  || (c =? 0x2029) || (c =? 0x202F) || (c =? 0x205F) || (c =? 0x3000).

Inductive Script :=
| Arabic | Han | Hiragana | Katakana | Hangul | Latin | Cyrillic
| Common | Inherited | OtherScript.

Definition Script_eqb (a b : Script) : bool :=
  match a, b with
  | Arabic, Arabic | Han, Han | Hiragana, Hiragana | Katakana, Katakana
  | Hangul, Hangul | Latin, Latin | Cyrillic, Cyrillic | Common, Common
  | Inherited, Inherited | OtherScript, OtherScript => true
  | _, _ => false
  end.

Class Unicode := {
  uni_script : N -> Script;   (* Script property of a code point >= 0x80 *)
  uni_word : N -> bool;       (* [\w] on a code point >= 0x80 *)
  uni_digit : N -> bool       (* [\d] on a code point >= 0x80 *)
}.

Definition ascii_letter (c : N) : bool :=
  between 0x41 0x5A c || between 0x61 0x7A c.

Definition ascii_digit (c : N) : bool := between 0x30 0x39 c.

Definition script_of `{Unicode} (c : N) : Script :=
  if c <? 0x80 then (if ascii_letter c then Latin else Common)
  else uni_script c.

(** [\w] *)
Definition is_word `{Unicode} (c : N) : bool :=
  if c <? 0x80 then ascii_letter c || ascii_digit c || (c =? 0x5F)
  else uni_word c.

(** [\d] *)
Definition is_digit `{Unicode} (c : N) : bool :=
  if c <? 0x80 then ascii_digit c else uni_digit c.

(** ** [str.strip], [str.lstrip], [str.rstrip] without argument *)

Fixpoint lstrip (s : pystr) : pystr :=
  match s with
  | [] => []
  | c :: s' => if py_isspace c then lstrip s' else s
  end.

Definition rstrip (s : pystr) : pystr := rev (lstrip (rev s)).

Definition strip (s : pystr) : pystr := rstrip (lstrip s).

(** ** Regular expressions over character classes

    The two patterns of [detect_script] are a character class and a
    repeated character class; they are matched by derivatives. *)

Inductive re :=
| Void
| Eps
| Class_ (p : N -> bool)
| Cat (r1 r2 : re)
| Alt (r1 r2 : re)
| Star (r : re).

(** [r+] *)
Definition Plus (r : re) : re := Cat r (Star r).

Fixpoint nullable (r : re) : bool :=
  match r with
  | Void => false
  | Eps => true
  | Class_ _ => false
  | Cat r1 r2 => nullable r1 && nullable r2
  | Alt r1 r2 => nullable r1 || nullable r2
  | Star _ => true
  end.

Fixpoint deriv (r : re) (c : N) : re :=
  match r with
  | Void => Void
  | Eps => Void
  | Class_ p => if p c then Eps else Void
  | Cat r1 r2 =>
      if nullable r1 then Alt (Cat (deriv r1 c) r2) (deriv r2 c)
      else Cat (deriv r1 c) r2
  | Alt r1 r2 => Alt (deriv r1 c) (deriv r2 c)
  | Star r1 => Cat (deriv r1 c) (Star r1)
  end.

(** The strings a pattern denotes. *)
Inductive matches : re -> pystr -> Prop :=
| MEps : matches Eps []
| MClass p c : p c = true -> matches (Class_ p) [c]
| MCat r1 r2 s1 s2 :
    matches r1 s1 -> matches r2 s2 -> matches (Cat r1 r2) (s1 ++ s2)
| MAltL r1 r2 s : matches r1 s -> matches (Alt r1 r2) s
| MAltR r1 r2 s : matches r2 s -> matches (Alt r1 r2) s
| MStar0 r : matches (Star r) []
| MStarS r s1 s2 :
    matches r s1 -> matches (Star r) s2 -> matches (Star r) (s1 ++ s2).

(** [regex.fullmatch(r, s)] as a truth value *)
Definition fullmatch (r : re) (s : pystr) : bool :=
  nullable (fold_left deriv s r).

(** some prefix of [s] matches [r] *)
Fixpoint match_here (r : re) (s : pystr) : bool :=
  nullable r ||
  match s with
  | [] => false
  | c :: s' => match_here (deriv r c) s'
  end.

(** [regex.search(r, s)] as a truth value *)
Fixpoint search (r : re) (s : pystr) : bool :=
  match_here r s ||
  match s with
  | [] => false
  | _ :: s' => search r s'
  end.

(** ** [SubtitleGenerator.detect_script] *)

(** The three identifiers the method returns. *)
Inductive Category := LatinCyrillic | Asian | ArabicCat.

Definition category_name (k : Category) : string :=
  match k with
  | LatinCyrillic => "latin-cyrillic"
  | Asian => "asian"
  | ArabicCat => "arabic"
  end.

Definition Category_eqb (a b : Category) : bool :=
  match a, b with
  | LatinCyrillic, LatinCyrillic | Asian, Asian | ArabicCat, ArabicCat => true
  | _, _ => false
  end.

(** [\p{A}\p{B}...] inside a character class *)
Definition in_scripts `{Unicode} (l : list Script) (c : N) : bool :=
  existsb (Script_eqb (script_of c)) l.

(** The scripts of the second (search) pattern of each test. *)
Definition strict_scripts (k : Category) : list Script :=
  match k with
  | ArabicCat => [Arabic]
  | Asian => [Han; Hiragana; Katakana; Hangul]
  | LatinCyrillic => [Latin; Cyrillic]
  end.

(** The scripts of the first (fullmatch) pattern of each test. *)
Definition allowed_scripts (k : Category) : list Script :=
  strict_scripts k ++ [Common; Inherited].

(** One [if] of [detect_script]: [regex.fullmatch(..) and regex.search(..)]. *)
Definition script_test `{Unicode} (k : Category) (text : pystr) : bool :=
  fullmatch (Plus (Class_ (in_scripts (allowed_scripts k)))) text
  && search (Class_ (in_scripts (strict_scripts k))) text.

Definition detect_script `{Unicode} (text : pystr) : option Category :=
  let text := strip text in
  if null text then None
  else if script_test ArabicCat text then Some ArabicCat
  else if script_test Asian text then Some Asian
  else if script_test LatinCyrillic text then Some LatinCyrillic
  else None.

(** *** The classifier as the specification words it

    A category matches a string when every character is of one of the
    category's scripts or Common/Inherited, and some character is strictly
    of one of the category's scripts. *)
Definition category_matches `{Unicode} (k : Category) (t : pystr) : bool :=
  forallb (in_scripts (strict_scripts k ++ [Common; Inherited])) t
  && existsb (in_scripts (strict_scripts k)) t.

Definition priority_order : list Category := [ArabicCat; Asian; LatinCyrillic].

(** The first category, in priority order, that matches the stripped
    string. *)
Definition first_match `{Unicode} (text : pystr) : option Category :=
  find (fun k => category_matches k (strip text)) priority_order.

(** [detect_script] with its three tests made in another order. *)
Definition detect_script_in `{Unicode} (order : list Category) (text : pystr)
  : option Category :=
  let text := strip text in
  if null text then None else find (fun k => script_test k text) order.

(** A character strictly of one of the scripts of category [k]. *)
Definition strict `{Unicode} (k : Category) (c : N) : bool :=
  in_scripts (strict_scripts k) c.

(** No character of [text] is strictly of a script of the three
    categories: only punctuation, digits, marks, other scripts. *)
Definition punctuation_only `{Unicode} (text : pystr) : Prop :=
  forall c k, In c text -> strict k c = false.

(** [text] has characters strictly of two different categories. *)
Definition mixes_categories `{Unicode} (text : pystr) : Prop :=
  exists k1 k2 c1 c2,
    k1 <> k2 /\ In c1 text /\ In c2 text
    /\ strict k1 c1 = true /\ strict k2 c2 = true.

(** No character strictly of one of the three categories is whitespace
    for [str.strip].  The Unicode database is so: its whitespace
    characters are Common, but U+1680, whose script is Ogham. *)
Definition strict_not_whitespace `{Unicode} : Prop :=
  forall k c, strict k c = true -> py_isspace c = false.

(** The whitespace inside [text], the one [str.strip] leaves, is Common:
    with the Unicode database, there is no U+1680 inside [text]. *)
Definition inner_spaces_common `{Unicode} (text : pystr) : Prop :=
  forall c, In c (strip text) -> py_isspace c = true -> script_of c = Common.

(** *** A fragment of the Script table, to run examples

    Each range below carries the listed script in Scripts.txt; U+1680,
    the one whitespace character that is not Common, and the surrogates
    are of none of the scripts named here.  Every other code point beyond
    ASCII is left Common in this fragment, which is so of the other
    whitespace characters and of the punctuation, not of the letters of
    further scripts: the examples keep to ASCII and the ranges listed.
    The characters of the listed ranges are its word characters. *)
Definition fragment_script (c : N) : Script :=
  if N.eqb c 0x1680 then OtherScript
  else if between 0xD800 0xDFFF c then OtherScript
  else if between 0x0410 0x044F c then Cyrillic
  else if between 0x0621 0x063A c then Arabic
  else if between 0x3041 0x3096 c then Hiragana
  else if between 0x30A1 0x30FA c then Katakana
  else if between 0x4E00 0x9FFF c then Han
  else if between 0xAC00 0xD7A3 c then Hangul
  else Common.

Definition fragment : Unicode :=
  {| uni_script := fragment_script;
     uni_word := fun c => negb (Script_eqb (fragment_script c) Common);
     uni_digit := fun _ => false |}.

Close Scope N_scope.

(** ** Python numbers: [float], [round], [format] *)

Open Scope Z_scope.

Definition pyfloat := spec_float.
Definition prec : Z := 53.
Definition emax : Z := 1024.

(** [x * y] on floats *)
Definition float_mul (x y : pyfloat) : pyfloat := SFmul prec emax x y.

(** The float nearest to [m * 2^e] (ties to even); [float(z)] is the case
    [e = 0]. *)
Definition float_of_dyadic (m e : Z) : pyfloat :=
  binary_normalize prec emax m e false.

Definition float_of_int (z : Z) : pyfloat := float_of_dyadic z 0.

(** The integer nearest to [m * 2^e], ties going to the even neighbour. *)
Definition round_half_even (m : positive) (e : Z) : Z :=
  if 0 <=? e then Zpos m * 2 ^ e
  else
    let d := 2 ^ (- e) in
    let q := Zpos m / d in
    let r := Zpos m mod d in
    match 2 * r ?= d with
    | Lt => q
    | Gt => q + 1
    | Eq => if Z.even q then q else q + 1
    end.

(** [round(x)] with one argument: the nearest [int], ties to even;
    raises on infinities and NaN. *)
Definition py_round (x : pyfloat) : result Z :=
  match x with
  | S754_zero _ => Ok 0
  | S754_infinity _ => Raise OverflowError
  | S754_nan => Raise ValueError
  | S754_finite s m e => Ok (cond_Zopp s (round_half_even m e))
  end.

Fixpoint uint_codes (d : Decimal.uint) : pystr :=
  match d with
  | Decimal.Nil => []
  | Decimal.D0 d => 48%N :: uint_codes d
  | Decimal.D1 d => 49%N :: uint_codes d
  | Decimal.D2 d => 50%N :: uint_codes d
  | Decimal.D3 d => 51%N :: uint_codes d
  | Decimal.D4 d => 52%N :: uint_codes d
  | Decimal.D5 d => 53%N :: uint_codes d
  | Decimal.D6 d => 54%N :: uint_codes d
  | Decimal.D7 d => 55%N :: uint_codes d
  | Decimal.D8 d => 56%N :: uint_codes d
  | Decimal.D9 d => 57%N :: uint_codes d
  end.

(** decimal digits of a natural number *)
Definition digits (n : N) : pystr := uint_codes (N.to_uint n).

(** [str(z)] for an [int] *)
Definition str_int (z : Z) : pystr :=
  (if z <? 0 then [45%N] else []) ++ digits (Z.abs_N z).

(** [f"{z:0w}"]: sign first, then zeros up to width [w], then the digits *)
Definition format_zero (w : nat) (z : Z) : pystr :=
  let sign := if z <? 0 then [45%N] else [] in
  let d := digits (Z.abs_N z) in
  sign ++ repeat 48%N (w - length sign - length d) ++ d.

(** ** [SubtitleGenerator.convert_time_to_srt_format] *)

(** [f"{hours:02}:{minutes:02}:{seconds:02},{milliseconds:03}"] *)
Definition srt_code (hours minutes seconds milliseconds : Z) : pystr :=
  format_zero 2 hours ++ [58%N] ++ format_zero 2 minutes ++ [58%N]
  ++ format_zero 2 seconds ++ [44%N] ++ format_zero 3 milliseconds.

Definition convert_time_to_srt_format (time : pyfloat) : result pystr :=
  total_milliseconds <- py_round (float_mul time (float_of_int 1000)) ;;
  let '(seconds, milliseconds) := Z.div_eucl total_milliseconds 1000 in
  let '(minutes, seconds) := Z.div_eucl seconds 60 in
  let '(hours, minutes) := Z.div_eucl minutes 60 in
  Ok (srt_code hours minutes seconds milliseconds).

(** *** The conversion as the specification words it *)

(** The integer nearest to [m * 2^e], ties going away from zero. *)
Definition round_half_away (m : positive) (e : Z) : Z :=
  if 0 <=? e then Zpos m * 2 ^ e
  else
    let d := 2 ^ (- e) in
    if 2 * (Zpos m mod d) <? d then Zpos m / d else Zpos m / d + 1.

(** Round-half-away-from-zero milliseconds, then the cascade. *)
Definition srt_half_away (time : pyfloat) : result pystr :=
  match float_mul time (float_of_int 1000) with
  | S754_zero _ => Ok (srt_code 0 0 0 0)
  | S754_infinity _ => Raise OverflowError
  | S754_nan => Raise ValueError
  | S754_finite s m e =>
      let t := cond_Zopp s (round_half_away m e) in
      Ok (srt_code (t / 3600000) (t / 60000 mod 60) (t / 1000 mod 60)
            (t mod 1000))
  end.

(** [total] is an integer nearest to [m * 2^e], and the even one of the two
    when [m * 2^e] lies half way. *)
Definition nearest_ties_even (m : positive) (e : Z) (total : Z) : Prop :=
  if 0 <=? e then total = Zpos m * 2 ^ e
  else
    2 * Z.abs (total * 2 ^ (- e) - Zpos m) <= 2 ^ (- e)
    /\ (2 * Z.abs (total * 2 ^ (- e) - Zpos m) = 2 ^ (- e) ->
        Z.even total = true).

(** A finite float that is not negative. *)
Definition nonneg_time (time : pyfloat) : Prop :=
  match time with
  | S754_zero _ | S754_finite false _ _ => True
  | _ => False
  end.

(** The float literals of the examples. *)
Definition float_0_0 : pyfloat := S754_zero false.
Definition float_5_25 : pyfloat := float_of_dyadic 21 (-2).
Definition float_0_0625 : pyfloat := float_of_dyadic 1 (-4).
(** [3599.9995] is [0x1.c1fffbe76c8b4p+11], the binary64 value nearest to
    the decimal. *)
Definition float_3599_9995 : pyfloat :=
  S754_finite false 0x1c1fffbe76c8b4 (-41).

Close Scope Z_scope.

(** ** [textwrap.fill] with the default options

    [expand_tabs], [replace_whitespace], [drop_whitespace],
    [break_long_words] and [break_on_hyphens] are on, [tabsize] is 8, the
    indents are empty, [fix_sentence_endings] is off and [max_lines] is
    [None]: the configuration [textwrap.fill(text, width=width)] runs. *)

Open Scope N_scope.

Definition hyphen : N := 0x2D.
Definition space : N := 0x20.
Definition newline : N := 0x0A.

(** [textwrap._whitespace], the string ["\t\n\x0b\x0c\r "] *)
Definition tw_space (c : N) : bool :=
  (c =? 0x09) || (c =? 0x0A) || (c =? 0x0B) || (c =? 0x0C) || (c =? 0x0D)
  || (c =? 0x20).

Close Scope N_scope.

(** [str.expandtabs(8)], started at column [col] *)
Fixpoint expandtabs_from (col : nat) (s : pystr) : pystr :=
  match s with
  | [] => []
  | c :: s' =>
      if N.eqb c 0x09 then
        let incr := 8 - col mod 8 in
        repeat space incr ++ expandtabs_from (col + incr) s'
      else
        c :: expandtabs_from
               (if N.eqb c 0x0A || N.eqb c 0x0D then 0 else S col) s'
  end.

Definition expandtabs (s : pystr) : pystr := expandtabs_from 0 s.

(** [text.translate(unicode_whitespace_trans)] *)
Definition translate_whitespace (s : pystr) : pystr :=
  map (fun c => if tw_space c then space else c) s.

Definition _munge_whitespace (text : pystr) : pystr :=
  translate_whitespace (expandtabs text).

(** *** [wordsep_re]

    The pattern is matched at a position described by the characters
    before it, most recent first ([before]), and the characters from it
    on ([s]). *)

(** the class [word_punct]: a [\w] character or one of
    [! & . , ?], the double quote and the apostrophe *)
Definition word_punct `{Unicode} (c : N) : bool :=
  is_word c || existsb (N.eqb c) [0x21; 0x22; 0x27; 0x26; 0x2E; 0x2C; 0x3F]%N.

(** [[^\d\W]] *)
Definition letter `{Unicode} (c : N) : bool :=
  is_word c && negb (is_digit c).

Fixpoint take_while (p : N -> bool) (s : pystr) : pystr :=
  match s with
  | [] => []
  | c :: s' => if p c then c :: take_while p s' else []
  end.

Fixpoint drop_while (p : N -> bool) (s : pystr) : pystr :=
  match s with
  | [] => []
  | c :: s' => if p c then drop_while p s' else s
  end.

Definition is_hyphen (c : N) : bool := N.eqb c hyphen.

(** [-{2,}\w] matches at the head of [s]: as no hyphen is a word
    character, the repetition has to take the whole run of hyphens. *)
Definition emdash_ahead `{Unicode} (s : pystr) : bool :=
  (2 <=? length (take_while is_hyphen s))%nat
  && match drop_while is_hyphen s with
     | c :: _ => is_word c
     | [] => false
     end.

(** the lookbehind [(?<=word_punct)] *)
Definition after_word_punct `{Unicode} (before : pystr) : bool :=
  match before with
  | c :: _ => word_punct c
  | [] => false
  end.

(** The hyphenated-word alternative at a hyphen:
    [-(?: (?<=lt{2}-) | (?<=lt-lt-)) (?= lt -? lt)],
    with [before] the characters before the hyphen and [after] the ones
    behind it. *)
Definition hyphen_break `{Unicode} (before after : pystr) : bool :=
  (match before with
   | l1 :: l2 :: rest =>
       (letter l1 && letter l2)
       || (letter l1 && is_hyphen l2
           && match rest with l3 :: _ => letter l3 | [] => false end)
   | _ => false
   end)
  && match after with
     | a1 :: a2 :: rest =>
         letter a1
         && ((is_hyphen a2
              && match rest with a3 :: _ => letter a3 | [] => false end)
             || letter a2)
     | _ => false
     end.

(** The lazy [[^ws]+?] of the third alternative, after its first
    character: the number of further characters the match takes.  At each
    position the three endings are tried in the order of the pattern. *)
Fixpoint word_end `{Unicode} (before s : pystr) : nat :=
  match s with
  | [] => 0                                         (* [\Z] *)
  | c :: s' =>
      if is_hyphen c && hyphen_break before s' then 1
      else if tw_space c then 0
      else if after_word_punct before && emdash_ahead s then 0
      else S (word_end (c :: before) s')
  end.

(** Length of the match of [wordsep_re] at a position of a non-empty [s]. *)
Definition chunk_length `{Unicode} (before s : pystr) : nat :=
  match s with
  | [] => 0
  | c :: s' =>
      if tw_space c then length (take_while tw_space s)
      else if after_word_punct before && emdash_ahead s
      then length (take_while is_hyphen s)
      else S (word_end (c :: before) s')
  end.

(** [wordsep_re.split(text)] without the empty strings: a match starts at
    every position the previous one ended at. *)
Fixpoint split_from `{Unicode} (fuel : nat) (before s : pystr)
  : list pystr :=
  match fuel with
  | O => []
  | S fuel' =>
      match s with
      | [] => []
      | _ =>
          let n := chunk_length before s in
          firstn n s :: split_from fuel' (rev (firstn n s) ++ before)
                          (skipn n s)
      end
  end.

Definition _split `{Unicode} (text : pystr) : list pystr :=
  split_from (length text) [] text.

Definition _split_chunks `{Unicode} (text : pystr) : list pystr :=
  _split (_munge_whitespace text).

(** *** [_wrap_chunks] *)

(** [s.rfind(c)]: the highest index of [c] in [s], or [-1] *)
Fixpoint rfind_from (c : N) (i : Z) (s : pystr) (found : Z) : Z :=
  match s with
  | [] => found
  | x :: s' => rfind_from c (i + 1) s' (if N.eqb x c then i else found)
  end.

Definition rfind (c : N) (s : pystr) : Z := rfind_from c 0 s (-1).

(** [_handle_long_word]: returns the chunks and the line it leaves. *)
Definition _handle_long_word (chunks cur_line : list pystr)
  (cur_len width : nat) : list pystr * list pystr :=
  let space_left := if (width <? 1)%nat then 1 else width - cur_len in
  match chunks with
  | [] => (chunks, cur_line)
  | chunk :: rest =>
      let end_ :=
        if (space_left <? length chunk)%nat then
          (* [hyphen = chunk.rfind('-', 0, space_left)] *)
          let hy := rfind hyphen (firstn space_left chunk) in
          if (0 <? hy)%Z
             && existsb (fun c => negb (is_hyphen c))
                  (firstn (Z.to_nat hy) chunk)
          then Z.to_nat hy + 1 else space_left
        else space_left in
      (skipn end_ chunk :: rest, cur_line ++ [firstn end_ chunk])
  end.

(** The inner [while chunks] loop: chunks are moved onto the line while
    they fit. *)
Fixpoint take_fitting (width cur_len : nat) (cur_line chunks : list pystr)
  : list pystr * nat * list pystr :=
  match chunks with
  | [] => (cur_line, cur_len, [])
  | c :: rest =>
      if (cur_len + length c <=? width)%nat
      then take_fitting width (cur_len + length c) (cur_line ++ [c]) rest
      else (cur_line, cur_len, chunks)
  end.

(** [s.strip() == ''] *)
Definition blank (s : pystr) : bool := null (strip s).

(** [if cur_line and cur_line[-1].strip() == '': del cur_line[-1]] *)
Definition drop_trailing_blank (cur_line : list pystr) : list pystr :=
  match rev cur_line with
  | [] => cur_line
  | l :: _ => if blank l then removelast cur_line else cur_line
  end.

(** One turn of the outer [while chunks] loop, for non-empty [chunks]. *)
Definition wrap_line (width : nat) (chunks lines : list pystr)
  : list pystr * list pystr :=
  let chunks :=
    match chunks with
    | c :: rest =>
        if blank c && negb (match lines with [] => true | _ => false end)
        then rest else chunks
    | [] => chunks
    end in
  let '(cur_line, cur_len, chunks) := take_fitting width 0 [] chunks in
  let '(chunks, cur_line) :=
    match chunks with
    | c :: _ =>
        if (width <? length c)%nat
        then _handle_long_word chunks cur_line cur_len width
        else (chunks, cur_line)
    | [] => (chunks, cur_line)
    end in
  let cur_line := drop_trailing_blank cur_line in
  (chunks,
   match cur_line with
   | [] => lines
   | _ => lines ++ [concat cur_line]
   end).

(** The outer loop; it runs out of [fuel] only if a turn makes no
    progress. *)
Fixpoint wrap_loop (fuel width : nat) (chunks lines : list pystr)
  : option (list pystr) :=
  match chunks with
  | [] => Some lines
  | _ =>
      match fuel with
      | O => None
      | S fuel' =>
          let '(chunks', lines') := wrap_line width chunks lines in
          wrap_loop fuel' width chunks' lines'
      end
  end.

(** Every turn takes a chunk or a character off [chunks]. *)
Definition wrap_measure (chunks : list pystr) : nat :=
  length chunks + length (concat chunks).

Definition _wrap_chunks (width : Z) (chunks : list pystr)
  : result (list pystr) :=
  if (width <=? 0)%Z then Raise ValueError
  else
    match wrap_loop (wrap_measure chunks) (Z.to_nat width) chunks [] with
    | Some lines => Ok lines
    | None => Loops
    end.

Definition wrap `{Unicode} (text : pystr) (width : Z) : result (list pystr) :=
  _wrap_chunks width (_split_chunks text).

(** [sep.join(lines)] *)
Fixpoint join (sep : pystr) (lines : list pystr) : pystr :=
  match lines with
  | [] => []
  | [l] => l
  | l :: rest => l ++ sep ++ join sep rest
  end.

(** [textwrap.fill(text, width=width)] *)
Definition fill `{Unicode} (text : pystr) (width : Z) : result pystr :=
  lines <- wrap text width ;;
  Ok (join [newline] lines).

(** *** Words, as the specification speaks of them *)

(** The maximal runs of characters that are not separators ([sp]);
    [cur] is the run being read, last character first. *)
Fixpoint split_on (sp : N -> bool) (cur s : pystr) : list pystr :=
  match s with
  | [] => if null cur then [] else [rev cur]
  | c :: s' =>
      if sp c then
        (if null cur then split_on sp [] s' else rev cur :: split_on sp [] s')
      else split_on sp (c :: cur) s'
  end.

(** [s.split()]: the words between runs of whitespace *)
Definition py_split (s : pystr) : list pystr := split_on py_isspace [] s.

(** The words [textwrap] sees: the runs between its own whitespace. *)
Definition tw_words (s : pystr) : list pystr := split_on tw_space [] s.

(** [" ".join(s.split())]: whitespace normalised *)
Definition normalize (s : pystr) : pystr := join [space] (py_split s).

(** The word-wrapping property as the specification states it: the lines
    carry the words of the trimmed text whole and in order, and the joined
    lines, whitespace normalised, are the trimmed text. *)
Definition wrap_keeps_words `{Unicode} (text : pystr) (width : Z) : Prop :=
  exists lines,
    wrap (strip text) width = Ok lines
    /\ concat (map py_split lines) = py_split (strip text)
    /\ normalize (join [newline] lines) = strip text.

(** ** [posixpath.split], [posixpath.splitext], [posixpath.join] *)

Definition slash : N := 0x2F%N.
Definition dot : N := 0x2E%N.

(** [s.rstrip(c)] *)
Definition rstrip_char (c : N) (s : pystr) : pystr :=
  rev (drop_while (N.eqb c) (rev s)).

(** [p[:i]] and [p[i:]] for an index [i >= 0] *)
Definition upto (i : Z) (p : pystr) : pystr := firstn (Z.to_nat i) p.
Definition from (i : Z) (p : pystr) : pystr := skipn (Z.to_nat i) p.

Definition path_split (p : pystr) : pystr * pystr :=
  let i := (rfind slash p + 1)%Z in
  let head := upto i p in
  let tail := from i p in
  let head :=
    if negb (null head) && negb (forallb (N.eqb slash) head)
    then rstrip_char slash head else head in
  (head, tail).

Definition path_splitext (p : pystr) : pystr * pystr :=
  let sepIndex := rfind slash p in
  let dotIndex := rfind dot p in
  if (sepIndex <? dotIndex)%Z
     (* some character of [p[sepIndex+1 : dotIndex]] is not a dot *)
     && existsb (fun c => negb (N.eqb c dot))
          (from (sepIndex + 1) (upto dotIndex p))
  then (upto dotIndex p, from dotIndex p)
  else (p, []).

(** [s.startswith(c)] and [s.endswith(c)] for a character [c] *)
Definition startswith (c : N) (s : pystr) : bool :=
  match s with
  | x :: _ => N.eqb x c
  | [] => false
  end.

Definition endswith (c : N) (s : pystr) : bool := startswith c (rev s).

Definition path_join (a b : pystr) : pystr :=
  if startswith slash b then b
  else if null a || endswith slash a then a ++ b
  else a ++ [slash] ++ b.

(** ** [SubtitleGenerator.get_unique_filename]

    [exists_] is [os.path.exists] on the file system of the run. *)

Fixpoint pystr_eqb (a b : pystr) : bool :=
  match a, b with
  | [], [] => true
  | x :: a', y :: b' => N.eqb x y && pystr_eqb a' b'
  | _, _ => false
  end.

(** [f"{name} ({counter}){ext}"] joined to the directory *)
Definition numbered (directory name ext : pystr) (counter : Z) : pystr :=
  let new_name :=
    name ++ of_string " (" ++ str_int counter ++ of_string ")" ++ ext in
  path_join directory new_name.

(** The [while True] loop, from [counter] on. *)
Fixpoint unique_loop (exists_ : pystr -> bool) (fuel : nat)
  (directory name ext : pystr) (counter : Z) : result pystr :=
  match fuel with
  | O => Loops
  | S fuel' =>
      let new_path := numbered directory name ext counter in
      if negb (exists_ new_path) then Ok new_path
      else unique_loop exists_ fuel' directory name ext (counter + 1)
  end.

Definition get_unique_filename (exists_ : pystr -> bool) (fuel : nat)
  (path : pystr) : result pystr :=
  if negb (exists_ path) then Ok path
  else
    let '(directory, filename) := path_split path in
    let '(name, ext) := path_splitext filename in
    unique_loop exists_ fuel directory name ext 1.

(** The [n]-th path the loop tries. *)
Definition candidate (path : pystr) (n : Z) : pystr :=
  let '(directory, filename) := path_split path in
  let '(name, ext) := path_splitext filename in
  numbered directory name ext n.

(** A file system given by the finite list of the paths that exist. *)
Definition exists_in (fs : list pystr) (p : pystr) : bool :=
  existsb (pystr_eqb p) fs.

(** ** [SubtitleGenerator.generate_srt] *)

Record Segment := {
  seg_id : Z;
  seg_start : pyfloat;
  seg_end : pyfloat;
  seg_text : pystr
}.

(** Truth value of [self.set_language]: [None] and the empty string are
    false. *)
Definition is_set (set_language : option pystr) : bool :=
  match set_language with
  | Some (_ :: _) => true
  | _ => false
  end.

(** [detect_script(..) == name] *)
Definition returns (r : option Category) (name : string) : bool :=
  match r with
  | Some k => String.eqb (category_name k) name
  | None => false
  end.

Section Formatter.
Context `{Unicode}.

(** [self.translate_text(language, text)]: the translator is external;
    an unsupported language ends the run ([sys.exit]). *)
Variable translate_text : pystr -> pystr -> result pystr.
Variable set_language : option pystr.

(** The string [self.set_language] holds when it is set. *)
Definition language : pystr :=
  match set_language with
  | Some l => l
  | None => []
  end.

(** [self.translate_text(self.set_language, text) if self.set_language
    else text] *)
Definition shown_text (text : pystr) : result pystr :=
  if is_set set_language then translate_text language text else Ok text.

(** The [if]/[elif] chain that chooses the width. *)
Definition choose_width (example_string : pystr) : result Z :=
  if returns (detect_script example_string) "latin-cyrillic" then Ok 65%Z
  else if returns (detect_script example_string) "asian" then Ok 22%Z
  else if returns (detect_script example_string) "arabic" then Ok 30%Z
  else Raise ValueError.

(** One turn of the [for segment in segments] loop; [f] is what the file
    holds, the result what it holds after the three writes, which are
    taken to succeed here: [write_segment_utf8] further down takes them
    one by one, with the encoder of the file. *)
Definition write_segment (width : Z) (segment : Segment) (f : pystr)
  : result pystr :=
  start <- convert_time_to_srt_format (seg_start segment) ;;
  end_ <- convert_time_to_srt_format (seg_end segment) ;;
  text <- shown_text (seg_text segment) ;;
  formatted_text <- fill (strip text) width ;;
  let f := f ++ str_int (seg_id segment + 1) ++ [newline] in
  let f := f ++ start ++ of_string " --> " ++ end_ ++ [newline] in
  let f := f ++ formatted_text ++ [newline; newline] in
  Ok f.

(** The loop: an exception leaves in the file what was written so far. *)
Fixpoint write_segments (width : Z) (segments : list Segment) (f : pystr)
  : result unit * pystr :=
  match segments with
  | [] => (Ok tt, f)
  | segment :: rest =>
      match write_segment width segment f with
      | Ok f' => write_segments width rest f'
      | Raise e => (Raise e, f)
      | Loops => (Loops, f)
      end
  end.

(** [segments] is what [get_segments] returned, [file] the subtitle file
    before the call ([None]: no such file); the result pairs the outcome
    with the file after the call. *)
Definition generate_srt (segments : list Segment) (file : option pystr)
  : result unit * option pystr :=
  match segments with
  | [] => (Raise IndexError, file)                      (* [segments[0]] *)
  | first :: _ =>
      match example_string <- shown_text (seg_text first) ;;
            choose_width example_string with
      | Raise e => (Raise e, file)
      | Loops => (Loops, file)
      | Ok width =>
          (* [open(SUBTITLE_PATH, "w")] empties the file *)
          let '(r, f) := write_segments width segments [] in
          (r, Some f)
      end
  end.

(** The entry of a segment, from its pieces. *)
Definition entry (index : Z) (start end_ formatted_text : pystr) : pystr :=
  str_int index ++ [newline]
  ++ start ++ of_string " --> " ++ end_ ++ [newline]
  ++ formatted_text ++ [newline; newline].

(** [e] is the entry of [segment] at [width], with index [index]. *)
Definition entry_of (width : Z) (segment : Segment) (index : Z) (e : pystr)
  : Prop :=
  exists start end_ text formatted_text,
    convert_time_to_srt_format (seg_start segment) = Ok start
    /\ convert_time_to_srt_format (seg_end segment) = Ok end_
    /\ shown_text (seg_text segment) = Ok text
    /\ fill (strip text) width = Ok formatted_text
    /\ e = entry index start end_ formatted_text.
End Formatter.

(** The widths of the specification's table. *)
Definition spec_width (k : Category) : Z :=
  match k with
  | LatinCyrillic => 65%Z
  | Asian => 22%Z
  | ArabicCat => 30%Z
  end.

(** ** [SubtitleGenerator.apply_subtitles]: the choice of the style *)

Record RenderStyle := {
  font : string;
  font_size : Z;
  stroke_width : Z
}.

(** [SubtitleGenerator.FONTS.get(name)] *)
Definition FONTS (name : string) : string :=
  if String.eqb name "latin-cyrillic" then "./fonts/Roboto-Regular.ttf"
  else if String.eqb name "asian" then "./fonts/NotoSansSC.ttf"
  else if String.eqb name "arabic" then "./fonts/NotoSansArabic.ttf"
  else EmptyString.

(** Reading in text mode: ["\r\n"] and ["\r"] are read as ["\n"]. *)
Fixpoint universal_newlines (s : pystr) : pystr :=
  match s with
  | [] => []
  | c :: s' =>
      if N.eqb c 0x0D then
        newline :: match s' with
                   | d :: s'' =>
                       if N.eqb d newline then universal_newlines s''
                       else universal_newlines s'
                   | [] => []
                   end
      else c :: universal_newlines s'
  end.

(** The lines of a file, each with its newline; [cur] is the line being
    read, last character first. *)
Fixpoint lines_from (cur s : pystr) : list pystr :=
  match s with
  | [] => if null cur then [] else [rev cur]
  | c :: s' =>
      if N.eqb c newline then rev (c :: cur) :: lines_from [] s'
      else lines_from (c :: cur) s'
  end.

Definition file_lines (content : pystr) : list pystr :=
  lines_from [] (universal_newlines content).

(** The first [with] block of [apply_subtitles]: the style handed to the
    compositor.  [file] is the subtitle file ([None]: no such file). *)
Definition apply_subtitles `{Unicode} (file : option pystr)
  : result RenderStyle :=
  match file with
  | None => Raise FileNotFoundError
  | Some content =>
      let lines := firstn 3 (file_lines content) in
      match nth_error lines 2 with
      | None => Raise IndexError
      | Some text =>
          if returns (detect_script text) "latin-cyrillic" then
            Ok {| font := FONTS "latin-cyrillic";
                  font_size := 32; stroke_width := 3 |}
          else if returns (detect_script text) "asian" then
            Ok {| font := FONTS "asian"; font_size := 36; stroke_width := 6 |}
          else if returns (detect_script text) "arabic" then
            Ok {| font := FONTS "arabic"; font_size := 34; stroke_width := 4 |}
          else Raise ValueError
      end
  end.

(** The style table of the specification. *)
Definition spec_style (k : Category) : Z * Z :=
  match k with
  | LatinCyrillic => (32, 3)%Z
  | Asian => (36, 6)%Z
  | ArabicCat => (34, 4)%Z
  end.

(** ** [SubtitleGenerator.clean_temp]

    The temp directory is a list of named entries.  A symbolic link records
    what it resolves to, as [os.path.isfile] and [os.path.isdir] follow
    links.  Removals are taken to succeed. *)

Inductive link_target := ToFile | ToDirectory | ToOther | Dangling.

Inductive node :=
| RegularFile (content : pystr)
| Symlink (target : link_target)
| Directory (names : list pystr)            (* with the names it holds *)
| Special.                                  (* a fifo, socket or device *)

Definition directory := list (pystr * node).

Definition lookup (name : pystr) (d : directory) : option node :=
  option_map snd (find (fun e => pystr_eqb (fst e) name) d).

(** [os.remove(path)] and [shutil.rmtree(path)] both take the entry out. *)
Definition remove_entry (name : pystr) (d : directory) : directory :=
  filter (fun e => negb (pystr_eqb (fst e) name)) d.

Definition isfile (n : option node) : bool :=
  match n with
  | Some (RegularFile _) | Some (Symlink ToFile) => true
  | _ => false
  end.

Definition islink (n : option node) : bool :=
  match n with
  | Some (Symlink _) => true
  | _ => false
  end.

Definition isdir (n : option node) : bool :=
  match n with
  | Some (Directory _) | Some (Symlink ToDirectory) => true
  | _ => false
  end.

(** The body of the [for item in os.listdir(TEMP_PATH)] loop. *)
Definition clean_item (item : pystr) (d : directory) : directory :=
  if isfile (lookup item d) || islink (lookup item d) then remove_entry item d
  else if isdir (lookup item d) then remove_entry item d
  else d.

(** [temp] is the temp directory ([None]: it does not exist); the result
    pairs the outcome with the directory after the call. *)
Definition clean_temp (temp : option directory)
  : result unit * option directory :=
  match temp with
  | None => (Raise FileNotFoundError, None)
  | Some d =>
      (Ok tt, Some (fold_left (fun d item => clean_item item d) (map fst d) d))
  end.

(** What [clean_temp] is to delete. *)
Definition deletable (n : node) : bool :=
  match n with
  | RegularFile _ | Symlink _ | Directory _ => true
  | Special => false
  end.

(** *** Chunks the wrapping loop never breaks *)

(** A chunk of whitespace only, and not empty. *)
Definition gap (c : pystr) : Prop :=
  c <> [] /\ forallb py_isspace c = true.

(** Of any two neighbouring chunks one is a gap. *)
Fixpoint spaced (chunks : list pystr) : Prop :=
  match chunks with
  | [] => True
  | a :: rest =>
      match rest with
      | [] => True
      | b :: _ => (gap a \/ gap b) /\ spaced rest
      end
  end.

(** A chunk that is whitespace only or fits on a line. *)
Definition unbroken (width : nat) (c : pystr) : Prop :=
  forallb py_isspace c = true \/ length c <= width.

Definition good_chunks (width : nat) (chunks : list pystr) : Prop :=
  Forall (unbroken width) chunks /\ spaced chunks.

(** A character that is no whitespace of [textwrap]. *)
Definition tw_nonspace (c : N) : bool := negb (tw_space c).

(** Three texts to wrap at width 65: a word of 66 letters, a hyphenated
    word that comes where the line ends, and two words two spaces
    apart. *)
Definition long_word : pystr := repeat 0x61%N 66.

Definition hyphenated : pystr :=
  repeat 0x78%N 58 ++ of_string " well-known".

Definition two_spaces : pystr := of_string "a  b".

(** The two files of the specification's example, and the third name. *)
Definition out_mp4 : pystr := of_string "out.mp4".
Definition out_1_mp4 : pystr := of_string "out (1).mp4".
Definition out_2_mp4 : pystr := of_string "out (2).mp4".

(** A temp directory after a run: the audio, the subtitles, a link, a
    subdirectory and a socket. *)
Definition sample_temp : directory :=
  [(of_string "temp_audio.mp3", RegularFile [0x49; 0x44; 0x33]%N);
   (of_string "subs.srt", RegularFile []);
   (of_string "latest", Symlink Dangling);
   (of_string "cache", Directory [of_string "a"; of_string "b"]);
   (of_string "sock", Special)].

(** ** A run to try the pipeline on

    One segment, "Hello world" spoken from second 1 to second 3, no
    translation, and the subtitle file this run writes. *)

Definition no_translation : pystr -> pystr -> result pystr :=
  fun _ text => Ok text.

Definition hello_segment : Segment :=
  {| seg_id := 0;
     seg_start := float_of_dyadic 1 0;
     seg_end := float_of_dyadic 3 0;
     seg_text := of_string " Hello world" |}.

Definition hello_srt : pystr :=
  of_string "1" ++ [newline]
  ++ of_string "00:00:01,000 --> 00:00:03,000" ++ [newline]
  ++ of_string "Hello world" ++ [newline; newline].

(* ================================================================== *)
(** * Part I, continued. The rest of the program *)
(* ================================================================== *)

(** ** What wrapping keeps *)

(** The characters of a text that are no whitespace, in order. *)
Definition nonspace (s : pystr) : pystr :=
  filter (fun c => negb (py_isspace c)) s.

(** A text of twenty numbers and one word: the script of the whole is
    Latin, the first line its wrapping makes holds numbers only. *)
Definition numbers_then_word : pystr :=
  of_string "10 11 12 13 14 15 16 17 18 19 20 21 22 23 24 25 26 27 28 29 30 31 go".

Definition numbers_segment : Segment :=
  {| seg_id := 0;
     seg_start := float_of_dyadic 1 0;
     seg_end := float_of_dyadic 3 0;
     seg_text := numbers_then_word |}.


(** ** What the pipeline hands from one step to the next *)

(** A text with no line break in it. *)
Definition no_break (s : pystr) : Prop :=
  Forall (fun c => c <> newline /\ c <> 0x0D%N) s.

(** The style of a category, as [apply_subtitles] sets it. *)
Definition style_for (k : Category) : RenderStyle :=
  {| font := FONTS (category_name k);
     font_size := fst (spec_style k);
     stroke_width := snd (spec_style k) |}.

(** What [apply_subtitles] does with the outcome of [detect_script]. *)
Definition style_or_raise (r : option Category) : result RenderStyle :=
  match r with
  | Some k => Ok (style_for k)
  | None => Raise ValueError
  end.


(** The subtitle file the run on [numbers_segment] writes. *)
Definition numbers_srt : pystr :=
  Eval vm_compute in
    match snd (@generate_srt fragment no_translation None
                 [numbers_segment] None) with
    | Some content => content
    | None => []
    end.


(** ** Reading a timestamp back *)

(** The number a string of decimal digits writes; [acc] is the number
    read so far. *)
Fixpoint parse_digits (acc : Z) (s : pystr) : option Z :=
  match s with
  | [] => Some acc
  | c :: s' =>
      if between 48 57 c then parse_digits (10 * acc + (Z.of_N c - 48))%Z s'
      else None
  end.

(** The milliseconds a timestamp [HH:MM:SS,mmm] stands for. *)
Definition parse_srt_code (code : pystr) : option Z :=
  match code with
  | [h1; h0; c1; m1; m0; c2; s1; s0; c3; k2; k1; k0] =>
      if N.eqb c1 58 && N.eqb c2 58 && N.eqb c3 44 then
        match parse_digits 0 [h1; h0], parse_digits 0 [m1; m0],
              parse_digits 0 [s1; s0], parse_digits 0 [k2; k1; k0] with
        | Some h, Some m, Some s, Some k =>
            if (m <? 60)%Z && (s <? 60)%Z
            then Some (((h * 60 + m) * 60 + s) * 1000 + k)%Z
            else None
        | _, _, _, _ => None
        end
      else None
  | _ => None
  end.

(** Half a second before zero. *)
Definition float_minus_0_5 : pyfloat := float_of_dyadic (-1) (-1).


(** ** The command line: [get_args] and [SubtitleGenerator.__init__] *)

(** [s.startswith(prefix)] and [s.endswith(suffix)] for strings *)
Fixpoint has_prefix (prefix s : pystr) : bool :=
  match prefix, s with
  | [], _ => true
  | x :: prefix', y :: s' => N.eqb x y && has_prefix prefix' s'
  | _ :: _, [] => false
  end.

Definition str_endswith (s suffix : pystr) : bool :=
  has_prefix (rev suffix) (rev s).

Definition mp4 : pystr := of_string ".mp4".

(** The exceptions of the command line and of the loading bar, beside
    those of the formatter. *)
Inductive raised :=
  | Builtin (e : exn)
  | FileExistsError
  | UnboundLocalError
  | ZeroDivisionError
  | UnicodeEncodeError
  | EOFError.

Inductive outcome (A : Type) :=
  | Return (a : A)
  | Throw (e : raised)
  | Diverges.
Arguments Return {A} a.
Arguments Throw {A} e.
Arguments Diverges {A}.

Definition of_result {A : Type} (r : result A) : outcome A :=
  match r with
  | Ok a => Return a
  | Raise e => Throw (Builtin e)
  | Loops => Diverges
  end.

(** What [parser.parse_args()] returns: [--input] and [--output] are
    required, [--subs] is [None] when not given. *)
Record Namespace := {
  ns_input : pystr;
  ns_output : pystr;
  ns_subs : option pystr
}.

(** [get_args], from [args = parser.parse_args()] on.  The tuple it
    returns has two members, or three when [args.subs] is true: the third
    is [None] here for the tuple of two. *)
Definition get_args (exists_ : pystr -> bool) (args : Namespace)
  : outcome (pystr * pystr * option pystr) :=
  if negb (exists_ (ns_input args)) then Throw (Builtin FileNotFoundError)
  else if pystr_eqb (ns_input args) (ns_output args) then
    Throw FileExistsError
  else if negb (str_endswith (ns_input args) mp4)
          || negb (str_endswith (ns_output args) mp4) then
    Throw (Builtin ValueError)
  else if is_set (ns_subs args) then
    Return (ns_input args, ns_output args, ns_subs args)
  else Return (ns_input args, ns_output args, None).

Definition SUBTITLE_MODELS : list pystr :=
  [of_string "tiny"; of_string "small"; of_string "medium";
   of_string "large"; of_string "turbo"].

(** The attributes [__init__] sets. *)
Record Generator := {
  input_path : pystr;
  output_path : pystr;
  subtitle_model : pystr;
  set_language : option pystr
}.

(** [SubtitleGenerator.__init__].  [prepare] stands for what follows the
    check of the model name: the temporary directory is made, the whisper
    model loaded and the audio track written. *)
Definition __init__ (exists_ : pystr -> bool) (fuel : nat)
  (prepare : Generator -> result unit)
  (input output model : pystr) (language : option pystr)
  : result Generator :=
  unique <- get_unique_filename exists_ fuel output ;;
  let self := {| input_path := input;
                 output_path := unique;
                 subtitle_model := model;
                 set_language := language |} in
  if negb (existsb (pystr_eqb model) SUBTITLE_MODELS) then Raise ValueError
  else _ <- prepare self ;; Ok self.

(** The call of [SubtitleGenerator] in [start_menu], with the tuple of
    [get_args] unpacked into its arguments: the model is [small] for a
    tuple of two. *)
Definition SubtitleGenerator (exists_ : pystr -> bool) (fuel : nat)
  (prepare : Generator -> result unit)
  (args : pystr * pystr * option pystr) (language : option pystr)
  : result Generator :=
  let '(input, output, subs) := args in
  match subs with
  | Some model => __init__ exists_ fuel prepare input output model language
  | None =>
      __init__ exists_ fuel prepare input output (of_string "small") language
  end.

(** A file system with the input video only, and one where the output
    exists as well. *)
Definition in_mp4 : pystr := of_string "in.mp4".

Definition in_out_args : Namespace :=
  {| ns_input := in_mp4; ns_output := out_mp4; ns_subs := None |}.

Definition prepared : Generator -> result unit := fun _ => Ok tt.

(** A path whose file name is the extension alone. *)
Definition bare_mp4 : pystr := of_string "videos/.mp4".


(** ** The writes of [generate_srt]

    The subtitle file is opened with [encoding="utf-8"].  A write encodes
    its string first: the encoder refuses a surrogate, the write then
    raises UnicodeEncodeError with nothing of its string written, and what
    was written before stays in the file when it is closed.  An error of
    the file system and an interrupt can end a write as well; they are
    no part of this model. *)

Definition surrogate (c : N) : bool := between 0xD800 0xDFFF c.

Definition encodable (s : pystr) : bool :=
  forallb (fun c => negb (surrogate c)) s.

(** [f.write(s)]; [f] is what the file holds. *)
Definition f_write (s f : pystr) : outcome unit * pystr :=
  if encodable s then (Return tt, f ++ s) else (Throw UnicodeEncodeError, f).

(** A value the turn computes before its writes: an exception there
    leaves the file as it is. *)
Definition computed {A : Type} (r : result A) (f : pystr)
  (k : A -> outcome unit * pystr) : outcome unit * pystr :=
  match r with
  | Ok a => k a
  | Raise e => (Throw (Builtin e), f)
  | Loops => (Diverges, f)
  end.

(** The next statement runs when the write before it returned. *)
Definition and_then (w : outcome unit * pystr)
  (k : pystr -> outcome unit * pystr) : outcome unit * pystr :=
  match w with
  | (Return _, f) => k f
  | (Throw e, f) => (Throw e, f)
  | (Diverges, f) => (Diverges, f)
  end.

Section Writes.
Context `{Unicode}.
Variable translate_text : pystr -> pystr -> result pystr.
Variable set_language : option pystr.

(** One turn of the [for segment in segments] loop, write by write. *)
Definition write_segment_utf8 (width : Z) (segment : Segment) (f : pystr)
  : outcome unit * pystr :=
  computed (convert_time_to_srt_format (seg_start segment)) f (fun start =>
  computed (convert_time_to_srt_format (seg_end segment)) f (fun end_ =>
  computed (shown_text translate_text set_language (seg_text segment)) f
    (fun text =>
  computed (fill (strip text) width) f (fun formatted_text =>
  and_then (f_write (str_int (seg_id segment + 1) ++ [newline]) f) (fun f =>
  and_then (f_write (start ++ of_string " --> " ++ end_ ++ [newline]) f)
    (fun f =>
  f_write (formatted_text ++ [newline; newline]) f)))))).

Fixpoint write_segments_utf8 (width : Z) (segments : list Segment)
  (f : pystr) : outcome unit * pystr :=
  match segments with
  | [] => (Return tt, f)
  | segment :: rest =>
      and_then (write_segment_utf8 width segment f)
        (write_segments_utf8 width rest)
  end.

(** [generate_srt] with the writes as the file makes them. *)
Definition generate_srt_utf8 (segments : list Segment) (file : option pystr)
  : outcome unit * option pystr :=
  match segments with
  | [] => (Throw (Builtin IndexError), file)
  | first :: _ =>
      match example_string <-
              shown_text translate_text set_language (seg_text first) ;;
            choose_width example_string with
      | Raise e => (Throw (Builtin e), file)
      | Loops => (Diverges, file)
      | Ok width =>
          let '(r, f) := write_segments_utf8 width segments [] in
          (r, Some f)
      end
  end.

(** The two lines of an entry that are in the file when the third write
    raises. *)
Definition torn_entry (index : Z) (start end_ : pystr) : pystr :=
  str_int index ++ [newline]
  ++ start ++ of_string " --> " ++ end_ ++ [newline].
End Writes.

(** A second segment whose text holds a lone surrogate. *)
Definition surrogate_segment : Segment :=
  {| seg_id := 1;
     seg_start := float_of_dyadic 4 0;
     seg_end := float_of_dyadic 5 0;
     seg_text := [0x61; 0xD800]%N |}.

(** ** The loading bar: [LoadingBar] of [editor/helper.py] *)

(** [str.lower] and [str.title]: on the whole string, since the Unicode
    mappings look at the characters around. *)
Class Casing := {
  str_lower : pystr -> pystr;
  str_title : pystr -> pystr
}.

(** The two on ASCII strings. *)
Definition to_lower (c : N) : N := if between 0x41 0x5A c then (c + 32)%N else c.
Definition to_upper (c : N) : N := if between 0x61 0x7A c then (c - 32)%N else c.

Fixpoint title_from (previous_is_cased : bool) (s : pystr) : pystr :=
  match s with
  | [] => []
  | c :: s' =>
      (if previous_is_cased then to_lower c else to_upper c)
        :: title_from (ascii_letter c) s'
  end.

Definition ascii_casing : Casing :=
  {| str_lower := map to_lower; str_title := title_from false |}.

Module LoadingBar.

Definition underscore : N := 0x5F%N.
Definition carriage_return : N := 0x0D%N.

(** [s * n] *)
Definition str_mul (s : pystr) (n : Z) : pystr :=
  concat (repeat s (Z.to_nat n)).

(** [range(a, b)] *)
Definition range (a b : Z) : list Z :=
  map (fun i => (a + Z.of_nat i)%Z) (seq 0 (Z.to_nat (b - a))).

Definition style_names : list pystr :=
  [of_string "simple"; of_string "hash"; of_string "blocks";
   of_string "dots"].

(** [get_style]; [length] is an [int] here, so the first check passes. *)
Definition get_style (style_name : pystr) (length : Z)
  : result (list pystr) :=
  if (length >? 20)%Z then Raise ValueError
  else if (length <=? 0)%Z then Raise ValueError
  else if pystr_eqb style_name (of_string "simple") then
    Ok [of_string "|"; of_string "/"; of_string "-"; [0x5C%N]]
  else if pystr_eqb style_name (of_string "hash") then
    Ok (map (fun i => of_string "[" ++ str_mul (of_string "#") i
                      ++ str_mul (of_string "-") (length - i)
                      ++ of_string "]")
          (range 1 (length + 1)))
  else if pystr_eqb style_name (of_string "blocks") then
    Ok (map (fun i => of_string "| " ++ str_mul [0x2588%N] i
                      ++ str_mul [0x2591%N] (length - i)
                      ++ of_string " |")
          (range 1 (length + 1)))
  else if pystr_eqb style_name (of_string "dots") then
    Ok [[0x283E%N]; [0x2837%N]; [0x282F%N]; [0x281F%N]; [0x283B%N];
        [0x283D%N]]
  else Raise ValueError.

(** [s.split(sep)] for a separator of one character; [cur] is the piece
    being read, last character first. *)
Fixpoint str_split (sep : N) (cur s : pystr) : list pystr :=
  match s with
  | [] => [rev cur]
  | c :: s' =>
      if N.eqb c sep then rev cur :: str_split sep [] s'
      else str_split sep (c :: cur) s'
  end.

Definition words_of (func_name : pystr) : list pystr :=
  filter (fun w => negb (null w)) (str_split underscore [] func_name).

Definition format_func_name `{Casing} (func_name : pystr) : result pystr :=
  match words_of func_name with
  | [] => Raise IndexError
  | word :: rest =>
      let first_word := strip (str_lower word) in
      let first_word :=
        if pystr_eqb first_word (of_string "init")
        then of_string "Initialization" else first_word in
      let rest_words := map str_title rest in
      Ok (join [space] (str_title first_word :: rest_words))
  end.

Definition prefix_of (class_name : option pystr) : pystr :=
  match class_name with
  | Some (c :: name) => (c :: name) ++ of_string ": Loading -->"
  | _ => of_string "Loading -->"
  end.

(** [style[idx % len(style)] * repeat] *)
Definition frame_at (style : list pystr) (repeat idx : Z) : outcome pystr :=
  match style with
  | [] => Throw ZeroDivisionError
  | _ :: _ =>
      Return (str_mul (nth (Z.to_nat (idx mod Z.of_nat (length style)))
                         style [])
                repeat)
  end.

Definition loading_line (prefix formatted_name frame : pystr) : pystr :=
  [carriage_return] ++ prefix ++ of_string " " ++ formatted_name
    ++ of_string " ... " ++ frame ++ of_string " ".

(** The loop of [_animate]: [ticks] is the number of times the stop event
    is found not set; [loading_string] is [None] while the name is not
    bound; [written] is what went to the standard output so far. *)
Fixpoint animate_loop (prefix formatted_name : pystr) (style : list pystr)
  (repeat : Z) (ticks : nat) (idx : Z) (loading_string : option pystr)
  (written : list pystr) : outcome (option pystr * list pystr) :=
  match ticks with
  | O => Return (loading_string, written)
  | S ticks' =>
      match frame_at style repeat idx with
      | Return frame =>
          let line := loading_line prefix formatted_name frame in
          animate_loop prefix formatted_name style repeat ticks'
            (idx + 1) (Some line) (written ++ [line])
      | Throw e => Throw e
      | Diverges => Diverges
      end
  end.

Definition blank_line (width : nat) : pystr :=
  [carriage_return] ++ str_mul (of_string " ") (Z.of_nat width)
    ++ [carriage_return].

Definition done_line (prefix formatted_name : pystr) : pystr :=
  prefix ++ of_string " " ++ formatted_name ++ of_string " ... Done."
    ++ [newline].

(** [_animate]: what the thread writes to the standard output. *)
Definition _animate (formatted_name : pystr) (style : list pystr)
  (repeat : Z) (class_name : option pystr) (ticks : nat)
  : outcome (list pystr) :=
  let prefix := prefix_of class_name in
  let formatted_name := strip formatted_name in
  match animate_loop prefix formatted_name style repeat ticks 0 None [] with
  | Return (Some loading_string, written) =>
      Return (written ++ [blank_line (length loading_string);
                          done_line prefix formatted_name])
  | Return (None, _) => Throw UnboundLocalError
  | Throw e => Throw e
  | Diverges => Diverges
  end.

(** What [wrap] of [simple_loading] does around the function it
    decorates: the name is formatted and the frames are looked up in the
    caller, then the thread animates until the function is over. *)
Definition simple_loading `{Casing} (style_name : pystr) (length : Z)
  (func_name : pystr) (class_name : option pystr) (ticks : nat)
  : result (outcome (list pystr)) :=
  formatted_name <- format_func_name func_name ;;
  style <- get_style style_name length ;;
  let repeat := if pystr_eqb style_name (of_string "simple") then 5%Z
                else 1%Z in
  Ok (_animate formatted_name style repeat class_name ticks).

End LoadingBar.

Definition is_underscore (c : N) : bool := N.eqb c LoadingBar.underscore.


(** [LoadingBar.split_camel]: the two substitutions of [re.sub], each a
    scan from the left that replaces the matches it meets and goes on
    behind them. *)
Module SplitCamel.

(** [[A-Z]] and [[a-z]] *)
Definition upper (c : N) : bool := between 0x41 0x5A c.
Definition lower (c : N) : bool := between 0x61 0x7A c.

Definition at_ (s : pystr) (i : nat) : option N := nth_error s i.

Definition test (p : N -> bool) (c : option N) : bool :=
  match c with
  | Some x => p x
  | None => false
  end.

(** The first pattern at the head of [s], with [[A-Z]+] taking [j]
    characters of the run of capitals: the longest such [j] down to one
    for which a capital and a small letter follow. *)
Fixpoint backtrack (s : pystr) (j : nat) : option nat :=
  match j with
  | O => None
  | S j' =>
      if test upper (at_ s j) && test lower (at_ s (j + 1)) then Some j
      else backtrack s j'
  end.

Definition match_acronym (s : pystr) : option nat :=
  backtrack s (length (take_while upper s)).

(** [re.sub(r"([A-Z]+)([A-Z][a-z])", r"\1 \2", s)] *)
Fixpoint sub_acronym (fuel : nat) (s : pystr) : pystr :=
  match fuel with
  | O => s
  | S fuel' =>
      match s with
      | [] => []
      | c :: s' =>
          match match_acronym s with
          | Some j =>
              firstn j s ++ [space] ++ firstn 2 (skipn j s)
                ++ sub_acronym fuel' (skipn (j + 2) s)
          | None => c :: sub_acronym fuel' s'
          end
      end
  end.

(** [re.sub(r"([a-z])([A-Z])", r"\1 \2", s)] *)
Fixpoint sub_boundary (s : pystr) : pystr :=
  match s with
  | [] => []
  | c :: s' =>
      match s' with
      | d :: s'' =>
          if lower c && upper d then c :: space :: d :: sub_boundary s''
          else c :: sub_boundary s'
      | [] => [c]
      end
  end.

Definition split_camel (s : pystr) : pystr :=
  let s := sub_acronym (length s) s in
  sub_boundary s.

End SplitCamel.

(** A text without its spaces. *)
Definition unspaced (s : pystr) : pystr :=
  filter (fun c => negb (N.eqb c space)) s.

(** No small letter stands right before a capital. *)
Fixpoint boundaries_split (s : pystr) : Prop :=
  match s with
  | [] => True
  | c :: s' =>
      match s' with
      | d :: _ => SplitCamel.lower c && SplitCamel.upper d = false
      | [] => True
      end /\ boundaries_split s'
  end.

(** ** The menu: [start_menu] and [is_valid_language] of [project.py] *)

(** [supported] are the codes [GoogleTranslator] lists, the values of
    the dictionary of [get_supported_languages]. *)
Definition is_valid_language (supported : list pystr) (code : pystr)
  : bool :=
  existsb (pystr_eqb code) supported.

(** The three calls of [input] a turn of the menu can wait at. *)
Inductive prompt := Choice | Language | PressEnter.

Section Menu.
Variable World : Type.
(** [video = SubtitleGenerator(..., set_language=language); video.run()]
    on the files and services of the moment. *)
Variable run : option pystr -> World -> result unit * World.
Variable supported : list pystr.

(** The loop of [start_menu] on the lines typed, from the prompt [at_]
    on: the languages of the runs made, in order, and how the loop ends.
    [input] raises EOFError when no line is left. *)
Fixpoint menu_loop (at_ : prompt) (inputs : list pystr) (world : World)
  : list (option pystr) * outcome unit :=
  match inputs with
  | [] => ([], Throw EOFError)
  | line :: rest =>
      let make := fun language : option pystr =>
        match run language world with
        | (Ok _, world') =>
            let '(ran, out) := menu_loop PressEnter rest world' in
            (language :: ran, out)
        | (Raise e, _) => ([language], Throw (Builtin e))
        | (Loops, _) => ([language], Diverges)
        end in
      match at_ with
      | Choice =>
          if pystr_eqb line (of_string "1") then make None
          else if pystr_eqb line (of_string "2") then
            menu_loop Language rest world
          else if pystr_eqb line (of_string "3") then
            ([], Throw (Builtin SystemExit))
          else menu_loop PressEnter rest world
      | Language =>
          let language := strip line in
          if is_valid_language supported language then make (Some language)
          else menu_loop Language rest world
      | PressEnter => menu_loop Choice rest world
      end
  end.

Definition start_menu (inputs : list pystr) (world : World)
  : list (option pystr) * outcome unit :=
  menu_loop Choice inputs world.

End Menu.

(** A language the menu hands to the generator: none, or a supported
    code that is one of the lines typed, trimmed. *)
Definition checked (supported inputs : list pystr)
  (language : option pystr) : Prop :=
  match language with
  | None => True
  | Some code =>
      is_valid_language supported code = true
      /\ exists line, In line inputs /\ code = strip line
  end.

(** A session: a wrong code, then Spanish with blanks around it, then
    the exit. *)
Definition session : list pystr :=
  [of_string "2"; of_string "Spanish"; of_string " es "; of_string "";
   of_string "3"].

Definition two_codes : list pystr := [of_string "en"; of_string "es"].

Definition every_run_returns : option pystr -> unit -> result unit * unit :=
  fun _ w => (Ok tt, w).


(** Two Latin letters with U+1680 between them. *)
Definition ogham_between : pystr := [0x61; 0x1680; 0x62]%N.

(* ================================================================== *)
(** * Part II. Properties *)
(* ================================================================== *)

(** ** [str.strip] *)

Lemma lstrip_incl s c : In c (lstrip s) -> In c s.
Proof.
  induction s as [|x s IH]; simpl; auto.
  destruct (py_isspace x); simpl; auto.
Qed.

Lemma lstrip_keeps s c : In c s -> py_isspace c = false -> In c (lstrip s).
Proof.
  induction s as [|x s IH]; simpl; auto.
  intros [->|Hin] Hc.
  - rewrite Hc. now left.
  - destruct (py_isspace x); [auto | now right].
Qed.

Lemma strip_incl s c : In c (strip s) -> In c s.
Proof.
  unfold strip, rstrip. intros Hin.
  apply lstrip_incl. apply in_rev. apply lstrip_incl. now apply in_rev in Hin.
Qed.

Lemma strip_keeps s c : In c s -> py_isspace c = false -> In c (strip s).
Proof.
  unfold strip, rstrip. intros Hin Hc.
  apply in_rev. rewrite rev_involutive.
  apply lstrip_keeps; auto. apply in_rev. rewrite rev_involutive.
  now apply lstrip_keeps.
Qed.

Lemma lstrip_nil_iff s : lstrip s = [] <-> forallb py_isspace s = true.
Proof.
  induction s as [|x s IH]; simpl; [tauto|].
  destruct (py_isspace x); simpl; [exact IH|].
  split; discriminate.
Qed.

Lemma forallb_rev (p : N -> bool) s : forallb p (rev s) = forallb p s.
Proof.
  induction s as [|x s IH]; simpl; auto.
  rewrite forallb_app, IH. simpl. rewrite andb_true_r. apply andb_comm.
Qed.

Lemma lstrip_forallb (p : N -> bool) s :
  forallb p s = true -> forallb p (lstrip s) = true.
Proof.
  induction s as [|x s IH]; simpl; auto.
  intros [Hx Hs]%andb_prop. destruct (py_isspace x); simpl; auto.
  now rewrite Hx, Hs.
Qed.

Lemma strip_nil_iff s : strip s = [] <-> forallb py_isspace s = true.
Proof.
  unfold strip, rstrip. split.
  - intros E. apply (f_equal (@rev N)) in E. rewrite rev_involutive in E.
    simpl in E. apply lstrip_nil_iff in E. rewrite forallb_rev in E.
    destruct (forallb py_isspace s) eqn:Hs; auto.
    (* a character that is not a space survives [lstrip] *)
    assert (Hex : exists c, In c s /\ py_isspace c = false).
    { clear E. induction s as [|x s IH]; simpl in Hs; [discriminate|].
      destruct (py_isspace x) eqn:Hx.
      - destruct (IH Hs) as (c & Hin & Hc). exists c. split; [now right|auto].
      - exists x. split; [now left|auto]. }
    destruct Hex as (c & Hin & Hc).
    rewrite forallb_forall in E.
    rewrite (E c (lstrip_keeps _ _ Hin Hc)) in Hc. discriminate.
  - intros Hs. apply lstrip_nil_iff in Hs as E1. rewrite E1. reflexivity.
Qed.

Lemma blank_iff s : blank s = true <-> forallb py_isspace s = true.
Proof.
  unfold blank. rewrite <- strip_nil_iff.
  destruct (strip s); simpl; split; congruence.
Qed.

(** ** The pattern matcher against the language of a pattern *)

Lemma nullable_matches r : nullable r = true <-> matches r [].
Proof.
  split.
  - induction r; simpl; intros Hn; try discriminate.
    + constructor.
    + apply andb_prop in Hn as [H1 H2].
      change (@nil N) with (@nil N ++ []). constructor; auto.
    + apply orb_prop in Hn as [H1|H2]; [apply MAltL|apply MAltR]; auto.
    + constructor.
  - intros Hm. remember [] as s eqn:Es.
    induction Hm; simpl; auto; try discriminate.
    + apply app_eq_nil in Es as [-> ->]. now rewrite IHHm1, IHHm2.
    + now rewrite IHHm.
    + rewrite IHHm; auto. apply orb_true_r.
Qed.

Lemma matches_star_cons r c s :
  matches (Star r) (c :: s) ->
  exists s1 s2, s = s1 ++ s2 /\ matches r (c :: s1) /\ matches (Star r) s2.
Proof.
  intros Hm. remember (Star r) as r' eqn:Er. remember (c :: s) as t eqn:Et.
  revert c s Et.
  induction Hm; intros c0 s0 Et; try discriminate.
  injection Er as ->.
  destruct s1 as [|x s1]; simpl in Et.
  - apply IHHm2; auto.
  - injection Et as -> <-. exists s1, s2. auto.
Qed.

Lemma deriv_matches r c s : matches (deriv r c) s <-> matches r (c :: s).
Proof.
  revert s. induction r; intros s; simpl.
  - split; intros Hm; inversion Hm.
  - split; intros Hm; inversion Hm.
  - destruct (p c) eqn:Hp; split; intros Hm; inversion Hm; subst.
    + now constructor.
    + constructor.
    + congruence.
  - destruct (nullable r1) eqn:Hn.
    + split; intros Hm.
      * inversion Hm as [| | | ? ? ? Hl | ? ? ? Hr | |]; subst.
        -- inversion Hl; subst.
           change (c :: s1 ++ s2) with ((c :: s1) ++ s2).
           constructor; auto. now apply IHr1.
        -- change (c :: s) with ([] ++ c :: s). constructor.
           ++ now apply nullable_matches.
           ++ now apply IHr2.
      * inversion Hm as [| | ? ? s1 s2 H1 H2 | | | |]; subst.
        destruct s1 as [|x s1]; simpl in *; subst.
        -- apply MAltR. now apply IHr2.
        -- match goal with E : _ :: _ = _ :: _ |- _ => injection E as -> <- end.
           apply MAltL. constructor; auto. now apply IHr1.
    + split; intros Hm.
      * inversion Hm; subst.
        change (c :: s1 ++ s2) with ((c :: s1) ++ s2).
        constructor; auto. now apply IHr1.
      * inversion Hm as [| | ? ? s1 s2 H1 H2 | | | |]; subst.
        destruct s1 as [|x s1]; simpl in *; subst.
        -- apply nullable_matches in H1. congruence.
        -- match goal with E : _ :: _ = _ :: _ |- _ => injection E as -> <- end.
           constructor; auto. now apply IHr1.
  - split; intros Hm; inversion Hm; subst.
    + apply MAltL. now apply IHr1.
    + apply MAltR. now apply IHr2.
    + apply MAltL. now apply IHr1.
    + apply MAltR. now apply IHr2.
  - split; intros Hm.
    + inversion Hm; subst.
      change (c :: s1 ++ s2) with ((c :: s1) ++ s2).
      constructor; auto. now apply IHr.
    + apply matches_star_cons in Hm as (s1 & s2 & -> & H1 & H2).
      constructor; auto. now apply IHr.
Qed.

Lemma fullmatch_matches r s : fullmatch r s = true <-> matches r s.
Proof.
  unfold fullmatch. revert r.
  induction s as [|c s IH]; intros r; simpl.
  - apply nullable_matches.
  - rewrite IH. apply deriv_matches.
Qed.

Lemma matches_star_class p s :
  matches (Star (Class_ p)) s <-> forallb p s = true.
Proof.
  split.
  - intros Hm. remember (Star (Class_ p)) as r eqn:Er.
    induction Hm; try discriminate; auto.
    injection Er as ->. rewrite forallb_app, IHHm2 by reflexivity.
    inversion Hm1; subst. simpl. now rewrite H0.
  - induction s as [|c s IH]; simpl; intros Hs; [constructor|].
    apply andb_prop in Hs as [Hc Hs].
    change (c :: s) with ([c] ++ s). constructor; auto. now constructor.
Qed.

(** [[cls]+] matches the whole of [s]: [s] is not empty and all its
    characters are in the class. *)
Lemma fullmatch_plus_class p s :
  fullmatch (Plus (Class_ p)) s = negb (null s) && forallb p s.
Proof.
  apply eq_true_iff_eq. rewrite fullmatch_matches. unfold Plus. split.
  - intros Hm. inversion Hm as [| | ? ? s1 s2 H1 H2 | | | |]; subst.
    inversion H1; subst. apply matches_star_class in H2.
    simpl. now rewrite H0, H2.
  - destruct s as [|c s]; simpl; [discriminate|].
    intros [Hc Hs]%andb_prop.
    change (c :: s) with ([c] ++ s). constructor.
    + now constructor.
    + now apply matches_star_class.
Qed.

Lemma match_here_void s : match_here Void s = false.
Proof. induction s; simpl; auto. Qed.

(** [[cls]] is found in [s]: some character of [s] is in the class. *)
Lemma search_class p s : search (Class_ p) s = existsb p s.
Proof.
  induction s as [|c s IH]; simpl; auto.
  rewrite IH. f_equal.
  destruct (p c); [now destruct s | apply match_here_void].
Qed.

(** ** The script classifier *)

Section Classifier.
Context `{U : Unicode}.

(** The test of the source is the match of the specification, on a
    string that is not empty. *)
Lemma script_test_spec k t : script_test k t = category_matches k t.
Proof.
  unfold script_test, category_matches, allowed_scripts.
  rewrite fullmatch_plus_class, search_class.
  destruct t as [|c t]; simpl; auto.
Qed.

Lemma Script_eqb_eq a b : Script_eqb a b = true <-> a = b.
Proof. destruct a, b; simpl; split; congruence. Qed.

Lemma in_scripts_In l c : in_scripts l c = true <-> In (script_of c) l.
Proof.
  unfold in_scripts. rewrite existsb_exists. split.
  - intros (x & Hin & ->%Script_eqb_eq). exact Hin.
  - intros Hin. exists (script_of c). split; auto. now apply Script_eqb_eq.
Qed.

(** A character strictly of category [k1] is allowed in category [k2]
    only if the two are the same. *)
Lemma strict_allowed_same k1 k2 c :
  strict k1 c = true -> in_scripts (allowed_scripts k2) c = true -> k1 = k2.
Proof.
  unfold strict. rewrite !in_scripts_In.
  destruct (script_of c), k1, k2; simpl; intuition congruence.
Qed.

Lemma category_matches_unique k1 k2 t :
  category_matches k1 t = true -> category_matches k2 t = true -> k1 = k2.
Proof.
  unfold category_matches.
  intros [_ H1]%andb_prop [H2 _]%andb_prop.
  apply existsb_exists in H1 as (c & Hin & Hc).
  rewrite forallb_forall in H2.
  apply (strict_allowed_same k1 k2 c Hc). now apply H2.
Qed.

Lemma script_test_unique k1 k2 t :
  script_test k1 t = true -> script_test k2 t = true -> k1 = k2.
Proof. rewrite !script_test_spec. apply category_matches_unique. Qed.

Lemma category_matches_nil k : category_matches k [] = false.
Proof. reflexivity. Qed.

Lemma detect_script_first_match text : detect_script text = first_match text.
Proof.
  unfold detect_script, first_match, priority_order. simpl.
  rewrite !script_test_spec.
  destruct (strip text) as [|c t]; simpl; auto.
Qed.

Lemma first_match_none text :
  first_match text = None <->
  forall k, category_matches k (strip text) = false.
Proof.
  unfold first_match. split.
  - intros Hf k. apply (find_none _ _ Hf). destruct k; simpl; auto.
  - intros Hall. simpl. now rewrite !Hall.
Qed.

(** A string with no match is undetermined. *)
Lemma no_match_undetermined text :
  (forall k, category_matches k (strip text) = false) ->
  detect_script text = None.
Proof.
  intros Hall. rewrite detect_script_first_match. now apply first_match_none.
Qed.

(** A character that is Common is strictly of no category. *)
Lemma common_not_strict k c : script_of c = Common -> strict k c = false.
Proof.
  intros Hc. destruct (strict k c) eqn:Hs; auto.
  unfold strict in Hs. apply in_scripts_In in Hs.
  rewrite Hc in Hs. destruct k; simpl in Hs; intuition discriminate.
Qed.

(** A category matches the stripped text exactly when [detect_script]
    returns it. *)
Lemma detect_script_some k text :
  detect_script text = Some k <-> category_matches k (strip text) = true.
Proof.
  rewrite detect_script_first_match. unfold first_match. split.
  - intros Hf. now apply find_some in Hf as [_ Hk].
  - intros Hk.
    destruct (find (fun k => category_matches k (strip text)) priority_order)
      as [k'|] eqn:Hf.
    + apply find_some in Hf as [_ Hk']. f_equal.
      exact (category_matches_unique k' k _ Hk' Hk).
    + exfalso. assert (Hin : In k priority_order)
        by (destruct k; simpl; auto).
      pose proof (find_none _ _ Hf k Hin) as Hn. cbv beta in Hn.
      congruence.
Qed.

(** The first match of any arrangement of pairwise exclusive tests is
    the first match of any other. *)
Lemma find_exclusive_perm (f : Category -> bool) (l1 l2 : list Category) :
  (forall a b, f a = true -> f b = true -> a = b) ->
  Permutation l1 l2 -> find f l1 = find f l2.
Proof.
  intros Hex Hp. induction Hp; simpl; auto.
  - now rewrite IHHp.
  - destruct (f x) eqn:Hx, (f y) eqn:Hy; auto.
    now rewrite (Hex x y Hx Hy).
  - congruence.
Qed.
End Classifier.

(** No code point above U+3000 is whitespace. *)
Lemma py_isspace_bound c : py_isspace c = true -> (c <= 0x3000)%N.
Proof.
  intros Hc. destruct (N.le_gt_cases c 0x3000) as [Hle|Hgt]; auto.
  exfalso. revert Hc. unfold py_isspace, between.
  repeat match goal with
         | |- context [N.leb c ?hi] =>
             replace (N.leb c hi) with false
               by (symmetry; apply N.leb_gt; lia)
         | |- context [N.eqb c ?v] =>
             replace (N.eqb c v) with false
               by (symmetry; apply N.eqb_neq; lia)
         end.
  rewrite ?andb_false_r. simpl. discriminate.
Qed.

Lemma forallb_upto (p : N -> bool) (n : N) :
  forallb p (map N.of_nat (seq 0 (N.to_nat n))) = true ->
  forall c, (c < n)%N -> p c = true.
Proof.
  intros Hall c Hc. rewrite forallb_forall in Hall. apply Hall.
  apply in_map_iff. exists (N.to_nat c). split; [apply N2Nat.id|].
  apply in_seq. lia.
Qed.

(** In the fragment of the Script table no whitespace character is
    strictly of a category. *)
Lemma fragment_strict_not_whitespace : @strict_not_whitespace fragment.
Proof.
  intros k c Hk. destruct (py_isspace c) eqn:Hc; [|reflexivity].
  assert (Hall : forallb (fun c => implb (py_isspace c)
                                     (negb (@strict fragment ArabicCat c)
                                      && negb (@strict fragment Asian c)
                                      && negb (@strict fragment
                                                 LatinCyrillic c)))
                   (map N.of_nat (seq 0 (N.to_nat 12289))) = true)
    by (vm_compute; reflexivity).
  apply py_isspace_bound in Hc as Hb.
  pose proof (@forallb_upto _ _ Hall c ltac:(lia)) as Hi.
  cbv beta in Hi. rewrite Hc in Hi. cbn [implb] in Hi.
  apply andb_prop in Hi as [[Ha Hs]%andb_prop Hl].
  destruct k; rewrite Hk in *; discriminate.
Qed.

(** C1.  [detect_script] returns the first category, in the order Arabic,
    CJK/Kana/Hangul, Latin/Cyrillic, that matches the stripped string,
    where a category matches when the whole string is made of its scripts
    plus Common/Inherited and holds a character strictly of its scripts;
    it is undetermined exactly when no category matches. *)
Theorem detect_script_priority `{Unicode} (text : pystr) :
  detect_script text
  = find (fun k => category_matches k (strip text))
      [ArabicCat; Asian; LatinCyrillic]
  /\ (detect_script text = None <->
      forall k, category_matches k (strip text) = false).
Proof.
  split.
  - apply detect_script_first_match.
  - rewrite detect_script_first_match. apply first_match_none.
Qed.

(** C5.  [detect_script] is undetermined on the empty string, on a string
    that strips to empty, on a string with no character strictly of one of
    the three categories, and on a string that mixes characters of two of
    the categories (no whitespace character being strictly of a category,
    as in the Script table). *)
Theorem detect_script_undetermined `{Unicode} (text : pystr) :
  strict_not_whitespace ->
  text = [] \/ strip text = [] \/ punctuation_only text
  \/ mixes_categories text ->
  detect_script text = None.
Proof.
  intros Hsp [-> | [He | [Hp | Hm]]].
  - reflexivity.
  - unfold detect_script. now rewrite He.
  - apply no_match_undetermined. intros k. unfold category_matches.
    apply andb_false_iff. right.
    destruct (existsb _ _) eqn:Hex; auto.
    apply existsb_exists in Hex as (c & Hin & Hc).
    apply strip_incl in Hin. specialize (Hp c k Hin).
    unfold strict in Hp. congruence.
  - destruct Hm as (k1 & k2 & c1 & c2 & Hne & Hin1 & Hin2 & Hc1 & Hc2).
    apply no_match_undetermined. intros k.
    destruct (category_matches k (strip text)) eqn:Hk; auto.
    apply andb_prop in Hk as [Hall _]. rewrite forallb_forall in Hall.
    assert (H1 : k1 = k).
    { apply (strict_allowed_same k1 k c1 Hc1). apply Hall.
      apply strip_keeps; auto. exact (Hsp k1 c1 Hc1). }
    assert (H2 : k2 = k).
    { apply (strict_allowed_same k2 k c2 Hc2). apply Hall.
      apply strip_keeps; auto. exact (Hsp k2 c2 Hc2). }
    congruence.
Qed.

(** A Han character next to a Latin letter. *)
Lemma detect_script_undetermined_witness :
  @mixes_categories fragment [0x4E00; 0x41]%N
  /\ @detect_script fragment [0x4E00; 0x41]%N = None.
Proof.
  assert (Hm : @mixes_categories fragment [0x4E00; 0x41]%N).
  { exists Asian, LatinCyrillic, 0x4E00%N, 0x41%N.
    repeat split; simpl; auto; discriminate. }
  split; [exact Hm|].
  apply (@detect_script_undetermined fragment).
  - exact fragment_strict_not_whitespace.
  - right; right; right. exact Hm.
Defined.

(** C10.  At most one of the three tests of [detect_script] holds of a
    string, so making them in any other order gives the same result. *)
Theorem script_tests_exclusive `{Unicode} (text : pystr)
  (order : list Category) :
  Permutation priority_order order ->
  (forall k1 k2,
      script_test k1 text = true -> script_test k2 text = true -> k1 = k2)
  /\ detect_script_in order text = detect_script text.
Proof.
  intros Hp. split.
  - intros k1 k2. apply script_test_unique.
  - unfold detect_script_in, detect_script.
    destruct (null (strip text)); auto.
    rewrite <- (find_exclusive_perm (fun k => script_test k (strip text))
                  (fun a b => @script_test_unique _ a b (strip text)) Hp).
    reflexivity.
Qed.

(** The tests made in the reverse order, on a Latin word. *)
Lemma script_tests_exclusive_witness :
  Permutation priority_order [LatinCyrillic; Asian; ArabicCat]
  /\ @detect_script_in fragment [LatinCyrillic; Asian; ArabicCat]
       (of_string "Hello")
     = @detect_script fragment (of_string "Hello").
Proof.
  assert (Hp : Permutation priority_order [LatinCyrillic; Asian; ArabicCat]).
  { unfold priority_order.
    apply perm_trans with [Asian; ArabicCat; LatinCyrillic];
      [apply perm_swap|].
    apply perm_trans with [Asian; LatinCyrillic; ArabicCat];
      [apply perm_skip, perm_swap | apply perm_swap]. }
  split; [exact Hp|].
  exact (proj2 (@script_tests_exclusive fragment (of_string "Hello") _ Hp)).
Defined.

(** ** The timestamp conversion *)

Open Scope Z_scope.

Lemma div_eucl_div_mod a b : Z.div_eucl a b = (a / b, a mod b).
Proof. unfold Z.div, Z.modulo. now destruct (Z.div_eucl a b). Qed.

(** The cascade of [divmod] computes the four fields of the total. *)
Lemma convert_time_fields time total :
  py_round (float_mul time (float_of_int 1000)) = Ok total ->
  convert_time_to_srt_format time
  = Ok (srt_code (total / 3600000) (total / 60000 mod 60)
          (total / 1000 mod 60) (total mod 1000)).
Proof.
  unfold convert_time_to_srt_format. intros ->. simpl bind.
  rewrite !div_eucl_div_mod.
  rewrite !Z.div_div by lia. reflexivity.
Qed.

Lemma round_half_even_nearest m e : nearest_ties_even m e (round_half_even m e).
Proof.
  unfold nearest_ties_even, round_half_even.
  destruct (0 <=? e) eqn:He; [reflexivity|].
  apply Z.leb_gt in He.
  assert (Hd : 0 < 2 ^ (- e)) by (apply Z.pow_pos_nonneg; lia).
  set (d := 2 ^ (- e)) in *.
  pose proof (Z.div_mod (Zpos m) d ltac:(lia)) as Hdm.
  pose proof (Z.mod_pos_bound (Zpos m) d Hd) as Hr.
  set (q := Zpos m / d) in *. set (r := Zpos m mod d) in *.
  assert (Hq : q * d - Zpos m = - r) by lia.
  assert (Hq1 : (q + 1) * d - Zpos m = d - r) by lia.
  destruct (2 * r ?= d) eqn:Hc.
  - apply Z.compare_eq in Hc.
    destruct (Z.even q) eqn:Hev.
    + rewrite Hq. split; [lia | auto].
    + rewrite Hq1. split; [lia|]. intros _.
      rewrite Z.even_add, Hev. reflexivity.
  - rewrite Z.compare_lt_iff in Hc. rewrite Hq. split; lia.
  - rewrite Z.compare_gt_iff in Hc. rewrite Hq1. split; lia.
Qed.

Lemma round_half_even_nonneg m e : 0 <= round_half_even m e.
Proof.
  unfold round_half_even. destruct (0 <=? e) eqn:He.
  - apply Z.leb_le in He. apply Z.mul_nonneg_nonneg; [lia|].
    apply Z.pow_nonneg. lia.
  - apply Z.leb_gt in He.
    assert (Hd : 0 < 2 ^ (- e)) by (apply Z.pow_pos_nonneg; lia).
    pose proof (Z.div_pos (Zpos m) (2 ^ (- e)) ltac:(lia) Hd).
    destruct (_ ?= _); [destruct (Z.even _)| |]; lia.
Qed.

(** The literal [3599.9995] denotes the float nearest to the decimal: it
    is within half a unit in the last place of [35999995 / 10000], and it
    is the quotient of the two integers. *)
Lemma float_3599_9995_nearest :
  2 * Z.abs (0x1c1fffbe76c8b4 * 10000 - 35999995 * 2 ^ 41) <= 10000
  /\ SFdiv prec emax (float_of_int 35999995) (float_of_int 10000)
     = float_3599_9995.
Proof. split; [vm_compute; discriminate | vm_compute; reflexivity]. Qed.

(** C2, as stated, fails: [0.0625] seconds are 62.5 milliseconds, which
    [round] takes to the even 62 and not away from zero to 63. *)
Lemma convert_time_not_half_away :
  float_mul float_0_0625 (float_of_int 1000) = float_of_dyadic 125 (-1)
  /\ convert_time_to_srt_format float_0_0625 = Ok (of_string "00:00:00,062")
  /\ srt_half_away float_0_0625 = Ok (of_string "00:00:00,063")
  /\ convert_time_to_srt_format float_0_0625 <> srt_half_away float_0_0625.
Proof.
  repeat split; try (vm_compute; reflexivity).
  vm_compute. discriminate.
Qed.

(** Rounding a product to precision keeps its sign and, on a positive
    mantissa, never gives NaN. *)
Lemma shr_1_nonneg mrs : 0 <= shr_m mrs -> 0 <= shr_m (shr_1 mrs).
Proof.
  destruct mrs as [m r s0]. simpl.
  destruct m as [|p|p]; [simpl; lia | | lia].
  intros _. destruct p; simpl; lia.
Qed.

Lemma iter_pos_nonneg (n : positive) : forall mrs,
  0 <= shr_m mrs -> 0 <= shr_m (iter_pos shr_1 n mrs).
Proof.
  induction n as [n IH | n IH |]; intros mrs Hm; simpl.
  - apply IH, IH. now apply shr_1_nonneg.
  - now apply IH, IH.
  - now apply shr_1_nonneg.
Qed.

Lemma shr_fexp_nonneg m e l :
  0 <= m -> 0 <= shr_m (fst (shr_fexp prec emax m e l)).
Proof.
  intros Hm. unfold shr_fexp, shr.
  assert (H0 : 0 <= shr_m (shr_record_of_loc m l))
    by (destruct l as [|[]]; exact Hm).
  destruct (_ - e); simpl; auto. now apply iter_pos_nonneg.
Qed.

Lemma round_nearest_even_nonneg mx lx :
  0 <= mx -> 0 <= round_nearest_even mx lx.
Proof.
  intros Hm. destruct lx as [|[]]; simpl; try lia.
  destruct (Z.even mx); lia.
Qed.

Lemma binary_round_aux_sign sx (mx : positive) ex :
  match binary_round_aux prec emax sx (Zpos mx) ex loc_Exact with
  | S754_zero s | S754_infinity s | S754_finite s _ _ => s = sx
  | S754_nan => False
  end.
Proof.
  unfold binary_round_aux.
  pose proof (@shr_fexp_nonneg (Zpos mx) ex loc_Exact ltac:(lia)) as H1.
  destruct (shr_fexp prec emax (Zpos mx) ex loc_Exact) as [mrs' e'].
  simpl in H1.
  pose proof (@shr_fexp_nonneg
                (round_nearest_even (shr_m mrs') (loc_of_shr_record mrs'))
                e' loc_Exact (@round_nearest_even_nonneg _ _ H1)) as H2.
  destruct (shr_fexp prec emax _ e' loc_Exact) as [mrs'' e''].
  simpl in H2. destruct (shr_m mrs''); [reflexivity | | lia].
  now destruct (_ <=? _).
Qed.

(** The milliseconds of a time that is not negative are not negative. *)
Lemma float_mul_nonneg time :
  nonneg_time time ->
  match float_mul time (float_of_int 1000) with
  | S754_zero _ => True
  | S754_infinity s | S754_finite s _ _ => s = false
  | S754_nan => False
  end.
Proof.
  assert (H1000 : float_of_int 1000 = S754_finite false 8796093022208000 (-43))
    by (vm_compute; reflexivity).
  rewrite H1000. destruct time as [s | s | | [] m e]; simpl; try tauto.
  intros _.
  pose proof (binary_round_aux_sign false (m * 8796093022208000) (e + -43))
    as Hs.
  now destruct (binary_round_aux _ _ _ _ _ _).
Qed.

(** C2, amended.  For every finite time that is not negative,
    [convert_time_to_srt_format] takes the integer nearest to the seconds
    times 1000 (a float product), ties going to the even neighbour, and
    floor-divides that total through seconds, minutes and hours; the
    product of a time too large for a float raises.  0.0 gives
    00:00:00,000, 5.25 gives 00:00:05,250 and 3599.9995 gives
    01:00:00,000. *)
Theorem convert_time_half_even :
  (forall time : pyfloat,
      nonneg_time time ->
      match float_mul time (float_of_int 1000) with
      | S754_zero _ =>
          convert_time_to_srt_format time = Ok (of_string "00:00:00,000")
      | S754_finite s m e =>
          s = false
          /\ exists total,
            nearest_ties_even m e total /\ 0 <= total
            /\ convert_time_to_srt_format time
               = Ok (srt_code (total / 3600000) (total / 60000 mod 60)
                       (total / 1000 mod 60) (total mod 1000))
      | S754_infinity _ =>
          convert_time_to_srt_format time = Raise OverflowError
      | S754_nan => False
      end)
  /\ convert_time_to_srt_format float_0_0 = Ok (of_string "00:00:00,000")
  /\ convert_time_to_srt_format float_5_25 = Ok (of_string "00:00:05,250")
  /\ convert_time_to_srt_format float_3599_9995
     = Ok (of_string "01:00:00,000").
Proof.
  split; [|repeat split; vm_compute; reflexivity].
  intros time Hnn. pose proof (@float_mul_nonneg time Hnn) as Hsign.
  destruct (float_mul time (float_of_int 1000)) as [s| s | | s m e] eqn:Hp;
    auto.
  - rewrite (@convert_time_fields time 0) by (now rewrite Hp).
    reflexivity.
  - unfold convert_time_to_srt_format. now rewrite Hp.
  - subst s. split; [reflexivity|].
    exists (round_half_even m e). split; [apply round_half_even_nearest|].
    split; [apply round_half_even_nonneg|].
    apply convert_time_fields. now rewrite Hp.
Qed.

(** Five seconds and a quarter. *)
Lemma convert_time_half_even_witness :
  nonneg_time float_5_25
  /\ float_mul float_5_25 (float_of_int 1000) = float_of_dyadic 5250 0
  /\ exists total,
      nearest_ties_even 5772436045824000 (-40) total /\ 0 <= total
      /\ convert_time_to_srt_format float_5_25
         = Ok (srt_code (total / 3600000) (total / 60000 mod 60)
                 (total / 1000 mod 60) (total mod 1000)).
Proof.
  assert (Hnn : nonneg_time float_5_25) by exact I.
  split; [exact Hnn|]. split; [vm_compute; reflexivity|].
  pose proof (proj1 convert_time_half_even float_5_25 Hnn) as Hw.
  assert (Hp : float_mul float_5_25 (float_of_int 1000)
               = S754_finite false 5772436045824000 (-40))
    by (vm_compute; reflexivity).
  rewrite Hp in Hw. exact (proj2 Hw).
Defined.

Close Scope Z_scope.

(** ** The formatter *)

Section FormatterFacts.
Context `{U : Unicode}.
Variable translate_text : pystr -> pystr -> result pystr.
Variable set_language : option pystr.

Let shown := shown_text translate_text set_language.
Let entry_at := entry_of translate_text set_language.

Lemma returns_name r k :
  returns r (category_name k) = true <-> r = Some k.
Proof.
  destruct r as [k'|]; simpl; [|split; discriminate].
  destruct k, k'; simpl; split; congruence.
Qed.

(** The chain of comparisons is the table of widths. *)
Lemma choose_width_table example_string :
  choose_width example_string
  = match detect_script example_string with
    | Some k => Ok (spec_width k)
    | None => Raise ValueError
    end.
Proof.
  unfold choose_width.
  destruct (detect_script example_string) as [[]|]; reflexivity.
Qed.

Lemma write_segment_entry width segment f f' :
  write_segment translate_text set_language width segment f = Ok f' ->
  exists e, entry_at width segment (seg_id segment + 1)%Z e /\ f' = f ++ e.
Proof.
  unfold write_segment, entry_at, entry_of, entry.
  generalize (of_string " --> "). intros arrow.
  destruct (convert_time_to_srt_format (seg_start segment))
    as [start| |] eqn:H1; cbn [bind]; try discriminate.
  destruct (convert_time_to_srt_format (seg_end segment))
    as [end_| |] eqn:H2; cbn [bind]; try discriminate.
  destruct (shown_text translate_text set_language (seg_text segment))
    as [text| |] eqn:H3; cbn [bind]; try discriminate.
  destruct (fill (strip text) width) as [formatted| |] eqn:H4;
    cbn [bind]; try discriminate.
  intros [= <-].
  eexists. split.
  - exists start, end_, text, formatted. auto.
  - now rewrite <- !app_assoc.
Qed.

(** Whatever the outcome of the loop, the file holds the entries of the
    segments handled so far, each under its id plus one. *)
Lemma write_segments_entries width segments : forall f r f',
  write_segments translate_text set_language width segments f = (r, f') ->
  exists n entries,
    f' = f ++ concat entries
    /\ Forall2 (fun segment e =>
                  entry_at width segment (seg_id segment + 1)%Z e)
         (firstn n segments) entries
    /\ (r = Ok tt -> n = length segments).
Proof.
  induction segments as [|segment rest IH]; intros f r f'; simpl.
  - intros [= <- <-]. exists 0, []. simpl.
    rewrite app_nil_r. repeat split; constructor.
  - destruct (write_segment _ _ _ _ _) as [f1| |] eqn:Hw.
    + intros Hrest. apply write_segment_entry in Hw as (e & He & ->).
      apply IH in Hrest as (n & entries & -> & Hall & Hn).
      exists (S n), (e :: entries). simpl. rewrite <- app_assoc.
      repeat split; auto.
    + intros [= <- <-]. exists 0, []. simpl. rewrite app_nil_r.
      repeat split; [constructor | discriminate].
    + intros [= <- <-]. exists 0, []. simpl. rewrite app_nil_r.
      repeat split; [constructor | discriminate].
Qed.

(** C4.  The width is chosen once, from the first segment's text
    (translated when a language is set): 65 for latin-cyrillic, 22 for
    asian, 30 for arabic, and every segment is then written at that
    width; when the script of the sample is undetermined the call raises
    before the file is opened. *)
Theorem generate_srt_width (first : Segment) (rest : list Segment)
  (file : option pystr) (sample : pystr) :
  (if is_set set_language
   then translate_text (language set_language) (seg_text first)
   else Ok (seg_text first)) = Ok sample ->
  match detect_script sample with
  | Some k =>
      spec_width k = match k with
                     | LatinCyrillic => 65 | Asian => 22 | ArabicCat => 30
                     end%Z
      /\ generate_srt translate_text set_language (first :: rest) file
         = (fst (write_segments translate_text set_language (spec_width k)
                   (first :: rest) []),
            Some (snd (write_segments translate_text set_language
                         (spec_width k) (first :: rest) [])))
  | None =>
      generate_srt translate_text set_language (first :: rest) file
      = (Raise ValueError, file)
  end.
Proof.
  intros Hs. unfold generate_srt.
  fold (shown_text translate_text set_language (seg_text first)) in Hs.
  rewrite Hs. simpl bind. rewrite choose_width_table.
  destruct (detect_script sample) as [k|]; [|reflexivity].
  split; [now destruct k|].
  now destruct (write_segments _ _ _ _ _).
Qed.

(** C8.  When [generate_srt] returns, the file is the sequence of the
    entries of the segments, in order, and the entry of a segment is
    numbered with the segment's id plus one. *)
Theorem entry_index_is_id_plus_one (segments : list Segment)
  (file : option pystr) (content : pystr) :
  generate_srt translate_text set_language segments file
  = (Ok tt, Some content) ->
  exists width entries,
    content = concat entries
    /\ Forall2 (fun segment e =>
                  exists start end_ formatted_text,
                    e = str_int (seg_id segment + 1) ++ [newline]
                          ++ start ++ of_string " --> " ++ end_
                          ++ [newline] ++ formatted_text
                          ++ [newline; newline]
                    /\ entry_at width segment (seg_id segment + 1)%Z e)
         segments entries.
Proof.
  unfold generate_srt. destruct segments as [|first rest]; [discriminate|].
  destruct (bind _ _) as [width| |]; try discriminate.
  destruct (write_segments _ _ _ _ _) as [r f] eqn:Hw.
  intros [= -> <-].
  apply write_segments_entries in Hw as (n & entries & -> & Hall & Hn).
  rewrite (Hn eq_refl), firstn_all in Hall.
  exists width, entries. split; [reflexivity|].
  eapply Forall2_impl; [|exact Hall].
  intros segment e He. cbv beta in He.
  destruct He as (start & end_ & text & formatted & H1 & H2 & H3 & H4 & ->).
  exists start, end_, formatted. split; [reflexivity|].
  exists start, end_, text, formatted. auto.
Qed.
End FormatterFacts.

(** The run on "Hello world": the sample is Latin, the width 65. *)
Lemma generate_srt_width_witness :
  @detect_script fragment (seg_text hello_segment) = Some LatinCyrillic
  /\ @generate_srt fragment no_translation None [hello_segment] None
     = (Ok tt, Some hello_srt).
Proof.
  pose proof (@generate_srt_width fragment no_translation None hello_segment
                [] None (seg_text hello_segment) eq_refl) as Hw.
  assert (Hd : @detect_script fragment (seg_text hello_segment)
               = Some LatinCyrillic) by (vm_compute; reflexivity).
  rewrite Hd in Hw. destruct Hw as [_ Hw].
  split; [exact Hd|]. rewrite Hw. vm_compute. reflexivity.
Defined.

(** The run on "Hello world": one entry, numbered 1 for the id 0. *)
Lemma entry_index_is_id_plus_one_witness :
  @generate_srt fragment no_translation None [hello_segment] None
  = (Ok tt, Some hello_srt)
  /\ exists width entries,
      hello_srt = concat entries
      /\ Forall2 (fun segment e =>
                    exists start end_ formatted_text,
                      e = str_int (seg_id segment + 1) ++ [newline]
                            ++ start ++ of_string " --> " ++ end_
                            ++ [newline] ++ formatted_text
                            ++ [newline; newline]
                      /\ @entry_of fragment no_translation None width segment
                           (seg_id segment + 1)%Z e)
           [hello_segment] entries.
Proof.
  assert (Hrun : @generate_srt fragment no_translation None [hello_segment]
                   None = (Ok tt, Some hello_srt))
    by (vm_compute; reflexivity).
  split; [exact Hrun|].
  exact (@entry_index_is_id_plus_one fragment no_translation None
           [hello_segment] None hello_srt Hrun).
Defined.

(** ** The choice of the render style *)

(** C6.  [apply_subtitles] classifies the third line of the subtitle file
    and renders latin-cyrillic at size 32 with stroke 3, asian at 36 with
    stroke 6, arabic at 34 with stroke 4, each with the font of the
    category; it raises when the script of that line is undetermined. *)
Theorem apply_subtitles_style `{Unicode} (content l1 l2 text : pystr)
  (rest : list pystr) :
  file_lines content = l1 :: l2 :: text :: rest ->
  match detect_script text with
  | Some k =>
      apply_subtitles (Some content)
      = Ok {| font := FONTS (category_name k);
              font_size := fst (spec_style k);
              stroke_width := snd (spec_style k) |}
      /\ spec_style k = match k with
                        | LatinCyrillic => (32, 3)
                        | Asian => (36, 6)
                        | ArabicCat => (34, 4)
                        end%Z
  | None => apply_subtitles (Some content) = Raise ValueError
  end.
Proof.
  intros Hl. unfold apply_subtitles. rewrite Hl. cbn [firstn nth_error].
  destruct (detect_script text) as [[]|]; try split; reflexivity.
Qed.

(** The file of the run on "Hello world" is rendered in the Latin style. *)
Lemma apply_subtitles_style_witness :
  file_lines hello_srt
  = [of_string "1" ++ [newline];
     of_string "00:00:01,000 --> 00:00:03,000" ++ [newline];
     of_string "Hello world" ++ [newline]; [newline]]
  /\ @apply_subtitles fragment (Some hello_srt)
     = Ok {| font := "./fonts/Roboto-Regular.ttf";
             font_size := 32; stroke_width := 3 |}.
Proof.
  assert (Hl : file_lines hello_srt
               = [of_string "1" ++ [newline];
                  of_string "00:00:01,000 --> 00:00:03,000" ++ [newline];
                  of_string "Hello world" ++ [newline]; [newline]])
    by (vm_compute; reflexivity).
  split; [exact Hl|].
  pose proof (@apply_subtitles_style fragment _ _ _ _ _ Hl) as Hs.
  assert (Hd : @detect_script fragment (of_string "Hello world" ++ [newline])
               = Some LatinCyrillic) by (vm_compute; reflexivity).
  rewrite Hd in Hs. exact (proj1 Hs).
Defined.

(** ** Unique file names *)

Lemma pystr_eqb_eq a b : pystr_eqb a b = true <-> a = b.
Proof.
  revert b. induction a as [|x a IH]; intros [|y b]; simpl;
    try (split; congruence).
  rewrite andb_true_iff, N.eqb_eq, IH. split.
  - intros [-> ->]. reflexivity.
  - intros [= -> ->]. auto.
Qed.

Lemma uint_codes_inj d1 d2 : uint_codes d1 = uint_codes d2 -> d1 = d2.
Proof.
  revert d2. induction d1; intros d2; destruct d2; simpl;
    intros E; try discriminate; try reflexivity;
    injection E as E; f_equal; auto.
Qed.

Lemma digits_inj n m : digits n = digits m -> n = m.
Proof.
  unfold digits. intros E%uint_codes_inj.
  now apply DecimalN.Unsigned.to_uint_inj.
Qed.

Lemma str_int_inj n m :
  (0 <= n)%Z -> (0 <= m)%Z -> str_int n = str_int m -> n = m.
Proof.
  unfold str_int. intros Hn Hm.
  destruct (Z.ltb_spec n 0), (Z.ltb_spec m 0); try lia.
  simpl. intros E%digits_inj. lia.
Qed.

(** The directory and the stem in front of the counter do not depend on
    the counter. *)
Lemma numbered_prefix directory name ext :
  exists prefix, forall counter,
    numbered directory name ext counter
    = prefix ++ str_int counter ++ of_string ")" ++ ext.
Proof.
  unfold numbered, path_join.
  assert (Hs : forall r,
             startswith slash (name ++ of_string " (" ++ r)
             = startswith slash name).
  { intros r. destruct name; reflexivity. }
  destruct (startswith slash name) eqn:Hn.
  - exists (name ++ of_string " ("). intros counter.
    rewrite Hs. now rewrite <- app_assoc.
  - destruct (null directory || endswith slash directory).
    + exists (directory ++ name ++ of_string " ("). intros counter.
      rewrite Hs. now rewrite <- !app_assoc.
    + exists (directory ++ [slash] ++ name ++ of_string " (").
      intros counter. rewrite Hs. now rewrite <- !app_assoc.
Qed.

Lemma numbered_inj directory name ext n m :
  (0 <= n)%Z -> (0 <= m)%Z ->
  numbered directory name ext n = numbered directory name ext m -> n = m.
Proof.
  intros Hn Hm. destruct (numbered_prefix directory name ext) as [p Hp].
  rewrite !Hp. intros E%app_inv_head.
  rewrite !app_assoc in E. apply app_inv_tail in E. apply app_inv_tail in E.
  now apply str_int_inj.
Qed.

Section UniqueName.
Variable exists_ : pystr -> bool.
Variables directory name ext : pystr.

Let try_ (k : Z) : pystr := numbered directory name ext k.

(** The loop returns the first free name it meets, or is still running
    after [fuel] names that all exist. *)
Lemma unique_loop_cases fuel : forall counter,
  (exists j, j < fuel
     /\ unique_loop exists_ fuel directory name ext counter
        = Ok (try_ (counter + Z.of_nat j))
     /\ exists_ (try_ (counter + Z.of_nat j)) = false
     /\ forall i, i < j -> exists_ (try_ (counter + Z.of_nat i)) = true)
  \/ (unique_loop exists_ fuel directory name ext counter = Loops
      /\ forall i, i < fuel ->
                   exists_ (try_ (counter + Z.of_nat i)) = true).
Proof.
  induction fuel as [|fuel IH]; intros counter; simpl.
  - right. split; [reflexivity | intros i Hi; lia].
  - fold (try_ counter).
    destruct (exists_ (try_ counter)) eqn:He; simpl.
    + destruct (IH (counter + 1)%Z) as [(j & Hj & Hr & Hf & Hb) | [Hr Hb]].
      * left. exists (S j).
        replace (counter + Z.of_nat (S j))%Z
          with (counter + 1 + Z.of_nat j)%Z by lia.
        repeat split; auto; [lia|].
        intros [|i] Hi.
        -- now rewrite Z.add_0_r.
        -- replace (counter + Z.of_nat (S i))%Z
             with (counter + 1 + Z.of_nat i)%Z by lia.
           apply Hb. lia.
      * right. split; auto. intros [|i] Hi.
        -- now rewrite Z.add_0_r.
        -- replace (counter + Z.of_nat (S i))%Z
             with (counter + 1 + Z.of_nat i)%Z by lia.
           apply Hb. lia.
    + left. exists 0. rewrite Z.add_0_r.
      repeat split; auto; [lia | intros i Hi; lia].
Qed.

(** With enough fuel the loop returns the least free number. *)
Lemma unique_loop_least fuel (n : Z) :
  (1 <= n)%Z -> (n <= Z.of_nat fuel)%Z ->
  (forall k, (1 <= k < n)%Z -> exists_ (try_ k) = true) ->
  exists_ (try_ n) = false ->
  unique_loop exists_ fuel directory name ext 1 = Ok (try_ n).
Proof.
  intros H1 Hfuel Hbelow Hfree.
  destruct (unique_loop_cases fuel 1) as [(j & Hj & Hr & Hf & Hb) | [_ Hb]].
  - rewrite Hr. f_equal. f_equal.
    destruct (Z.lt_trichotomy (1 + Z.of_nat j) n) as [Hlt | [Heq | Hgt]];
      auto.
    + rewrite Hbelow in Hf by lia. discriminate.
    + specialize (Hb (Z.to_nat (n - 1)) ltac:(lia)).
      replace (1 + Z.of_nat (Z.to_nat (n - 1)))%Z with n in Hb by lia.
      congruence.
  - specialize (Hb (Z.to_nat (n - 1)) ltac:(lia)).
    replace (1 + Z.of_nat (Z.to_nat (n - 1)))%Z with n in Hb by lia.
    congruence.
Qed.

(** On a file system with finitely many paths, one more name than
    there are paths cannot all exist. *)
Lemma unique_loop_returns (fs : list pystr) :
  (forall p, exists_ p = true -> In p fs) ->
  exists n, (1 <= n <= Z.of_nat (length fs) + 1)%Z
    /\ unique_loop exists_ (S (length fs)) directory name ext 1
       = Ok (try_ n)
    /\ exists_ (try_ n) = false
    /\ forall k, (1 <= k < n)%Z -> exists_ (try_ k) = true.
Proof.
  intros Hfin.
  destruct (unique_loop_cases (S (length fs)) 1)
    as [(j & Hj & Hr & Hf & Hb) | [_ Hb]].
  - exists (1 + Z.of_nat j)%Z. repeat split; auto; try lia.
    intros k Hk. specialize (Hb (Z.to_nat (k - 1)) ltac:(lia)).
    now replace (1 + Z.of_nat (Z.to_nat (k - 1)))%Z with k in Hb by lia.
  - exfalso.
    set (names := map (fun i => try_ (1 + Z.of_nat i))
                    (seq 0 (S (length fs)))).
    assert (Hnd : NoDup names).
    { unfold names. apply Finite.Injective_map_NoDup_in.
      - intros i j _ _ E. apply numbered_inj in E; lia.
      - apply seq_NoDup. }
    assert (Hincl : incl names fs).
    { intros p (i & <- & Hi%in_seq)%in_map_iff. apply Hfin, Hb. lia. }
    pose proof (NoDup_incl_length Hnd Hincl) as Hlen.
    unfold names in Hlen. rewrite length_map, length_seq in Hlen. lia.
Qed.
End UniqueName.

(** C7.  [get_unique_filename] returns the requested path when nothing
    exists at it; otherwise it returns the path numbered with the least
    [n >= 1] whose numbered path does not exist, and on a file system with
    finitely many paths there is such an [n]; with out.mp4 and out (1).mp4
    present and out (2).mp4 absent the result is out (2).mp4. *)
Theorem get_unique_filename_first_free (exists_ : pystr -> bool)
  (path : pystr) :
  (exists_ path = false ->
   forall fuel, get_unique_filename exists_ fuel path = Ok path)
  /\ (exists_ path = true ->
      forall (n : Z) (fuel : nat),
        (1 <= n <= Z.of_nat fuel)%Z ->
        (forall k, (1 <= k < n)%Z -> exists_ (candidate path k) = true) ->
        exists_ (candidate path n) = false ->
        get_unique_filename exists_ fuel path = Ok (candidate path n))
  /\ (exists_ path = true ->
      forall fs : list pystr,
        (forall p, exists_ p = true -> In p fs) ->
        exists n, (1 <= n)%Z
          /\ get_unique_filename exists_ (S (length fs)) path
             = Ok (candidate path n)
          /\ exists_ (candidate path n) = false
          /\ forall k, (1 <= k < n)%Z -> exists_ (candidate path k) = true)
  /\ (exists_ out_mp4 = true -> exists_ out_1_mp4 = true ->
      exists_ out_2_mp4 = false ->
      forall fuel, 2 <= fuel ->
        get_unique_filename exists_ fuel out_mp4 = Ok out_2_mp4).
Proof.
  assert (Hleast : exists_ path = true ->
      forall (n : Z) (fuel : nat),
        (1 <= n <= Z.of_nat fuel)%Z ->
        (forall k, (1 <= k < n)%Z -> exists_ (candidate path k) = true) ->
        exists_ (candidate path n) = false ->
        get_unique_filename exists_ fuel path = Ok (candidate path n)).
  { intros He n fuel Hn Hbelow Hfree.
    unfold get_unique_filename, candidate in *. rewrite He. simpl negb.
    cbv iota.
    destruct (path_split path) as [directory filename].
    destruct (path_splitext filename) as [name ext].
    apply unique_loop_least; auto; lia. }
  repeat split.
  - intros He fuel. unfold get_unique_filename. now rewrite He.
  - exact Hleast.
  - intros He fs Hfin.
    unfold get_unique_filename, candidate. rewrite He. simpl negb. cbv iota.
    destruct (path_split path) as [directory filename].
    destruct (path_splitext filename) as [name ext].
    destruct (unique_loop_returns exists_ directory name ext fs Hfin)
      as (n & Hn & Hr & Hf & Hb).
    exists n. repeat split; auto. lia.
  - intros H0 H1 H2 fuel Hfuel.
    clear Hleast.
    assert (Hc1 : candidate out_mp4 1 = out_1_mp4) by (vm_compute; reflexivity).
    assert (Hc2 : candidate out_mp4 2 = out_2_mp4) by (vm_compute; reflexivity).
    unfold get_unique_filename. rewrite H0. simpl negb. cbv iota.
    change (candidate out_mp4 1) with
      (let '(directory, filename) := path_split out_mp4 in
       let '(name, ext) := path_splitext filename in
       numbered directory name ext 1) in Hc1.
    change (candidate out_mp4 2) with
      (let '(directory, filename) := path_split out_mp4 in
       let '(name, ext) := path_splitext filename in
       numbered directory name ext 2) in Hc2.
    destruct (path_split out_mp4) as [directory filename].
    destruct (path_splitext filename) as [name ext].
    rewrite <- Hc2.
    apply unique_loop_least; try lia.
    + intros k Hk. assert (k = 1%Z) as -> by lia. now rewrite Hc1.
    + now rewrite Hc2.
Qed.

(** The file system of the example. *)
Lemma get_unique_filename_first_free_witness :
  exists_in [out_mp4; out_1_mp4] out_mp4 = true
  /\ exists_in [out_mp4; out_1_mp4] out_1_mp4 = true
  /\ exists_in [out_mp4; out_1_mp4] out_2_mp4 = false
  /\ get_unique_filename (exists_in [out_mp4; out_1_mp4]) 3 out_mp4
     = Ok out_2_mp4.
Proof.
  split; [reflexivity|]. split; [reflexivity|]. split; [reflexivity|].
  apply (proj2 (proj2 (proj2
           (get_unique_filename_first_free
              (exists_in [out_mp4; out_1_mp4]) out_mp4))));
    [reflexivity | reflexivity | reflexivity | lia].
Defined.

(** ** Cleaning the temp directory *)

Lemma deletable_tests n :
  isfile (Some n) || islink (Some n) || isdir (Some n) = deletable n.
Proof. destruct n as [| [] | |]; reflexivity. Qed.

Lemma clean_item_filter item d :
  clean_item item d
  = if match lookup item d with Some n => deletable n | None => false end
    then remove_entry item d else d.
Proof.
  unfold clean_item. destruct (lookup item d) as [n|]; [|reflexivity].
  rewrite <- deletable_tests.
  destruct (isfile (Some n)), (islink (Some n)), (isdir (Some n));
    reflexivity.
Qed.

Lemma lookup_in (d : directory) name n :
  NoDup (map fst d) -> In (name, n) d -> lookup name d = Some n.
Proof.
  unfold lookup. induction d as [|[name' n'] d IH]; simpl; [tauto|].
  intros Hnd [[= -> ->] | Hin].
  - now rewrite (proj2 (pystr_eqb_eq name name) eq_refl).
  - inversion Hnd as [|? ? Hnot Hnd']; subst.
    destruct (pystr_eqb name' name) eqn:E.
    + apply pystr_eqb_eq in E as ->. exfalso. apply Hnot.
      now apply (in_map fst) in Hin.
    + now apply IH.
Qed.

Lemma NoDup_map_filter (f : pystr * node -> bool) (d : directory) :
  NoDup (map fst d) -> NoDup (map fst (filter f d)).
Proof.
  induction d as [|e d IH]; simpl; auto.
  intros Hnd. inversion Hnd as [|? ? Hnot Hnd']; subst.
  destruct (f e); simpl; auto. constructor; auto.
  intros (e' & He & [Hin _]%filter_In)%in_map_iff. apply Hnot.
  rewrite <- He. now apply in_map.
Qed.

Lemma filter_all (f : pystr * node -> bool) (d : directory) :
  (forall e, f e = true) -> filter f d = d.
Proof.
  intros Hf. induction d as [|e d IH]; simpl; auto.
  now rewrite Hf, IH.
Qed.

Lemma filter_twice (f g : pystr * node -> bool) (d : directory) :
  filter f (filter g d) = filter (fun e => g e && f e) d.
Proof.
  induction d as [|e d IH]; simpl; auto.
  destruct (g e); simpl; [destruct (f e)|]; now rewrite IH.
Qed.

(** After the items [items] have been visited, what is left are the
    entries that are not deletable or were not visited. *)
Lemma clean_items_filter items : forall d : directory,
  NoDup (map fst d) ->
  fold_left (fun d item => clean_item item d) items d
  = filter (fun e => negb (deletable (snd e)
                           && existsb (pystr_eqb (fst e)) items)) d.
Proof.
  induction items as [|item items IH]; intros d Hnd; simpl.
  - symmetry. apply filter_all. intros e. now rewrite andb_false_r.
  - rewrite clean_item_filter.
    destruct (match lookup item d with
              | Some n => deletable n | None => false end) eqn:Hdel.
    + rewrite IH by now apply NoDup_map_filter.
      unfold remove_entry. rewrite filter_twice.
      apply filter_ext_in. intros [name n] Hin. simpl.
      destruct (pystr_eqb name item) eqn:E; simpl.
      * apply pystr_eqb_eq in E as ->.
        rewrite (@lookup_in d _ _ Hnd Hin) in Hdel. now rewrite Hdel.
      * reflexivity.
    + rewrite IH by assumption.
      apply filter_ext_in. intros [name n] Hin. simpl.
      destruct (pystr_eqb name item) eqn:E; simpl; auto.
      apply pystr_eqb_eq in E as ->.
      rewrite (@lookup_in d _ _ Hnd Hin) in Hdel. now rewrite Hdel.
Qed.

(** C9.  [clean_temp] raises [FileNotFoundError] when the temp directory
    does not exist; otherwise it returns with the directory still there,
    holding none of its files, links and subdirectories, and only them
    gone. *)
Theorem clean_temp_empties :
  clean_temp None = (Raise FileNotFoundError, None)
  /\ forall d : directory,
      NoDup (map fst d) ->
      exists d',
        clean_temp (Some d) = (Ok tt, Some d')
        /\ (forall name n, In (name, n) d' -> deletable n = false)
        /\ (forall name n,
               In (name, n) d' <-> In (name, n) d /\ deletable n = false).
Proof.
  split; [reflexivity|]. intros d Hnd.
  exists (filter (fun e => negb (deletable (snd e))) d).
  assert (Hc : clean_temp (Some d)
               = (Ok tt, Some (filter (fun e => negb (deletable (snd e))) d))).
  { unfold clean_temp. rewrite clean_items_filter by assumption.
    do 2 f_equal. apply filter_ext_in. intros e Hin.
    replace (existsb (pystr_eqb (fst e)) (map fst d)) with true;
      [now rewrite andb_true_r|].
    symmetry. apply existsb_exists. exists (fst e).
    split; [now apply in_map | now apply pystr_eqb_eq]. }
  split; [exact Hc|]. split.
  - intros name n [_ Hn]%filter_In. simpl in Hn.
    now destruct (deletable n).
  - intros name n. rewrite filter_In. simpl.
    destruct (deletable n); simpl; intuition congruence.
Qed.

(** The sample directory keeps its socket and nothing else. *)
Lemma clean_temp_empties_witness :
  NoDup (map fst sample_temp)
  /\ exists d',
      clean_temp (Some sample_temp) = (Ok tt, Some d')
      /\ (forall name n, In (name, n) d' -> deletable n = false)
      /\ (forall name n,
             In (name, n) d' <-> In (name, n) sample_temp /\ deletable n = false).
Proof.
  assert (Hnd : NoDup (map fst sample_temp)).
  { simpl. repeat constructor; simpl; intros H;
      repeat (destruct H as [H|H]; [discriminate H|]); exact H. }
  split; [exact Hnd|].
  exact (proj2 clean_temp_empties sample_temp Hnd).
Defined.

(** ** Words and separators *)

Section SplitOn.
Variable sp : N -> bool.

Let nonsp (c : N) : bool := negb (sp c).

(** Reading a separator ends the word being read. *)
Lemma split_on_sep cur x c y :
  sp c = true ->
  split_on sp cur (x ++ c :: y) = split_on sp cur x ++ split_on sp [] y.
Proof.
  intros Hc. revert cur. induction x as [|a x IH]; intros cur; simpl.
  - rewrite Hc. now destruct (null cur).
  - destruct (sp a); [destruct (null cur)|]; simpl; now rewrite IH.
Qed.

(** Separators in front of a text add no word. *)
Lemma split_on_leading d y :
  forallb sp d = true -> split_on sp [] (d ++ y) = split_on sp [] y.
Proof.
  induction d as [|a d IH]; simpl; auto.
  intros [Ha Hd]%andb_prop. rewrite Ha. simpl. auto.
Qed.

Lemma split_on_blank d : forallb sp d = true -> split_on sp [] d = [].
Proof.
  intros Hd. rewrite <- (app_nil_r d). now rewrite split_on_leading.
Qed.

(** A run of separators between two texts separates their words. *)
Lemma split_on_gap x d y :
  d <> [] -> forallb sp d = true ->
  split_on sp [] (x ++ d ++ y) = split_on sp [] x ++ split_on sp [] y.
Proof.
  destruct d as [|c d]; [congruence|]. intros _ [Hc Hd]%andb_prop.
  simpl. rewrite split_on_sep by assumption.
  now rewrite split_on_leading.
Qed.

(** Separators behind a text add no word. *)
Lemma split_on_trailing x d :
  forallb sp d = true -> split_on sp [] (x ++ d) = split_on sp [] x.
Proof.
  intros Hd. destruct d as [|c d]; [now rewrite app_nil_r|].
  rewrite <- (app_nil_r (c :: d)).
  rewrite split_on_gap by (congruence || assumption).
  simpl. apply app_nil_r.
Qed.

(** Reading the characters of a word extends the word being read. *)
Lemma split_on_word cur s :
  split_on sp cur s
  = split_on sp (rev (take_while nonsp s) ++ cur) (drop_while nonsp s).
Proof.
  revert cur. induction s as [|c s IH]; intros cur; simpl; auto.
  unfold nonsp at 1 3. destruct (sp c) eqn:Hc; simpl.
  - now rewrite Hc.
  - rewrite IH. now rewrite <- app_assoc.
Qed.

Lemma drop_while_head (p : N -> bool) s :
  match drop_while p s with
  | [] => True
  | c :: _ => p c = false
  end.
Proof.
  induction s as [|c s IH]; simpl; auto.
  destruct (p c) eqn:Hc; auto.
Qed.

(** The first word of a text that starts inside a word. *)
Lemma split_on_first_word c s :
  sp c = false ->
  split_on sp [] (c :: s)
  = take_while nonsp (c :: s) :: split_on sp [] (drop_while nonsp (c :: s)).
Proof.
  intros Hc. rewrite split_on_word. rewrite app_nil_r.
  pose proof (drop_while_head nonsp (c :: s)) as Hd.
  assert (Hne : null (rev (take_while nonsp (c :: s))) = false).
  { simpl. unfold nonsp at 1. rewrite Hc. simpl.
    now destruct (rev (take_while nonsp s)). }
  set (w := take_while nonsp (c :: s)) in *.
  destruct (drop_while nonsp (c :: s)) as [|x r]; cbn [split_on].
  - rewrite Hne. now rewrite rev_involutive.
  - unfold nonsp in Hd. apply negb_false_iff in Hd. rewrite Hd, Hne.
    now rewrite rev_involutive.
Qed.

Lemma split_on_skip_gap s :
  split_on sp [] s = split_on sp [] (drop_while sp s).
Proof.
  induction s as [|c s IH]; simpl; auto.
  destruct (sp c) eqn:Hc; simpl; auto. now rewrite Hc.
Qed.

(** The words of the lines are the words of the lines joined by a
    separator. *)
Lemma split_on_join c lines :
  sp c = true ->
  split_on sp [] (join [c] lines) = concat (map (split_on sp []) lines).
Proof.
  intros Hc. induction lines as [|l lines IH]; simpl; auto.
  destruct lines as [|l' lines].
  - simpl. now rewrite app_nil_r.
  - change (l ++ [c] ++ join [c] (l' :: lines))
      with (l ++ c :: join [c] (l' :: lines)).
    rewrite split_on_sep by assumption. now rewrite IH.
Qed.
End SplitOn.

Lemma take_drop_while (p : N -> bool) s :
  take_while p s ++ drop_while p s = s.
Proof.
  induction s as [|c s IH]; simpl; auto.
  destruct (p c); simpl; congruence.
Qed.

Lemma firstn_take_while (p : N -> bool) s :
  firstn (length (take_while p s)) s = take_while p s.
Proof.
  induction s as [|c s IH]; simpl; auto.
  destruct (p c); simpl; congruence.
Qed.

Lemma skipn_take_while (p : N -> bool) s :
  skipn (length (take_while p s)) s = drop_while p s.
Proof.
  induction s as [|c s IH]; simpl; auto.
  destruct (p c); simpl; congruence.
Qed.

Lemma take_while_all (p : N -> bool) s : forallb p (take_while p s) = true.
Proof.
  induction s as [|c s IH]; simpl; auto.
  destruct (p c) eqn:Hc; simpl; auto. now rewrite Hc.
Qed.

Lemma tw_space_isspace c : tw_space c = true -> py_isspace c = true.
Proof.
  unfold tw_space. rewrite !orb_true_iff, !N.eqb_eq.
  intros [[[[[-> | ->] | ->] | ->] | ->] | ->]; reflexivity.
Qed.

(** ** [_munge_whitespace] keeps the words *)

Lemma translate_spaces k :
  translate_whitespace (repeat space k) = repeat space k.
Proof. induction k; simpl; congruence. Qed.

Lemma split_on_spaces (sp : N -> bool) cur k r :
  sp space = true ->
  split_on sp cur (repeat space (S k) ++ r)
  = split_on sp cur [space] ++ split_on sp [] r.
Proof.
  intros Hs. change (repeat space (S k) ++ r)
    with ([] ++ space :: (repeat space k ++ r)).
  rewrite split_on_sep by assumption.
  rewrite split_on_leading.
  - simpl. rewrite Hs. now destruct (null cur).
  - clear r. induction k; simpl; auto. now rewrite Hs.
Qed.

(** Munging changes separators into separators and nothing else, for any
    notion of separator that covers the whitespace of [textwrap]. *)
Lemma split_on_munge (sp : N -> bool) :
  (forall c, tw_space c = true -> sp c = true) ->
  forall s col cur,
    split_on sp cur (translate_whitespace (expandtabs_from col s))
    = split_on sp cur s.
Proof.
  intros Hsp. assert (Hs : sp space = true) by (apply Hsp; reflexivity).
  induction s as [|c s IH]; intros col cur; [reflexivity|].
  cbn [expandtabs_from].
  destruct (N.eqb_spec c 9) as [-> | Hc].
  - assert (Hi : exists k, 8 - col mod 8 = S k).
    { pose proof (Nat.mod_upper_bound col 8 ltac:(lia)).
      exists (7 - col mod 8). lia. }
    destruct Hi as [k ->].
    unfold translate_whitespace. rewrite map_app.
    fold (translate_whitespace (repeat space (S k))).
    fold (translate_whitespace (expandtabs_from (col + S k) s)).
    rewrite translate_spaces, split_on_spaces by assumption.
    rewrite IH. cbn [split_on].
    rewrite Hs, (Hsp 9%N eq_refl). now destruct (null cur).
  - cbn [translate_whitespace map]. fold (translate_whitespace).
    destruct (tw_space c) eqn:Ht.
    + cbn [split_on]. rewrite Hs, (Hsp c Ht).
      destruct (null cur); now rewrite IH.
    + cbn [split_on]. destruct (sp c); [destruct (null cur)|];
        now rewrite IH.
Qed.

Lemma munge_keeps_words (sp : N -> bool) s :
  (forall c, tw_space c = true -> sp c = true) ->
  split_on sp [] (_munge_whitespace s) = split_on sp [] s.
Proof. intros Hsp. now apply split_on_munge. Qed.

(** Munging brings in spaces only. *)
Lemma munge_chars s : forall col x,
  In x (translate_whitespace (expandtabs_from col s)) ->
  x = space \/ In x s.
Proof.
  induction s as [|c s IH]; intros col x; [simpl; tauto|].
  cbn [expandtabs_from]. destruct (N.eqb c 9).
  - unfold translate_whitespace. rewrite map_app, in_app_iff.
    fold (translate_whitespace (repeat space (8 - col mod 8))).
    rewrite translate_spaces. intros [Hr | Hin].
    + left. now apply repeat_spec in Hr.
    + apply IH in Hin as [-> | Hin]; [now left | right; now right].
  - cbn [translate_whitespace map]. intros [Hx | Hin].
    + destruct (tw_space c); [now left | right; now left].
    + apply IH in Hin as [-> | Hin]; [now left | right; now right].
Qed.

(** ** [_split] on a text without hyphens *)

Section SplitNoHyphen.
Context `{U : Unicode}.

Lemma not_hyphen s c : ~ In hyphen s -> In c s -> is_hyphen c = false.
Proof.
  intros Hn Hin. unfold is_hyphen. apply N.eqb_neq. intros ->. auto.
Qed.

(** Without a hyphen a word ends at the next whitespace. *)
Lemma word_end_nohyphen s : forall before,
  ~ In hyphen s -> word_end before s = length (take_while tw_nonspace s).
Proof.
  induction s as [|c s IH]; intros before Hn; [reflexivity|].
  cbn [word_end take_while].
  rewrite (not_hyphen (c :: s) c Hn) by now left. cbn [andb].
  unfold tw_nonspace at 1. destruct (tw_space c); [reflexivity|].
  unfold emdash_ahead. cbn [take_while].
  rewrite (not_hyphen (c :: s) c Hn) by now left.
  rewrite andb_false_r. cbn [negb length]. f_equal.
  apply IH. intros Hin. apply Hn. now right.
Qed.

(** Without a hyphen a chunk is a run of whitespace or a run of other
    characters. *)
Lemma chunk_length_nohyphen before c s :
  ~ In hyphen (c :: s) ->
  chunk_length before (c :: s)
  = length (if tw_space c then take_while tw_space (c :: s)
            else take_while tw_nonspace (c :: s)).
Proof.
  intros Hn. unfold chunk_length.
  destruct (tw_space c) eqn:Hc; [reflexivity|].
  unfold emdash_ahead. cbn [take_while].
  rewrite (not_hyphen (c :: s) c Hn) by now left.
  rewrite andb_false_r. cbn [andb].
  unfold tw_nonspace at 1. rewrite Hc. cbn [negb length]. f_equal.
  apply word_end_nohyphen. intros Hin. apply Hn. now right.
Qed.

Lemma drop_while_incl (p : N -> bool) s x :
  In x (drop_while p s) -> In x s.
Proof.
  induction s as [|c s IH]; simpl; auto.
  destruct (p c); simpl; auto.
Qed.

Lemma drop_while_length (p : N -> bool) c s :
  p c = true -> length (drop_while p (c :: s)) <= length s.
Proof.
  intros Hc. simpl. rewrite Hc. clear Hc c.
  induction s as [|c s IH]; simpl; auto.
  destruct (p c); simpl; lia.
Qed.

Variable width : nat.

Lemma split_from_good fuel : forall before s,
  length s <= fuel ->
  ~ In hyphen s ->
  Forall (fun w => length w <= width) (tw_words s) ->
  concat (split_from fuel before s) = s
  /\ good_chunks width (split_from fuel before s)
  /\ match s with
     | c :: _ =>
         tw_space c = true ->
         match split_from fuel before s with
         | g :: _ => gap g
         | [] => False
         end
     | [] => True
     end.
Proof.
  induction fuel as [|fuel IH]; intros before s Hlen Hn Hw.
  - destruct s; [|simpl in Hlen; lia].
    repeat split; constructor.
  - destruct s as [|c s]; [repeat split; constructor|].
    cbn [split_from]. rewrite chunk_length_nohyphen by assumption.
    destruct (tw_space c) eqn:Hc.
    + (* a run of whitespace *)
      rewrite firstn_take_while, skipn_take_while.
      set (run := take_while tw_space (c :: s)).
      set (rest := drop_while tw_space (c :: s)).
      assert (Hgap : gap run).
      { split.
        - unfold run. simpl. rewrite Hc. discriminate.
        - apply forallb_forall. intros x Hx. apply tw_space_isspace.
          pose proof (take_while_all tw_space (c :: s)) as Ha.
          rewrite forallb_forall in Ha. now apply Ha. }
      destruct (IH (rev run ++ before) rest) as (Hcat & [Hall Hsp] & _).
      * pose proof (drop_while_length tw_space c s Hc). simpl in Hlen.
        unfold rest. lia.
      * intros Hin. apply Hn. now apply drop_while_incl in Hin.
      * unfold rest, tw_words. now rewrite <- split_on_skip_gap.
      * split; [|split; [split|]].
        -- cbn [concat]. rewrite Hcat. apply take_drop_while.
        -- constructor; auto. left. apply Hgap.
        -- cbn [spaced]. destruct (split_from _ _ rest); auto.
        -- intros _. exact Hgap.
    + (* a word *)
      rewrite firstn_take_while, skipn_take_while.
      set (run := take_while tw_nonspace (c :: s)).
      set (rest := drop_while tw_nonspace (c :: s)).
      unfold tw_words in Hw.
      rewrite split_on_first_word in Hw by assumption.
      fold tw_nonspace in Hw. fold run in Hw. fold rest in Hw.
      inversion Hw as [|? ? Hrun Hrest]; subst.
      destruct (IH (rev run ++ before) rest) as (Hcat & [Hall Hsp] & Hhd).
      * assert (Hc' : tw_nonspace c = true) by (unfold tw_nonspace; now rewrite Hc).
        pose proof (drop_while_length tw_nonspace c s Hc'). simpl in Hlen.
        unfold rest. lia.
      * intros Hin. apply Hn. now apply drop_while_incl in Hin.
      * exact Hrest.
      * split; [|split; [split|]].
        -- cbn [concat]. rewrite Hcat. apply take_drop_while.
        -- constructor; auto. now right.
        -- cbn [spaced].
           pose proof (drop_while_head tw_nonspace (c :: s)) as Hd.
           fold rest in Hd.
           destruct rest as [|x rest'].
           ++ destruct fuel; exact I.
           ++ unfold tw_nonspace in Hd. apply negb_false_iff in Hd.
              specialize (Hhd Hd).
              destruct (split_from fuel (rev run ++ before) (x :: rest'));
                [exact I | auto].
        -- discriminate.
Qed.

(** The chunks of a text without hyphens whose words fit the width. *)
Lemma split_chunks_good text :
  ~ In hyphen text ->
  Forall (fun w => length w <= width) (tw_words text) ->
  concat (_split_chunks text) = _munge_whitespace text
  /\ good_chunks width (_split_chunks text).
Proof.
  intros Hn Hw. unfold _split_chunks, _split.
  destruct (@split_from_good (length (_munge_whitespace text)) []
              (_munge_whitespace text)) as (Hcat & Hgood & _); auto.
  - intros Hin. apply munge_chars in Hin as [Hs | Hin]; [discriminate|auto].
  - unfold tw_words. rewrite munge_keeps_words; auto.
Qed.
End SplitNoHyphen.

(** ** The wrapping loop on chunks it never breaks *)

(** The words of the chunks, chunk by chunk. *)
Local Abbreviation words_of chunks := (concat (map py_split chunks)).

Lemma py_split_blank d : forallb py_isspace d = true -> py_split d = [].
Proof. apply split_on_blank. Qed.

Lemma spaced_tail a chunks : spaced (a :: chunks) -> spaced chunks.
Proof. simpl. destruct chunks; tauto. Qed.

Lemma spaced_app_l l1 l2 : spaced (l1 ++ l2) -> spaced l1.
Proof.
  induction l1 as [|a l1 IH]; [constructor|].
  intros Hs. destruct l1 as [|b l1]; [exact I|].
  simpl in Hs. destruct Hs as [Hab Hs]. split; auto.
Qed.

Lemma spaced_app_r l1 l2 : spaced (l1 ++ l2) -> spaced l2.
Proof.
  induction l1 as [|a l1 IH]; auto.
  intros Hs. apply IH. exact (spaced_tail _ _ Hs).
Qed.

(** In a spaced list of chunks no word runs over two chunks. *)
Lemma py_split_spaced chunks :
  spaced chunks -> py_split (concat chunks) = words_of chunks.
Proof.
  induction chunks as [|a chunks IH]; [reflexivity|].
  intros Hs. cbn [concat map]. rewrite <- IH by exact (spaced_tail _ _ Hs).
  destruct chunks as [|b chunks].
  - simpl. now rewrite !app_nil_r.
  - destruct Hs as [[[Ha Hb] | [Ha Hb]] _]; unfold py_split.
    + rewrite (@split_on_leading py_isspace a _ Hb).
      now rewrite (@split_on_blank py_isspace a Hb).
    + cbn [concat]. rewrite (@split_on_gap py_isspace a b _ Ha Hb).
      now rewrite (@split_on_leading py_isspace b _ Hb).
Qed.

Lemma take_fitting_spec width chunks : forall cur_len cur_line,
  exists taken remaining,
    take_fitting width cur_len cur_line chunks
    = (cur_line ++ taken, cur_len + length (concat taken), remaining)
    /\ chunks = taken ++ remaining
    /\ (cur_len <= width -> cur_len + length (concat taken) <= width)
    /\ match remaining with
       | r :: _ => width < cur_len + length (concat taken) + length r
       | [] => True
       end.
Proof.
  induction chunks as [|c chunks IH]; intros cur_len cur_line.
  - exists [], []. simpl. rewrite app_nil_r, Nat.add_0_r. auto.
  - cbn [take_fitting]. destruct (Nat.leb_spec (cur_len + length c) width).
    + destruct (IH (cur_len + length c) (cur_line ++ [c]))
        as (taken & remaining & -> & -> & Hle & Hr).
      exists (c :: taken), remaining. cbn [concat].
      rewrite length_app, <- app_assoc, Nat.add_assoc.
      repeat split; auto.
    + exists [], (c :: chunks). simpl. rewrite app_nil_r, !Nat.add_0_r.
      repeat split; auto.
Qed.

Lemma in_firstn (n : nat) (s : pystr) x : In x (firstn n s) -> In x s.
Proof.
  intros Hx. rewrite <- (firstn_skipn n s). apply in_or_app. now left.
Qed.

Lemma rfind_from_absent c s : forall i found,
  ~ In c s -> rfind_from c i s found = found.
Proof.
  induction s as [|x s IH]; intros i found Hn; [reflexivity|].
  cbn [rfind_from]. destruct (N.eqb_spec x c) as [-> | Hx].
  - exfalso. apply Hn. now left.
  - apply IH. intros Hin. apply Hn. now right.
Qed.

(** A long chunk of whitespace is cut where the line is full. *)
Lemma handle_long_blank r rest cur_line cur_len width :
  forallb py_isspace r = true -> 1 <= width ->
  _handle_long_word (r :: rest) cur_line cur_len width
  = (skipn (width - cur_len) r :: rest,
     cur_line ++ [firstn (width - cur_len) r]).
Proof.
  intros Hr Hw. unfold _handle_long_word.
  destruct (Nat.ltb_spec width 1); [lia|].
  assert (Hh : rfind hyphen (firstn (width - cur_len) r) = (-1)%Z).
  { apply rfind_from_absent. intros Hin%in_firstn.
    rewrite forallb_forall in Hr. apply Hr in Hin. discriminate. }
  rewrite Hh. now destruct (width - cur_len <? length r).
Qed.

Lemma forallb_firstn (p : N -> bool) n s :
  forallb p s = true -> forallb p (firstn n s) = true.
Proof.
  rewrite !forallb_forall. intros Hs x Hx%in_firstn. auto.
Qed.

Lemma forallb_skipn (p : N -> bool) n s :
  forallb p s = true -> forallb p (skipn n s) = true.
Proof.
  rewrite !forallb_forall. intros Hs x Hx. apply Hs.
  rewrite <- (firstn_skipn n s). apply in_or_app. now right.
Qed.

Lemma drop_trailing_blank_snoc l d :
  blank d = true -> drop_trailing_blank (l ++ [d]) = l.
Proof.
  intros Hd. unfold drop_trailing_blank. rewrite rev_app_distr. simpl.
  rewrite Hd. apply removelast_last.
Qed.

(** Dropping the trailing blank chunk of a line drops no word. *)
Lemma drop_trailing_blank_words l :
  spaced l ->
  spaced (drop_trailing_blank l)
  /\ words_of (drop_trailing_blank l) = words_of l.
Proof.
  intros Hs. unfold drop_trailing_blank.
  destruct (rev l) as [|d x] eqn:Hrev; [auto|].
  destruct (blank d) eqn:Hd; [|auto].
  assert (Hl : l = rev x ++ [d]).
  { rewrite <- (rev_involutive l), Hrev. reflexivity. }
  rewrite Hl in *. rewrite removelast_last. split.
  - exact (spaced_app_l _ _ Hs).
  - rewrite map_app, concat_app. simpl.
    rewrite py_split_blank by now apply blank_iff.
    now rewrite !app_nil_r.
Qed.

Lemma wrap_measure_app l1 l2 :
  wrap_measure (l1 ++ l2) = wrap_measure l1 + wrap_measure l2.
Proof.
  unfold wrap_measure. rewrite concat_app, !length_app. lia.
Qed.

Lemma new_line_words (cur_line lines : list pystr) :
  spaced cur_line ->
  exists new,
    match cur_line with
    | [] => lines
    | _ => lines ++ [concat cur_line]
    end = lines ++ new
    /\ words_of new = words_of cur_line.
Proof.
  intros Hs. destruct cur_line as [|c l].
  - exists []. now rewrite app_nil_r.
  - exists [concat (c :: l)]. split; [reflexivity|].
    rewrite <- (@py_split_spaced (c :: l) Hs). simpl. now rewrite app_nil_r.
Qed.

(** One turn of the loop on good chunks: the chunks left are good and
    fewer, and the line made and the chunks left carry the words of the
    chunks the turn started with. *)
Lemma wrap_line_good width chunks lines :
  1 <= width -> chunks <> [] -> good_chunks width chunks ->
  exists chunks' new,
    wrap_line width chunks lines = (chunks', lines ++ new)
    /\ good_chunks width chunks'
    /\ wrap_measure chunks' < wrap_measure chunks
    /\ words_of new ++ words_of chunks' = words_of chunks.
Proof.
  intros Hw Hne Hgood. unfold wrap_line.
  (* the chunk dropped at the start of a line *)
  set (chunks1 := match chunks with
                  | [] => chunks
                  | c :: rest =>
                      if blank c
                         && negb match lines with [] => true | _ => false end
                      then rest else chunks
                  end).
  assert (H1 : good_chunks width chunks1
               /\ words_of chunks1 = words_of chunks
               /\ (chunks1 = chunks
                   \/ wrap_measure chunks1 < wrap_measure chunks)).
  { unfold chunks1. destruct chunks as [|c0 rest0]; [congruence|].
    destruct (blank c0) eqn:Hb; cbn [andb]; [|auto].
    destruct (negb _); [|auto].
    destruct Hgood as [Hall Hsp]. repeat split.
    - now inversion Hall.
    - exact (spaced_tail _ _ Hsp).
    - cbn [map concat]. now rewrite py_split_blank by now apply blank_iff.
    - right. unfold wrap_measure. cbn [concat length].
      rewrite length_app. lia. }
  assert (Hpos : 1 <= wrap_measure chunks).
  { destruct chunks; [congruence|]. unfold wrap_measure. simpl. lia. }
  clearbody chunks1. destruct H1 as ([Hall Hsp] & Hwords & Hmeas).
  rewrite <- Hwords. clear Hwords Hgood.
  (* the chunks that fit *)
  destruct (take_fitting_spec width chunks1 0 [])
    as (taken & remaining & -> & Hsplit & Hle & Hrem).
  cbn [app plus]. specialize (Hle ltac:(lia)).
  subst chunks1. apply Forall_app in Hall as [Hall_t Hall_r].
  pose proof (spaced_app_l _ _ Hsp) as Hsp_t.
  pose proof (spaced_app_r _ _ Hsp) as Hsp_r.
  rewrite wrap_measure_app in Hmeas. rewrite map_app, concat_app.
  assert (Htaken : taken = [] -> length (concat taken) = 0)
    by now intros ->.
  assert (Htm : taken <> [] -> 1 <= wrap_measure taken).
  { destruct taken; [congruence|]. unfold wrap_measure. simpl. lia. }
  assert (Hstay : taken ++ remaining = chunks -> taken = [] ->
                  remaining <> []) by (intros <- ->; exact Hne).
  destruct remaining as [|r rest'].
  - (* every chunk is on the line *)
    destruct (drop_trailing_blank_words taken Hsp_t) as [Hsd Hwd].
    destruct (new_line_words (drop_trailing_blank taken) lines Hsd)
      as (new & -> & Hnew).
    exists [], new. split; [reflexivity|]. split; [|split].
    + split; constructor.
    + unfold wrap_measure at 1. simpl. lia.
    + now rewrite Hnew, Hwd.
  - destruct (Nat.ltb_spec width (length r)) as [Hlong | Hfits].
    + (* the next chunk is too long for any line: it is whitespace *)
      inversion Hall_r as [|? ? Hr Hall_r']; subst.
      destruct Hr as [Hr | Hr]; [|lia].
      rewrite handle_long_blank by assumption.
      set (e := width - length (concat taken)).
      rewrite drop_trailing_blank_snoc
        by (apply blank_iff; now apply forallb_firstn).
      destruct (new_line_words taken lines Hsp_t) as (new & -> & Hnew).
      exists (skipn e r :: rest'), new.
      assert (Hlen : length (skipn e r) = length r - e)
        by apply length_skipn.
      split; [reflexivity|]. split; [|split].
      * split.
        -- constructor; auto. left. now apply forallb_skipn.
        -- cbn [spaced]. destruct rest' as [|b rest'']; [exact I|].
           split; [|exact (spaced_tail _ _ Hsp_r)].
           left. split; [|now apply forallb_skipn].
           intros Hnil. rewrite Hnil in Hlen. simpl in Hlen.
           unfold e in Hlen. lia.
      * assert (He : taken = [] -> e = width)
          by (intros Ht; unfold e; rewrite (Htaken Ht); lia).
        assert (Hm : wrap_measure taken + wrap_measure (r :: rest')
                     <= wrap_measure chunks).
        { destruct Hmeas as [<- | Hm]; [|lia].
          rewrite wrap_measure_app. lia. }
        clear Hmeas Hstay Hpos. unfold wrap_measure in *.
        cbn [length concat] in *. rewrite !length_app in *. rewrite Hlen.
        destruct taken as [|t0 taken'].
        -- specialize (He eq_refl). simpl in *. lia.
        -- specialize (Htm ltac:(discriminate)). simpl in *. lia.
      * rewrite Hnew. cbn [map concat].
        rewrite (py_split_blank r Hr).
        now rewrite py_split_blank by now apply forallb_skipn.
    + (* the next chunk goes on the next line *)
      destruct (drop_trailing_blank_words taken Hsp_t) as [Hsd Hwd].
      destruct (new_line_words (drop_trailing_blank taken) lines Hsd)
        as (new & -> & Hnew).
      exists (r :: rest'), new. split; [reflexivity|]. split; [|split].
      * now split.
      * assert (Hne_t : taken <> []).
        { intros Ht. rewrite (Htaken Ht) in Hrem. simpl in Hrem. lia. }
        specialize (Htm Hne_t). destruct Hmeas as [Hm | Hm]; [|lia].
        rewrite <- Hm. rewrite wrap_measure_app. lia.
      * now rewrite Hnew, Hwd.
Qed.

(** *** The loop returns on all chunks *)

Lemma handle_long_word_cut r rest cur_line cur_len width :
  exists end_,
    _handle_long_word (r :: rest) cur_line cur_len width
    = (skipn end_ r :: rest, cur_line ++ [firstn end_ r])
    /\ (1 <= width -> cur_len = 0 -> 1 <= end_).
Proof.
  unfold _handle_long_word.
  set (space_left := if width <? 1 then 1 else width - cur_len).
  assert (Hs : 1 <= width -> cur_len = 0 -> 1 <= space_left).
  { intros Hw ->. unfold space_left. destruct (Nat.ltb_spec width 1); lia. }
  eexists. split; [reflexivity|]. intros Hw Hc. specialize (Hs Hw Hc).
  destruct (space_left <? length r); [|exact Hs].
  destruct (_ && _); [lia | exact Hs].
Qed.

(** Every turn of the loop takes a chunk or a character off the chunks. *)
Lemma wrap_line_progress width chunks lines :
  1 <= width -> chunks <> [] ->
  exists chunks' lines',
    wrap_line width chunks lines = (chunks', lines')
    /\ wrap_measure chunks' < wrap_measure chunks.
Proof.
  intros Hw Hne. unfold wrap_line.
  set (chunks1 := match chunks with
                  | [] => chunks
                  | c :: rest =>
                      if blank c
                         && negb match lines with [] => true | _ => false end
                      then rest else chunks
                  end).
  assert (H1 : chunks1 = chunks
               \/ wrap_measure chunks1 < wrap_measure chunks).
  { unfold chunks1. destruct chunks as [|c0 rest0]; [congruence|].
    destruct (_ && _); [|auto].
    right. unfold wrap_measure. cbn [concat length].
    rewrite length_app. lia. }
  assert (Hpos : 1 <= wrap_measure chunks).
  { destruct chunks; [congruence|]. unfold wrap_measure. simpl. lia. }
  clearbody chunks1.
  destruct (take_fitting_spec width chunks1 0 [])
    as (taken & remaining & -> & -> & _ & Hrem).
  cbn [app plus]. rewrite wrap_measure_app in H1.
  assert (Htm : taken <> [] -> 1 <= wrap_measure taken).
  { destruct taken; [congruence|]. unfold wrap_measure. simpl. lia. }
  assert (Hm : wrap_measure taken + wrap_measure remaining
               <= wrap_measure chunks).
  { destruct H1 as [<- | H1]; [|lia]. rewrite wrap_measure_app. lia. }
  destruct remaining as [|r rest'].
  - eexists _, _. split; [reflexivity|]. unfold wrap_measure at 1.
    simpl. lia.
  - destruct (Nat.ltb_spec width (length r)) as [Hlong | Hfits].
    + destruct (handle_long_word_cut r rest' taken
                  (length (concat taken)) width) as (end_ & -> & Hend).
      eexists _, _. split; [reflexivity|].
      assert (Hlen : length (skipn end_ r) = length r - end_)
        by apply length_skipn.
      unfold wrap_measure in *. cbn [length concat] in *.
      rewrite !length_app in *. rewrite Hlen.
      destruct taken as [|t0 taken'].
      * specialize (Hend Hw eq_refl). simpl in *. lia.
      * specialize (Htm ltac:(discriminate)). simpl in *. lia.
    + eexists _, _. split; [reflexivity|].
      assert (Hne_t : taken <> []).
      { intros ->. simpl in Hrem. lia. }
      specialize (Htm Hne_t). lia.
Qed.

Lemma wrap_loop_returns width :
  1 <= width ->
  forall fuel chunks lines,
    wrap_measure chunks <= fuel ->
    exists out, wrap_loop fuel width chunks lines = Some out.
Proof.
  intros Hw. induction fuel as [|fuel IH]; intros chunks lines Hm.
  - destruct chunks as [|c chunks]; [now exists lines|].
    unfold wrap_measure in Hm. simpl in Hm. lia.
  - destruct chunks as [|c chunks]; [now exists lines|].
    cbn [wrap_loop].
    destruct (@wrap_line_progress width (c :: chunks) lines Hw
                ltac:(discriminate)) as (chunks' & lines' & -> & Hlt).
    apply IH. lia.
Qed.

(** [textwrap.fill] returns at every width above zero; at the others it
    raises. *)
Lemma fill_returns `{Unicode} (text : pystr) (width : Z) :
  if (width <=? 0)%Z then fill text width = Raise ValueError
  else exists out, fill text width = Ok out.
Proof.
  unfold fill, wrap, _wrap_chunks.
  destruct (Z.leb_spec width 0); [reflexivity|].
  destruct (@wrap_loop_returns (Z.to_nat width) ltac:(lia)
              (wrap_measure (_split_chunks text)) (_split_chunks text) []
              (le_n _)) as [out ->].
  now eexists.
Qed.

(** *** The loop on chunks it never breaks *)

Lemma wrap_loop_good width :
  1 <= width ->
  forall fuel chunks lines,
    wrap_measure chunks <= fuel ->
    good_chunks width chunks ->
    exists out,
      wrap_loop fuel width chunks lines = Some (lines ++ out)
      /\ words_of out = words_of chunks.
Proof.
  intros Hw. induction fuel as [|fuel IH]; intros chunks lines Hm Hgood.
  - destruct chunks as [|c chunks].
    + exists []. now rewrite app_nil_r.
    + unfold wrap_measure in Hm. simpl in Hm. lia.
  - destruct chunks as [|c chunks].
    + exists []. now rewrite app_nil_r.
    + cbn [wrap_loop].
      destruct (@wrap_line_good width (c :: chunks) lines Hw
                  ltac:(discriminate) Hgood)
        as (chunks' & new & -> & Hgood' & Hlt & Hwords).
      destruct (IH chunks' (lines ++ new) ltac:(lia) Hgood')
        as (out & -> & Hout).
      exists (new ++ out). rewrite app_assoc. split; [reflexivity|].
      rewrite map_app, concat_app, Hout. exact Hwords.
Qed.

(** C3, as stated, fails in three ways: a word longer than the width is
    cut, a hyphenated word is broken behind its hyphen, and a double
    space inside a line is kept by the wrapping but not by the
    normalisation. *)
Lemma wrap_breaks_words :
  ~ @wrap_keeps_words fragment long_word 65
  /\ ~ @wrap_keeps_words fragment hyphenated 65
  /\ ~ @wrap_keeps_words fragment two_spaces 65
  /\ @wrap fragment (strip long_word) 65
     = Ok [repeat 0x61%N 65; [0x61%N]]
  /\ @wrap fragment (strip hyphenated) 65
     = Ok [repeat 0x78%N 58 ++ of_string " well-"; of_string "known"]
  /\ @wrap fragment (strip two_spaces) 65 = Ok [of_string "a  b"].
Proof.
  assert (H1 : @wrap fragment (strip long_word) 65
               = Ok [repeat 0x61%N 65; [0x61%N]])
    by (vm_compute; reflexivity).
  assert (H2 : @wrap fragment (strip hyphenated) 65
               = Ok [repeat 0x78%N 58 ++ of_string " well-";
                     of_string "known"])
    by (vm_compute; reflexivity).
  assert (H3 : @wrap fragment (strip two_spaces) 65 = Ok [of_string "a  b"])
    by (vm_compute; reflexivity).
  repeat split; auto.
  - intros (lines & Hw & Hwords & _). rewrite H1 in Hw.
    injection Hw as <-. vm_compute in Hwords. discriminate.
  - intros (lines & Hw & Hwords & _). rewrite H2 in Hw.
    injection Hw as <-. vm_compute in Hwords. discriminate.
  - intros (lines & Hw & _ & Hnorm). rewrite H3 in Hw.
    injection Hw as <-. vm_compute in Hnorm. discriminate.
Qed.

(** C3, amended.  When the trimmed text has no hyphen and none of its
    words (the runs between the whitespace of [textwrap]) is longer than
    the width, the wrapping returns lines that carry the words of the
    trimmed text whole and in order, so no word is cut and every break is
    at whitespace, and the joined lines and the trimmed text are equal
    once whitespace is normalised in both. *)
Theorem wrap_keeps_short_words `{Unicode} (text : pystr) (width : Z) :
  (0 < width)%Z ->
  ~ In hyphen (strip text) ->
  Forall (fun w => (Z.of_nat (length w) <= width)%Z) (tw_words (strip text)) ->
  exists lines,
    wrap (strip text) width = Ok lines
    /\ fill (strip text) width = Ok (join [newline] lines)
    /\ concat (map py_split lines) = py_split (strip text)
    /\ normalize (join [newline] lines) = normalize (strip text).
Proof.
  intros Hw Hn Hshort.
  assert (Hshort' : Forall (fun w => length w <= Z.to_nat width)
                      (tw_words (strip text))).
  { eapply Forall_impl; [|exact Hshort]. cbv beta. intros w Hlen. lia. }
  destruct (@split_chunks_good _ (Z.to_nat width) (strip text) Hn Hshort')
    as [Hcat Hgood].
  destruct (@wrap_loop_good (Z.to_nat width) ltac:(lia)
              (wrap_measure (_split_chunks (strip text)))
              (_split_chunks (strip text)) [] (le_n _) Hgood)
    as (lines & Hloop & Hwords).
  assert (Hlines : concat (map py_split lines) = py_split (strip text)).
  { rewrite Hwords, <- py_split_spaced by apply Hgood.
    rewrite Hcat. unfold py_split. apply munge_keeps_words.
    apply tw_space_isspace. }
  assert (Hwrap : wrap (strip text) width = Ok lines).
  { unfold wrap, _wrap_chunks.
    destruct (Z.leb_spec width 0); [lia|]. now rewrite Hloop. }
  exists lines. split; [exact Hwrap|]. split; [|split].
  - unfold fill. now rewrite Hwrap.
  - exact Hlines.
  - unfold normalize. f_equal. unfold py_split at 1.
    rewrite split_on_join by reflexivity. exact Hlines.
Qed.

(** The text of the run on "Hello world" at width 65. *)
Lemma wrap_keeps_short_words_witness :
  ~ In hyphen (strip (seg_text hello_segment))
  /\ Forall (fun w => (Z.of_nat (length w) <= 65)%Z)
       (tw_words (strip (seg_text hello_segment)))
  /\ exists lines,
      @wrap fragment (strip (seg_text hello_segment)) 65 = Ok lines
      /\ @fill fragment (strip (seg_text hello_segment)) 65
         = Ok (join [newline] lines)
      /\ concat (map py_split lines)
         = py_split (strip (seg_text hello_segment))
      /\ normalize (join [newline] lines)
         = normalize (strip (seg_text hello_segment)).
Proof.
  assert (Hn : ~ In hyphen (strip (seg_text hello_segment))).
  { vm_compute. intros H.
    repeat (destruct H as [H|H]; [discriminate H|]). exact H. }
  assert (Hs : Forall (fun w => (Z.of_nat (length w) <= 65)%Z)
                 (tw_words (strip (seg_text hello_segment)))).
  { vm_compute. repeat constructor; discriminate. }
  split; [exact Hn|]. split; [exact Hs|].
  exact (@wrap_keeps_short_words fragment (seg_text hello_segment) 65
           eq_refl Hn Hs).
Defined.

(** ** Further facts on the model *)

(** Every match of [wordsep_re] takes a character, so the fuel of
    [_split] is enough: the chunks are the whole text. *)
Lemma chunk_length_pos `{Unicode} before c s :
  1 <= chunk_length before (c :: s).
Proof.
  unfold chunk_length. destruct (tw_space c) eqn:Hc.
  - simpl. rewrite Hc. simpl. lia.
  - destruct (after_word_punct before && emdash_ahead (c :: s)) eqn:He; [|lia].
    apply andb_prop in He as [_ He]. unfold emdash_ahead in He.
    apply andb_prop in He as [He _]. apply Nat.leb_le in He. lia.
Qed.

Lemma split_from_concat `{Unicode} fuel : forall before s,
  length s <= fuel -> concat (split_from fuel before s) = s.
Proof.
  induction fuel as [|fuel IH]; intros before s Hlen.
  - destruct s; [reflexivity | simpl in Hlen; lia].
  - destruct s as [|c s]; [reflexivity|].
    cbn [split_from concat].
    pose proof (chunk_length_pos before c s) as Hpos.
    rewrite IH; [apply firstn_skipn|].
    rewrite length_skipn. simpl length in *. lia.
Qed.

Lemma split_concat `{Unicode} text : concat (_split text) = text.
Proof. apply split_from_concat. apply le_n. Qed.

(** Latin next to Cyrillic, and Han next to Hiragana, are one category
    each: it takes two categories to leave a string undetermined. *)
Lemma scripts_of_one_category :
  @detect_script fragment [0x41; 0x0431]%N = Some LatinCyrillic
  /\ @detect_script fragment [0x65E5; 0x306E]%N = Some Asian.
Proof. split; vm_compute; reflexivity. Qed.

(** The samples of the specification: Latin and Cyrillic text with
    punctuation, CJK text, Arabic text, the empty string. *)
Lemma detect_script_samples :
  @detect_script fragment (of_string "Hello, world!") = Some LatinCyrillic
  /\ @detect_script fragment [0x41F; 0x440; 0x438; 0x432; 0x435; 0x442; 0x21]%N
     = Some LatinCyrillic
  /\ @detect_script fragment [0x4F60; 0x597D; 0x3002]%N = Some Asian
  /\ @detect_script fragment [0x645; 0x631; 0x62D; 0x628; 0x627; 0x2E]%N
     = Some ArabicCat
  /\ @detect_script fragment [] = None.
Proof. repeat split; vm_compute; reflexivity. Qed.

(* ================================================================== *)
(** * Part III. Properties of the rest of the program *)
(* ================================================================== *)

(** ** Wrapping keeps the text and the width *)

Lemma rfind_from_lt c s : forall i found,
  (found < i + Z.of_nat (length s))%Z ->
  (rfind_from c i s found < i + Z.of_nat (length s))%Z.
Proof.
  induction s as [|x s IH]; intros i found Hf; [exact Hf|].
  cbn [rfind_from]. specialize (IH (i + 1)%Z (if N.eqb x c then i else found)).
  cbn [length] in *. destruct (N.eqb x c); lia.
Qed.

Lemma rfind_lt c s : (rfind c s < Z.of_nat (length s))%Z.
Proof.
  unfold rfind. pose proof (@rfind_from_lt c s 0%Z (-1)%Z). lia.
Qed.

(** The piece [_handle_long_word] puts on the line fits in what is left
    of the line, and is not empty on an empty line. *)
Lemma handle_long_word_fit r rest cur_line cur_len width :
  exists end_,
    _handle_long_word (r :: rest) cur_line cur_len width
    = (skipn end_ r :: rest, cur_line ++ [firstn end_ r])
    /\ (1 <= width -> cur_len <= width -> cur_len + end_ <= width)
    /\ (1 <= width -> cur_len = 0 -> 1 <= end_).
Proof.
  unfold _handle_long_word.
  set (space_left := if width <? 1 then 1 else width - cur_len).
  assert (Hs : 1 <= width -> space_left = width - cur_len).
  { intros Hw. unfold space_left. destruct (Nat.ltb_spec width 1); lia. }
  pose proof (rfind_lt hyphen (firstn space_left r)) as Hlt.
  pose proof (length_firstn space_left r) as Hlen.
  set (hy := rfind hyphen (firstn space_left r)) in *.
  eexists. split; [reflexivity|].
  destruct (space_left <? length r); [destruct (_ && _) eqn:Hy|]; split;
    intros Hw Hc; specialize (Hs Hw); lia.
Qed.

Lemma nonspace_app a b : nonspace (a ++ b) = nonspace a ++ nonspace b.
Proof. apply filter_app. Qed.

Lemma nonspace_blank d : forallb py_isspace d = true -> nonspace d = [].
Proof.
  induction d as [|c d IH]; [reflexivity|]. simpl.
  intros [Hc Hd]%andb_prop. rewrite Hc. simpl. auto.
Qed.

(** What [drop_trailing_blank] takes off a line is one blank chunk at
    most. *)
Lemma drop_trailing_blank_cases l :
  drop_trailing_blank l = l
  \/ exists d, l = drop_trailing_blank l ++ [d] /\ blank d = true.
Proof.
  unfold drop_trailing_blank. destruct (rev l) as [|d x] eqn:Hrev; [auto|].
  destruct (blank d) eqn:Hd; [|auto]. right. exists d.
  assert (Hl : l = rev x ++ [d]).
  { rewrite <- (rev_involutive l), Hrev. reflexivity. }
  rewrite Hl at 1 2. rewrite removelast_last. auto.
Qed.

Lemma drop_trailing_blank_keeps l :
  length (concat (drop_trailing_blank l)) <= length (concat l)
  /\ nonspace (concat (drop_trailing_blank l)) = nonspace (concat l)
  /\ incl (concat (drop_trailing_blank l)) (concat l).
Proof.
  destruct (drop_trailing_blank_cases l) as [-> | (d & Hl & Hd)].
  - repeat split; auto. apply incl_refl.
  - set (l' := drop_trailing_blank l) in *. rewrite Hl.
    rewrite concat_app. simpl. rewrite app_nil_r. repeat split.
    + rewrite length_app. lia.
    + rewrite nonspace_app, (nonspace_blank d) by now apply blank_iff.
      now rewrite app_nil_r.
    + apply incl_appl, incl_refl.
Qed.

(** One turn of the loop on any chunks: the line it makes fits the
    width, and the line and the chunks left hold the characters of the
    chunks it started with, whitespace apart. *)
Lemma wrap_line_keeps width chunks lines :
  1 <= width -> chunks <> [] ->
  exists chunks' new,
    wrap_line width chunks lines = (chunks', lines ++ new)
    /\ wrap_measure chunks' < wrap_measure chunks
    /\ Forall (fun l => length l <= width) new
    /\ nonspace (concat new) ++ nonspace (concat chunks')
       = nonspace (concat chunks)
    /\ incl (concat new ++ concat chunks') (concat chunks).
Proof.
  intros Hw Hne.
  destruct (@wrap_line_progress width chunks lines Hw Hne)
    as (chunks0 & lines0 & Hrun & Hlt).
  revert Hrun. unfold wrap_line.
  set (chunks1 := match chunks with
                  | [] => chunks
                  | c :: rest =>
                      if blank c
                         && negb match lines with [] => true | _ => false end
                      then rest else chunks
                  end).
  assert (H1 : nonspace (concat chunks1) = nonspace (concat chunks)
               /\ incl (concat chunks1) (concat chunks)).
  { unfold chunks1. destruct chunks as [|c0 rest0]; [congruence|].
    destruct (blank c0) eqn:Hb; cbn [andb]; [|split; [auto|apply incl_refl]].
    destruct (negb _); [|split; [auto|apply incl_refl]].
    cbn [concat]. split.
    - rewrite nonspace_app, (nonspace_blank c0) by now apply blank_iff.
      reflexivity.
    - apply incl_appr, incl_refl. }
  clearbody chunks1. destruct H1 as [Hns Hincl].
  destruct (take_fitting_spec width chunks1 0 [])
    as (taken & remaining & -> & -> & Hle & Hrem).
  cbn [app plus]. specialize (Hle ltac:(lia)). cbn [plus] in Hle.
  rewrite concat_app in Hns, Hincl. rewrite nonspace_app in Hns.
  rewrite <- Hns.
  assert (Hline : forall cur_line,
             length (concat cur_line) <= width ->
             exists new,
               match drop_trailing_blank cur_line with
               | [] => lines
               | _ => lines ++ [concat (drop_trailing_blank cur_line)]
               end = lines ++ new
               /\ Forall (fun l => length l <= width) new
               /\ nonspace (concat new) = nonspace (concat cur_line)
               /\ incl (concat new) (concat cur_line)).
  { intros cur_line Hfit.
    destruct (drop_trailing_blank_keeps cur_line) as (Hl & Hn & Hi).
    destruct (drop_trailing_blank cur_line) as [|c l] eqn:Hd.
    - exists []. rewrite app_nil_r. repeat split; auto.
    - exists [concat (c :: l)]. cbn [concat]. rewrite !app_nil_r.
      repeat split; auto. constructor; [|constructor].
      cbn [concat] in Hl. lia. }
  destruct remaining as [|r rest'].
  - destruct (Hline taken Hle) as (new & -> & Hfit & Hn & Hi).
    intros [= <- <-]. exists [], new. split; [reflexivity|].
    split; [exact Hlt|]. split; [exact Hfit|]. split.
    + now rewrite Hn.
    + eapply incl_tran; [|exact Hincl].
      apply incl_app; [|apply incl_nil_l].
      apply incl_appl. exact Hi.
  - destruct (Nat.ltb_spec width (length r)) as [Hlong | Hfits].
    + destruct (handle_long_word_fit r rest' taken
                  (length (concat taken)) width)
        as (end_ & -> & Hend & _).
      specialize (Hend Hw Hle).
      assert (Hcat : concat (taken ++ [firstn end_ r])
                     = concat taken ++ firstn end_ r).
      { rewrite concat_app. simpl. now rewrite app_nil_r. }
      assert (Hfit' : length (concat (taken ++ [firstn end_ r])) <= width).
      { rewrite Hcat, length_app.
        pose proof (length_firstn end_ r). lia. }
      destruct (Hline _ Hfit') as (new & -> & Hfit & Hn & Hi).
      intros [= <- <-]. exists (skipn end_ r :: rest'), new.
      split; [reflexivity|]. split; [exact Hlt|]. split; [exact Hfit|].
      rewrite Hcat in Hn, Hi. split.
      * rewrite Hn. cbn [concat]. rewrite !nonspace_app.
        rewrite <- (firstn_skipn end_ r) at 3.
        rewrite nonspace_app. now rewrite <- !app_assoc.
      * eapply incl_tran; [|exact Hincl]. cbn [concat].
        intros x [Hx | Hx]%in_app_iff.
        -- apply Hi in Hx. apply in_app_iff in Hx as [Hx | Hx].
           ++ apply in_or_app. now left.
           ++ apply in_or_app. right. apply in_or_app. left.
              now apply in_firstn in Hx.
        -- apply in_or_app. right.
           apply in_app_iff in Hx as [Hx | Hx]; apply in_or_app.
           ++ left. rewrite <- (firstn_skipn end_ r).
              apply in_or_app. now right.
           ++ now right.
    + destruct (Hline taken Hle) as (new & -> & Hfit & Hn & Hi).
      intros [= <- <-]. exists (r :: rest'), new.
      split; [reflexivity|]. split; [exact Hlt|]. split; [exact Hfit|].
      split.
      * now rewrite Hn.
      * eapply incl_tran; [|exact Hincl].
        intros x [Hx | Hx]%in_app_iff; apply in_or_app; auto.
Qed.

Lemma wrap_loop_keeps width :
  1 <= width ->
  forall fuel chunks lines,
    wrap_measure chunks <= fuel ->
    exists out,
      wrap_loop fuel width chunks lines = Some (lines ++ out)
      /\ Forall (fun l => length l <= width) out
      /\ nonspace (concat out) = nonspace (concat chunks)
      /\ incl (concat out) (concat chunks).
Proof.
  intros Hw. induction fuel as [|fuel IH]; intros chunks lines Hm.
  - destruct chunks as [|c chunks].
    + exists []. rewrite app_nil_r. repeat split; auto. apply incl_refl.
    + unfold wrap_measure in Hm. simpl in Hm. lia.
  - destruct chunks as [|c chunks].
    + exists []. rewrite app_nil_r. repeat split; auto. apply incl_refl.
    + cbn [wrap_loop].
      destruct (@wrap_line_keeps width (c :: chunks) lines Hw
                  ltac:(discriminate))
        as (chunks' & new & -> & Hlt & Hfit & Hn & Hi).
      destruct (IH chunks' (lines ++ new) ltac:(lia))
        as (out & -> & Hfit' & Hn' & Hi').
      exists (new ++ out). rewrite app_assoc. split; [reflexivity|].
      split; [now apply Forall_app|]. rewrite concat_app. split.
      * rewrite nonspace_app, Hn'. exact Hn.
      * eapply incl_tran; [|exact Hi].
        intros x [Hx | Hx]%in_app_iff; apply in_or_app; auto.
Qed.

(** Munging changes whitespace only. *)
Lemma nonspace_munge s : forall col,
  nonspace (translate_whitespace (expandtabs_from col s)) = nonspace s.
Proof.
  induction s as [|c s IH]; intros col; [reflexivity|].
  cbn [expandtabs_from]. destruct (N.eqb_spec c 9) as [-> | Hc].
  - unfold translate_whitespace. rewrite map_app.
    fold (translate_whitespace (repeat space (8 - col mod 8))).
    fold (translate_whitespace (expandtabs_from (col + (8 - col mod 8)) s)).
    rewrite translate_spaces, nonspace_app, IH.
    rewrite nonspace_blank; [reflexivity|].
    apply forallb_forall. intros x Hx%repeat_spec. now subst.
  - cbn [translate_whitespace map]. fold translate_whitespace.
    unfold nonspace at 1 2. cbn [filter]. fold (nonspace s).
    fold (nonspace (translate_whitespace
                      (expandtabs_from
                         (if (c =? 10)%N || (c =? 13)%N then 0 else S col) s))).
    rewrite IH. destruct (tw_space c) eqn:Ht; [|reflexivity].
    now rewrite (tw_space_isspace c Ht).
Qed.

Lemma nonspace_join lines :
  nonspace (join [newline] lines) = nonspace (concat lines).
Proof.
  induction lines as [|l lines IH]; [reflexivity|].
  destruct lines as [|l' lines].
  - simpl. now rewrite app_nil_r.
  - change (join [newline] (l :: l' :: lines))
      with (l ++ [newline] ++ join [newline] (l' :: lines)).
    rewrite !nonspace_app, IH. cbn [concat].
    now rewrite !nonspace_app.
Qed.

(** X1.  Wrapping changes whitespace only: at every width above zero
    [textwrap.fill] returns, and the characters of its result that are no
    whitespace are those of the text, in the same order. *)
Theorem fill_keeps_characters `{Unicode} (text : pystr) (width : Z) :
  (0 < width)%Z ->
  exists out, fill text width = Ok out /\ nonspace out = nonspace text.
Proof.
  intros Hw. unfold fill, wrap, _wrap_chunks.
  destruct (Z.leb_spec width 0); [lia|].
  destruct (@wrap_loop_keeps (Z.to_nat width) ltac:(lia)
              (wrap_measure (_split_chunks text)) (_split_chunks text) []
              (le_n _)) as (lines & -> & _ & Hn & _).
  cbn [bind app]. eexists. split; [reflexivity|].
  rewrite nonspace_join, Hn. unfold _split_chunks.
  rewrite split_concat. apply nonspace_munge.
Qed.

Lemma fill_keeps_characters_witness :
  exists out,
    @fill fragment numbers_then_word 22 = Ok out
    /\ nonspace out = nonspace numbers_then_word.
Proof. exact (@fill_keeps_characters fragment numbers_then_word 22 eq_refl). Defined.

(** X2.  At every width above zero the wrapping returns, and none of its
    lines is longer than the width. *)
Theorem wrap_lines_fit `{Unicode} (text : pystr) (width : Z) :
  (0 < width)%Z ->
  exists lines,
    wrap text width = Ok lines
    /\ fill text width = Ok (join [newline] lines)
    /\ Forall (fun l => (Z.of_nat (length l) <= width)%Z) lines.
Proof.
  intros Hw. unfold fill, wrap, _wrap_chunks.
  destruct (Z.leb_spec width 0); [lia|].
  destruct (@wrap_loop_keeps (Z.to_nat width) ltac:(lia)
              (wrap_measure (_split_chunks text)) (_split_chunks text) []
              (le_n _)) as (lines & -> & Hfit & _ & _).
  cbn [bind app]. exists lines. repeat split.
  eapply Forall_impl; [|exact Hfit]. cbv beta. intros l Hl. lia.
Qed.

Lemma wrap_lines_fit_witness :
  exists lines,
    @wrap fragment numbers_then_word 22 = Ok lines
    /\ @fill fragment numbers_then_word 22 = Ok (join [newline] lines)
    /\ Forall (fun l => (Z.of_nat (length l) <= 22)%Z) lines.
Proof. exact (@wrap_lines_fit fragment numbers_then_word 22 eq_refl). Defined.

(** ** The classifier looks at the characters only *)

Section ClassifierCharacters.
Context `{U : Unicode}.

Lemma common_allowed k c :
  script_of c = Common -> in_scripts (allowed_scripts k) c = true.
Proof.
  intros Hc. apply in_scripts_In. rewrite Hc.
  unfold allowed_scripts. apply in_or_app. right. now left.
Qed.

(** On a text whose inner whitespace is Common, the match of a category
    on the stripped text is its match on the characters that are no
    whitespace. *)
Lemma category_matches_nonspace k t :
  inner_spaces_common t ->
  category_matches k (strip t) = category_matches k (nonspace t).
Proof.
  intros Hsp. unfold category_matches. fold (allowed_scripts k). f_equal.
  - apply eq_true_iff_eq. rewrite !forallb_forall. split.
    + intros Hall c [Hin Hc]%filter_In. apply negb_true_iff in Hc.
      apply Hall. now apply strip_keeps.
    + intros Hall c Hin.
      destruct (py_isspace c) eqn:Hc;
        [apply common_allowed; now apply Hsp|].
      apply Hall. apply filter_In. rewrite Hc. split; [|reflexivity].
      now apply strip_incl.
  - apply eq_true_iff_eq. rewrite !existsb_exists. split.
    + intros (c & Hin & Hc). exists c. split; auto.
      apply filter_In. split; [now apply strip_incl|].
      destruct (py_isspace c) eqn:Hs; [|reflexivity].
      fold (strict k c) in Hc.
      rewrite (common_not_strict k c (Hsp c Hin Hs)) in Hc. discriminate.
    + intros (c & [Hin Hs]%filter_In & Hc). exists c. split; auto.
      apply strip_keeps; auto. now apply negb_true_iff.
Qed.

Lemma category_matches_same_characters k t1 t2 :
  (forall c, In c t1 <-> In c t2) ->
  category_matches k t1 = category_matches k t2.
Proof.
  intros Hsame. unfold category_matches. f_equal; apply eq_true_iff_eq.
  - rewrite !forallb_forall. split; intros Hall c Hin; apply Hall;
      now apply Hsame.
  - rewrite !existsb_exists. split; intros (c & Hin & Hc); exists c;
      split; auto; now apply Hsame.
Qed.

Lemma detect_script_by_characters t1 t2 :
  inner_spaces_common t1 -> inner_spaces_common t2 ->
  (forall c, In c (nonspace t1) <-> In c (nonspace t2)) ->
  detect_script t1 = detect_script t2.
Proof.
  intros H1 H2 Hsame. rewrite !detect_script_first_match. unfold first_match.
  assert (Hk : forall k, category_matches k (strip t1)
                         = category_matches k (strip t2)).
  { intros k. rewrite !category_matches_nonspace by assumption.
    now apply category_matches_same_characters. }
  simpl. now rewrite !Hk.
Qed.
End ClassifierCharacters.

(** X3.  On texts whose inner whitespace is Common in the Script table
    (all whitespace is, but U+1680), the class of a text depends only on
    which characters other than whitespace occur in it: not on their
    order, on how often they occur or on the whitespace around and
    between them. *)
Theorem detect_script_same_characters `{Unicode} (t1 t2 : pystr) :
  inner_spaces_common t1 -> inner_spaces_common t2 ->
  (forall c, In c (nonspace t1) <-> In c (nonspace t2)) ->
  detect_script t1 = detect_script t2.
Proof. apply detect_script_by_characters. Qed.

Lemma detect_script_same_characters_witness :
  @inner_spaces_common fragment (of_string " ab, a ")
  /\ @inner_spaces_common fragment (of_string "b,a")
  /\ (forall c, In c (nonspace (of_string " ab, a ")) <->
                In c (nonspace (of_string "b,a")))
  /\ @detect_script fragment (of_string " ab, a ")
     = @detect_script fragment (of_string "b,a").
Proof.
  assert (H1 : @inner_spaces_common fragment (of_string " ab, a ")).
  { intros c Hin Hc. vm_compute in Hin.
    repeat (destruct Hin as [<- | Hin];
            [first [discriminate Hc | reflexivity]|]).
    contradiction. }
  assert (H2 : @inner_spaces_common fragment (of_string "b,a")).
  { intros c Hin Hc. vm_compute in Hin.
    repeat (destruct Hin as [<- | Hin];
            [first [discriminate Hc | reflexivity]|]).
    contradiction. }
  assert (Hs : forall c, In c (nonspace (of_string " ab, a ")) <->
                         In c (nonspace (of_string "b,a"))).
  { intros c. vm_compute. tauto. }
  split; [exact H1|]. split; [exact H2|]. split; [exact Hs|].
  exact (@detect_script_same_characters fragment _ _ H1 H2 Hs).
Defined.

(** The whitespace that is not Common counts: an Ogham space between two
    Latin letters leaves the text undetermined, though its characters
    other than whitespace are those of a Latin text. *)
Lemma ogham_space_inside :
  (forall c, In c (nonspace ogham_between) <-> In c (nonspace (of_string "ab")))
  /\ @detect_script fragment ogham_between = None
  /\ @detect_script fragment (of_string "ab") = Some LatinCyrillic.
Proof.
  split; [intros c; vm_compute; tauto|]. split; vm_compute; reflexivity.
Qed.

(** ** From the subtitle file back to its first line *)

Lemma uint_codes_digits d :
  Forall (fun c => (48 <= c <= 57)%N) (uint_codes d).
Proof. induction d; simpl; constructor; auto; lia. Qed.

Lemma no_break_app a b : no_break a -> no_break b -> no_break (a ++ b).
Proof. intros Ha Hb. now apply Forall_app. Qed.

Lemma no_break_digits n : no_break (digits n).
Proof.
  unfold no_break, digits. eapply Forall_impl; [|apply uint_codes_digits].
  unfold newline. cbv beta. intros c Hc. split; lia.
Qed.

Lemma no_break_str_int z : no_break (str_int z).
Proof.
  unfold str_int. apply no_break_app; [|apply no_break_digits].
  destruct (z <? 0)%Z; repeat constructor; discriminate.
Qed.

Lemma no_break_format_zero w z : no_break (format_zero w z).
Proof.
  unfold format_zero. repeat apply no_break_app.
  - destruct (z <? 0)%Z; repeat constructor; discriminate.
  - apply Forall_forall. intros c Hc%repeat_spec. subst.
    split; discriminate.
  - apply no_break_digits.
Qed.

Lemma no_break_convert_time time code :
  convert_time_to_srt_format time = Ok code -> no_break code.
Proof.
  unfold convert_time_to_srt_format.
  destruct (py_round _) as [total| |]; cbn [bind]; try discriminate.
  destruct (Z.div_eucl total 1000) as [seconds milliseconds].
  destruct (Z.div_eucl seconds 60) as [minutes seconds'].
  destruct (Z.div_eucl minutes 60) as [hours minutes'].
  intros [= <-]. unfold srt_code.
  assert (Hc : forall c, c <> newline -> c <> 13%N -> no_break [c])
    by (intros c H1 H2; repeat constructor; assumption).
  apply no_break_app; [apply no_break_format_zero|].
  apply no_break_app; [apply Hc; discriminate|].
  apply no_break_app; [apply no_break_format_zero|].
  apply no_break_app; [apply Hc; discriminate|].
  apply no_break_app; [apply no_break_format_zero|].
  apply no_break_app; [apply Hc; discriminate|].
  apply no_break_format_zero.
Qed.

(** After munging the only whitespace of [textwrap] left is the space. *)
Lemma translate_whitespace_clean s x :
  In x (translate_whitespace s) -> tw_space x = true -> x = space.
Proof.
  unfold translate_whitespace. intros (c & Hx & _)%in_map_iff Ht.
  destruct (tw_space c) eqn:Hc; [now subst|]. subst. congruence.
Qed.

(** What a successful [wrap] returns. *)
Lemma wrap_ok `{Unicode} text width lines :
  wrap text width = Ok lines ->
  Forall (fun l => length l <= Z.to_nat width) lines
  /\ nonspace (concat lines) = nonspace text
  /\ Forall no_break lines.
Proof.
  unfold wrap, _wrap_chunks. destruct (Z.leb_spec width 0); [discriminate|].
  destruct (@wrap_loop_keeps (Z.to_nat width) ltac:(lia)
              (wrap_measure (_split_chunks text)) (_split_chunks text) []
              (le_n _)) as (out & -> & Hfit & Hn & Hi).
  cbn [app]. intros [= <-]. split; [exact Hfit|]. split.
  - rewrite Hn. unfold _split_chunks. rewrite split_concat.
    apply nonspace_munge.
  - apply Forall_forall. intros l Hl. apply Forall_forall. intros c Hc.
    assert (Hin : In c (_munge_whitespace text)).
    { unfold _split_chunks in Hi. rewrite split_concat in Hi.
      apply Hi. apply in_concat. now exists l. }
    split; intros ->;
      now pose proof (@translate_whitespace_clean _ _ Hin eq_refl).
Qed.

(** The characters of the lines are characters of the text, or spaces. *)
Lemma wrap_chars `{Unicode} text width lines l c :
  wrap text width = Ok lines -> In l lines -> In c l ->
  c = space \/ In c text.
Proof.
  unfold wrap, _wrap_chunks. destruct (Z.leb_spec width 0); [discriminate|].
  destruct (@wrap_loop_keeps (Z.to_nat width) ltac:(lia)
              (wrap_measure (_split_chunks text)) (_split_chunks text) []
              (le_n _)) as (out & -> & _ & _ & Hi).
  cbn [app]. intros [= <-] Hl Hc.
  unfold _split_chunks in Hi. rewrite split_concat in Hi.
  apply (munge_chars text 0). apply Hi. apply in_concat. now exists l.
Qed.

Lemma universal_newlines_app a r :
  no_break a -> universal_newlines (a ++ r) = a ++ universal_newlines r.
Proof.
  induction 1 as [|c a [_ Hc] Ha IH]; [reflexivity|].
  cbn [app universal_newlines].
  destruct (N.eqb_spec c 13); [congruence|]. now rewrite IH.
Qed.

Lemma lines_from_line a r : forall cur,
  no_break a ->
  lines_from cur (a ++ newline :: r)
  = (rev cur ++ a ++ [newline]) :: lines_from [] r.
Proof.
  induction a as [|c a IH]; intros cur Ha.
  - cbn [app lines_from]. rewrite N.eqb_refl. reflexivity.
  - inversion Ha as [|? ? [Hc _] Ha']; subst.
    cbn [app lines_from]. destruct (N.eqb_spec c newline); [congruence|].
    rewrite IH by assumption. cbn [rev]. now rewrite <- !app_assoc.
Qed.

(** A text with no break in it, followed by a newline, is the first line
    of the file. *)
Lemma file_lines_cons a r :
  no_break a -> file_lines (a ++ newline :: r) = (a ++ [newline]) :: file_lines r.
Proof.
  intros Ha. unfold file_lines. rewrite universal_newlines_app by assumption.
  change (universal_newlines (newline :: r))
    with (newline :: universal_newlines r).
  now rewrite lines_from_line.
Qed.

Lemma apply_subtitles_third `{Unicode} content l1 l2 text rest :
  file_lines content = l1 :: l2 :: text :: rest ->
  apply_subtitles (Some content) = style_or_raise (detect_script text).
Proof.
  intros Hl. unfold apply_subtitles. rewrite Hl. cbn [firstn nth_error].
  destruct (detect_script text) as [[]|]; reflexivity.
Qed.

Lemma lstrip_snoc_space s c :
  py_isspace c = true ->
  lstrip (s ++ [c]) = lstrip s ++ [c]
  \/ (lstrip s = [] /\ lstrip (s ++ [c]) = []).
Proof.
  intros Hc. induction s as [|a s IH].
  - right. simpl. now rewrite Hc.
  - simpl. destruct (py_isspace a); [exact IH | now left].
Qed.

(** Whitespace behind a text does not count. *)
Lemma strip_snoc_space s c :
  py_isspace c = true -> strip (s ++ [c]) = strip s.
Proof.
  intros Hc. unfold strip.
  assert (Hr : forall x, rstrip (x ++ [c]) = rstrip x).
  { intros x. unfold rstrip. rewrite rev_app_distr. simpl. now rewrite Hc. }
  destruct (lstrip_snoc_space s c Hc) as [-> | [-> ->]]; auto.
Qed.

Lemma detect_script_snoc_space `{Unicode} s c :
  py_isspace c = true -> detect_script (s ++ [c]) = detect_script s.
Proof.
  intros Hc. unfold detect_script. now rewrite strip_snoc_space.
Qed.

Section Pipeline.
Context `{U : Unicode}.
Variable translate_text : pystr -> pystr -> result pystr.
Variable set_language : option pystr.

(** A successful run wrote the entry of the first segment first, at the
    width of the class of its text. *)
Lemma generate_srt_first_entry first rest file content :
  generate_srt translate_text set_language (first :: rest) file
  = (Ok tt, Some content) ->
  exists sample k start end_ formatted more,
    shown_text translate_text set_language (seg_text first) = Ok sample
    /\ detect_script sample = Some k
    /\ convert_time_to_srt_format (seg_start first) = Ok start
    /\ convert_time_to_srt_format (seg_end first) = Ok end_
    /\ fill (strip sample) (spec_width k) = Ok formatted
    /\ content = entry (seg_id first + 1) start end_ formatted ++ more.
Proof.
  unfold generate_srt.
  destruct (shown_text translate_text set_language (seg_text first))
    as [sample| |] eqn:Hs; cbn [bind]; try discriminate.
  rewrite choose_width_table.
  destruct (detect_script sample) as [k|] eqn:Hk; [|discriminate].
  cbn [write_segments].
  destruct (write_segment translate_text set_language (spec_width k) first [])
    as [f1| |] eqn:Hw; try discriminate.
  destruct (write_segments _ _ _ rest f1) as [r f] eqn:Hrest.
  intros [= -> <-].
  apply write_segment_entry in Hw
    as (e & (start & end_ & text & formatted & H1 & H2 & H3 & H4 & ->) & ->).
  apply write_segments_entries in Hrest as (n & entries & -> & _ & _).
  rewrite Hs in H3. injection H3 as <-.
  exists sample, k, start, end_, formatted, (concat entries).
  repeat split; auto.
Qed.

(** The third line of the file of a successful run is the first line the
    wrapping made of the text of the first segment. *)
Lemma generate_srt_third_line first rest file content :
  generate_srt translate_text set_language (first :: rest) file
  = (Ok tt, Some content) ->
  exists sample k l0 ls l1 l2 more,
    shown_text translate_text set_language (seg_text first) = Ok sample
    /\ detect_script sample = Some k
    /\ wrap (strip sample) (spec_width k) = Ok (l0 :: ls)
    /\ file_lines content = l1 :: l2 :: (l0 ++ [newline]) :: more.
Proof.
  intros Hrun.
  destruct (generate_srt_first_entry _ _ _ Hrun)
    as (sample & k & start & end_ & formatted & more
        & Hs & Hk & H1 & H2 & Hf & ->).
  unfold fill in Hf.
  destruct (wrap (strip sample) (spec_width k)) as [lines| |] eqn:Hw;
    cbn [bind] in Hf; try discriminate.
  injection Hf as <-.
  destruct (wrap_ok _ _ Hw) as (_ & Hn & Hnb).
  (* the text has a character, so there is a line *)
  destruct lines as [|l0 ls].
  { exfalso. simpl in Hn.
    assert (He : strip sample <> []).
    { intros He. unfold detect_script in Hk. rewrite He in Hk.
      discriminate. }
    destruct (forallb py_isspace sample) eqn:Hall.
    - now apply strip_nil_iff in Hall.
    - assert (Hex : exists c, In c sample /\ py_isspace c = false).
      { clear -Hall. induction sample as [|x s IH]; [discriminate|].
        simpl in Hall. destruct (py_isspace x) eqn:Hx.
        - destruct (IH Hall) as (c & Hin & Hc). exists c.
          split; [now right | exact Hc].
        - exists x. split; [now left | exact Hx]. }
      destruct Hex as (c & Hin & Hc).
      assert (Hin' : In c (nonspace (strip sample))).
      { apply filter_In. split; [now apply strip_keeps|]. now rewrite Hc. }
      rewrite <- Hn in Hin'. exact Hin'. }
  inversion Hnb as [|? ? Hl0 _]; subst.
  assert (Hlines : exists l1 l2 more',
             file_lines (entry (seg_id first + 1) start end_
                           (join [newline] (l0 :: ls)) ++ more)
             = l1 :: l2 :: (l0 ++ [newline]) :: more').
  { clear Hrun. unfold entry.
    assert (Hjoin : exists tail,
               join [newline] (l0 :: ls) ++ [newline; newline]
               = l0 ++ newline :: tail).
    { destruct ls as [|l' ls'].
      - exists [newline]. reflexivity.
      - eexists. change (join [newline] (l0 :: l' :: ls'))
          with (l0 ++ [newline] ++ join [newline] (l' :: ls')).
        rewrite <- !app_assoc. reflexivity. }
    destruct Hjoin as [tail Hjoin].
    assert (Harrow : no_break (of_string " --> ")).
    { unfold no_break. apply Forall_forall. intros c Hc. simpl in Hc.
      repeat (destruct Hc as [<- | Hc]; [split; discriminate|]).
      contradiction. }
    revert Harrow. generalize (of_string " --> "). intros arrow Harrow.
    assert (Ha : no_break (start ++ arrow ++ end_)).
    { repeat apply no_break_app; eauto using no_break_convert_time. }
    replace ((str_int (seg_id first + 1) ++
              [newline] ++ start ++ arrow ++ end_ ++ [newline] ++
              join [newline] (l0 :: ls) ++ [newline; newline]) ++ more)
      with (str_int (seg_id first + 1) ++ newline ::
            (start ++ arrow ++ end_) ++ newline ::
            l0 ++ newline :: (tail ++ more)).
    2:{ apply (f_equal (fun x => x ++ more)) in Hjoin.
        rewrite <- !app_assoc in Hjoin. cbn [app] in Hjoin.
        rewrite <- !app_assoc. cbn [app]. now rewrite Hjoin. }
    rewrite file_lines_cons by apply no_break_str_int.
    rewrite file_lines_cons by exact Ha.
    rewrite file_lines_cons by exact Hl0.
    now do 3 eexists. }
  destruct Hlines as (l1 & l2 & more' & Hlines).
  exists sample, k, l0, ls, l1, l2, more'. auto.
Qed.
End Pipeline.

Lemma nonspace_strip_iff s c : In c (nonspace (strip s)) <-> In c (nonspace s).
Proof.
  unfold nonspace. rewrite !filter_In. split; intros [Hin Hc]; split; auto.
  - now apply strip_incl.
  - apply strip_keeps; auto. now apply negb_true_iff.
Qed.

(** *** The writes of an entry *)

Lemma encodable_app a b : encodable (a ++ b) = encodable a && encodable b.
Proof. apply forallb_app. Qed.

(** A string of ASCII characters is encoded. *)
Lemma encodable_low s :
  Forall (fun c => (c < 128)%N) s -> encodable s = true.
Proof.
  intros Hs. apply forallb_forall. intros c Hc.
  rewrite Forall_forall in Hs. specialize (Hs c Hc).
  unfold surrogate, between. apply negb_true_iff.
  apply andb_false_intro1. apply N.leb_gt. lia.
Qed.

Lemma low_digits n : Forall (fun c => (c < 128)%N) (digits n).
Proof.
  unfold digits. eapply Forall_impl; [|apply uint_codes_digits].
  cbv beta. intros c Hc. lia.
Qed.

Lemma low_str_int z : Forall (fun c => (c < 128)%N) (str_int z).
Proof.
  unfold str_int. apply Forall_app. split; [|apply low_digits].
  destruct (z <? 0)%Z; repeat constructor; reflexivity.
Qed.

Lemma low_format_zero w z : Forall (fun c => (c < 128)%N) (format_zero w z).
Proof.
  unfold format_zero. repeat (apply Forall_app; split).
  - destruct (z <? 0)%Z; repeat constructor; reflexivity.
  - apply Forall_forall. intros c Hc%repeat_spec. subst. reflexivity.
  - apply low_digits.
Qed.

Lemma low_convert_time time code :
  convert_time_to_srt_format time = Ok code ->
  Forall (fun c => (c < 128)%N) code.
Proof.
  unfold convert_time_to_srt_format.
  destruct (py_round _) as [total| |]; cbn [bind]; try discriminate.
  destruct (Z.div_eucl total 1000) as [seconds milliseconds].
  destruct (Z.div_eucl seconds 60) as [minutes seconds'].
  destruct (Z.div_eucl minutes 60) as [hours minutes'].
  intros [= <-]. unfold srt_code.
  assert (Hc : forall c, (c < 128)%N -> Forall (fun c => (c < 128)%N) [c])
    by (intros c Hc; repeat constructor; assumption).
  apply Forall_app; split; [apply low_format_zero|].
  apply Forall_app; split; [apply Hc; reflexivity|].
  apply Forall_app; split; [apply low_format_zero|].
  apply Forall_app; split; [apply Hc; reflexivity|].
  apply Forall_app; split; [apply low_format_zero|].
  apply Forall_app; split; [apply Hc; reflexivity|].
  apply low_format_zero.
Qed.

Section WritesFacts.
Context `{U : Unicode}.
Variable translate_text : pystr -> pystr -> result pystr.
Variable set_language : option pystr.

(** The index line and the time line are always encoded: of the three
    writes of an entry only the third can raise, and it does when the
    wrapped text holds a surrogate.  Without one the turn is the turn of
    [write_segment]. *)
Lemma write_segment_utf8_cases width segment f :
  (exists e,
      write_segment translate_text set_language width segment f = Raise e
      /\ write_segment_utf8 translate_text set_language width segment f
         = (Throw (Builtin e), f))
  \/ (write_segment translate_text set_language width segment f = Loops
      /\ write_segment_utf8 translate_text set_language width segment f
         = (Diverges, f))
  \/ exists start end_ text formatted_text,
      convert_time_to_srt_format (seg_start segment) = Ok start
      /\ convert_time_to_srt_format (seg_end segment) = Ok end_
      /\ shown_text translate_text set_language (seg_text segment) = Ok text
      /\ fill (strip text) width = Ok formatted_text
      /\ write_segment translate_text set_language width segment f
         = Ok (f ++ entry (seg_id segment + 1) start end_ formatted_text)
      /\ ((encodable formatted_text = true
           /\ write_segment_utf8 translate_text set_language width segment f
              = (Return tt,
                 f ++ entry (seg_id segment + 1) start end_ formatted_text))
          \/ (encodable formatted_text = false
              /\ write_segment_utf8 translate_text set_language width
                   segment f
                 = (Throw UnicodeEncodeError,
                    f ++ torn_entry (seg_id segment + 1) start end_))).
Proof.
  unfold write_segment, write_segment_utf8, entry, torn_entry.
  assert (Harrow : Forall (fun c => (c < 128)%N) (of_string " --> "))
    by (repeat constructor).
  revert Harrow. generalize (of_string " --> "). intros arrow Harrow.
  destruct (convert_time_to_srt_format (seg_start segment))
    as [start| |] eqn:H1; cbn [bind computed]; [|left; eauto|right; left; auto].
  destruct (convert_time_to_srt_format (seg_end segment))
    as [end_| |] eqn:H2; cbn [bind computed]; [|left; eauto|right; left; auto].
  destruct (shown_text translate_text set_language (seg_text segment))
    as [text| |] eqn:H3; cbn [bind computed]; [|left; eauto|right; left; auto].
  destruct (fill (strip text) width) as [formatted_text| |] eqn:H4;
    cbn [bind computed]; [|left; eauto|right; left; auto].
  right. right. exists start, end_, text, formatted_text.
  do 4 (split; [first [reflexivity | assumption]|]). split.
  { now rewrite <- !app_assoc. }
  assert (Hchain :
            and_then (f_write (str_int (seg_id segment + 1) ++ [newline]) f)
              (fun f0 =>
                 and_then (f_write (start ++ arrow ++ end_ ++ [newline]) f0)
                   (fun f1 => f_write (formatted_text ++ [newline; newline])
                                f1))
            = if encodable formatted_text
              then (Return tt,
                    ((f ++ str_int (seg_id segment + 1) ++ [newline])
                       ++ start ++ arrow ++ end_ ++ [newline])
                      ++ formatted_text ++ [newline; newline])
              else (Throw UnicodeEncodeError,
                    (f ++ str_int (seg_id segment + 1) ++ [newline])
                      ++ start ++ arrow ++ end_ ++ [newline])).
  { unfold f_write.
    rewrite (encodable_low (s := str_int (seg_id segment + 1) ++ [newline])).
    2:{ apply Forall_app. split; [apply low_str_int|].
        repeat constructor; reflexivity. }
    cbn [and_then].
    rewrite (encodable_low (s := start ++ arrow ++ end_ ++ [newline])).
    2:{ repeat (apply Forall_app; split);
          eauto using low_convert_time. repeat constructor; reflexivity. }
    cbn [and_then]. rewrite encodable_app.
    replace (encodable [newline; newline]) with true by reflexivity.
    rewrite andb_true_r. reflexivity. }
  rewrite Hchain.
  destruct (encodable formatted_text); [left | right];
    (split; [reflexivity|]); now rewrite <- !app_assoc.
Qed.

(** The file after the loop: the whole entries of the segments handled,
    and behind them the two lines of the next one when its third write
    raised. *)
Lemma write_segments_utf8_entries width segments : forall f r f',
  write_segments_utf8 translate_text set_language width segments f
  = (r, f') ->
  exists n entries torn,
    f' = f ++ concat entries ++ torn
    /\ Forall2 (fun segment e =>
                  entry_of translate_text set_language width segment
                    (seg_id segment + 1)%Z e)
         (firstn n segments) entries
    /\ ((r <> Throw UnicodeEncodeError /\ torn = []
         /\ (r = Return tt -> n = length segments))
        \/ (r = Throw UnicodeEncodeError
            /\ exists segment start end_ text formatted_text,
                nth_error segments n = Some segment
                /\ convert_time_to_srt_format (seg_start segment) = Ok start
                /\ convert_time_to_srt_format (seg_end segment) = Ok end_
                /\ shown_text translate_text set_language (seg_text segment)
                   = Ok text
                /\ fill (strip text) width = Ok formatted_text
                /\ encodable formatted_text = false
                /\ torn = torn_entry (seg_id segment + 1) start end_)).
Proof.
  induction segments as [|segment rest IH]; intros f r f';
    cbn [write_segments_utf8].
  - intros [= <- <-]. exists 0, [], []. cbn. rewrite app_nil_r.
    split; [reflexivity|]. split; [constructor|]. left.
    split; [discriminate | auto].
  - destruct (write_segment_utf8_cases width segment f)
      as [(e & _ & ->) | [[_ ->] |
          (start & end_ & text & formatted & H1 & H2 & H3 & H4 & _
           & [[He ->] | [He ->]])]]; cbn [and_then].
    + intros [= <- <-]. exists 0, [], []. cbn. rewrite app_nil_r.
      split; [reflexivity|]. split; [constructor|]. left.
      split; [discriminate|]. split; [reflexivity | discriminate].
    + intros [= <- <-]. exists 0, [], []. cbn. rewrite app_nil_r.
      split; [reflexivity|]. split; [constructor|]. left.
      split; [discriminate|]. split; [reflexivity | discriminate].
    + intros Hrest.
      apply IH in Hrest as (n & entries & torn & -> & Hall & Halt).
      exists (S n), (entry (seg_id segment + 1) start end_ formatted :: entries),
        torn.
      split; [cbn [concat]; now rewrite <- !app_assoc|]. split.
      * cbn [firstn]. constructor; [|exact Hall].
        exists start, end_, text, formatted. auto.
      * destruct Halt as [(Hne & -> & Hn) | (-> & Hex)].
        -- left. repeat split; auto. intros Hr. cbn [length]. f_equal. auto.
        -- right. split; [reflexivity | exact Hex].
    + intros [= <- <-].
      exists 0, [], (torn_entry (seg_id segment + 1) start end_).
      split; [reflexivity|]. split; [constructor|]. right.
      split; [reflexivity|].
      exists segment, start, end_, text, formatted. repeat split; auto.
Qed.

(** While no write raises, the loop is the loop of [write_segments]. *)
Lemma write_segments_utf8_agree width segments : forall f r f',
  write_segments_utf8 translate_text set_language width segments f
  = (r, f') ->
  r <> Throw UnicodeEncodeError ->
  exists r',
    write_segments translate_text set_language width segments f = (r', f')
    /\ of_result r' = r.
Proof.
  induction segments as [|segment rest IH]; intros f r f';
    cbn [write_segments_utf8 write_segments].
  - intros [= <- <-] _. exists (Ok tt). auto.
  - destruct (write_segment_utf8_cases width segment f)
      as [(e & -> & ->) | [[-> ->] |
          (start & end_ & text & formatted & _ & _ & _ & _ & ->
           & [[_ ->] | [_ ->]])]]; cbn [and_then].
    + intros [= <- <-] _. exists (Raise e). auto.
    + intros [= <- <-] _. exists Loops. auto.
    + apply IH.
    + intros [= <- <-] Hne. congruence.
Qed.
End WritesFacts.

(** X4.  [generate_srt] leaves a torn entry in the subtitle file only
    when a write raises.  An exception of the time conversion, of the
    translation or of the wrapping comes before the first write of its
    entry: the call failed before opening the file, which is then as it
    was, or the file holds the whole entries of the segments before, and
    of all segments when the call returns.  The encoder of the file raises
    in the third write of an entry whose wrapped text holds a surrogate:
    the file then ends with the index line and the time line of that
    entry.  (Errors of the file system and interrupts during a write are
    outside the model.) *)
Theorem generate_srt_torn_by_encoder `{Unicode}
  (translate_text : pystr -> pystr -> result pystr)
  (set_language : option pystr) (segments : list Segment)
  (file : option pystr) :
  (fst (generate_srt_utf8 translate_text set_language segments file)
   <> Return tt
   /\ snd (generate_srt_utf8 translate_text set_language segments file)
      = file)
  \/ exists width n entries torn,
      snd (generate_srt_utf8 translate_text set_language segments file)
      = Some (concat entries ++ torn)
      /\ Forall2 (fun segment e =>
                    entry_of translate_text set_language width segment
                      (seg_id segment + 1)%Z e)
           (firstn n segments) entries
      /\ ((fst (generate_srt_utf8 translate_text set_language segments file)
           <> Throw UnicodeEncodeError
           /\ torn = []
           /\ (fst (generate_srt_utf8 translate_text set_language segments
                      file) = Return tt -> n = length segments))
          \/ (fst (generate_srt_utf8 translate_text set_language segments
                     file) = Throw UnicodeEncodeError
              /\ exists segment start end_ text formatted_text,
                  nth_error segments n = Some segment
                  /\ convert_time_to_srt_format (seg_start segment)
                     = Ok start
                  /\ convert_time_to_srt_format (seg_end segment) = Ok end_
                  /\ shown_text translate_text set_language
                       (seg_text segment) = Ok text
                  /\ fill (strip text) width = Ok formatted_text
                  /\ encodable formatted_text = false
                  /\ torn = torn_entry (seg_id segment + 1) start end_)).
Proof.
  unfold generate_srt_utf8. destruct segments as [|first rest].
  - left. split; [discriminate | reflexivity].
  - destruct (bind _ _) as [width| |].
    + right.
      destruct (write_segments_utf8 translate_text set_language width
                  (first :: rest) []) as [r f] eqn:Hw.
      apply write_segments_utf8_entries in Hw
        as (n & entries & torn & -> & Hall & Halt).
      exists width, n, entries, torn. cbn [fst snd app]. auto.
    + left. split; [discriminate | reflexivity].
    + left. split; [discriminate | reflexivity].
Qed.

(** While no write raises, the call is the call of [generate_srt]. *)
Lemma generate_srt_utf8_agree `{Unicode}
  (translate_text : pystr -> pystr -> result pystr)
  (set_language : option pystr) (segments : list Segment)
  (file : option pystr) :
  fst (generate_srt_utf8 translate_text set_language segments file)
  <> Throw UnicodeEncodeError ->
  generate_srt_utf8 translate_text set_language segments file
  = (of_result (fst (generate_srt translate_text set_language segments file)),
     snd (generate_srt translate_text set_language segments file)).
Proof.
  unfold generate_srt_utf8, generate_srt. destruct segments as [|first rest].
  - reflexivity.
  - destruct (bind _ _) as [width| |]; try reflexivity.
    destruct (write_segments_utf8 translate_text set_language width
                (first :: rest) []) as [r f] eqn:Hw.
    cbn [fst]. intros Hne.
    destruct (write_segments_utf8_agree _ _ _ _ _ Hw Hne) as (r' & -> & <-).
    reflexivity.
Qed.

(** Two segments, the text of the second with a lone surrogate: the
    file ends with the index line and the time line of the second. *)
Lemma surrogate_tears_entry :
  @generate_srt_utf8 fragment no_translation None
    [hello_segment; surrogate_segment] None
  = (Throw UnicodeEncodeError,
     Some (hello_srt
           ++ torn_entry 2 (of_string "00:00:04,000")
                (of_string "00:00:05,000"))).
Proof. vm_compute. reflexivity. Qed.

(** X5.  On the file of a successful [generate_srt], [apply_subtitles]
    picks the style from the first line the wrapping made of the first
    segment's text, not from the whole text that chose the width; it
    raises when that line alone has no determined script. *)
Theorem apply_subtitles_reads_first_line `{Unicode}
  (translate_text : pystr -> pystr -> result pystr)
  (set_language : option pystr) (first : Segment) (rest : list Segment)
  (file : option pystr) (content : pystr) :
  generate_srt translate_text set_language (first :: rest) file
  = (Ok tt, Some content) ->
  exists sample k l0 ls,
    shown_text translate_text set_language (seg_text first) = Ok sample
    /\ detect_script sample = Some k
    /\ wrap (strip sample) (spec_width k) = Ok (l0 :: ls)
    /\ apply_subtitles (Some content)
       = match detect_script l0 with
         | Some k' => Ok (style_for k')
         | None => Raise ValueError
         end.
Proof.
  intros Hrun.
  destruct (generate_srt_third_line _ _ _ _ _ Hrun)
    as (sample & k & l0 & ls & l1 & l2 & more & Hs & Hk & Hw & Hl).
  exists sample, k, l0, ls. repeat split; auto.
  rewrite (apply_subtitles_third _ Hl).
  now rewrite detect_script_snoc_space by reflexivity.
Qed.

(** The run on twenty-two numbers and a word: the width is chosen for
    Latin text, the first line holds numbers only. *)
Lemma apply_subtitles_reads_first_line_witness :
  @generate_srt fragment no_translation None [numbers_segment] None
  = (Ok tt, Some numbers_srt)
  /\ exists sample k l0 ls,
      shown_text no_translation None (seg_text numbers_segment) = Ok sample
      /\ @detect_script fragment sample = Some k
      /\ @wrap fragment (strip sample) (spec_width k) = Ok (l0 :: ls)
      /\ @apply_subtitles fragment (Some numbers_srt)
         = match @detect_script fragment l0 with
           | Some k' => Ok (style_for k')
           | None => Raise ValueError
           end.
Proof.
  assert (Hrun : @generate_srt fragment no_translation None
                   [numbers_segment] None = (Ok tt, Some numbers_srt))
    by (vm_compute; reflexivity).
  split; [exact Hrun|].
  exact (@apply_subtitles_reads_first_line fragment no_translation None
           numbers_segment [] None numbers_srt Hrun).
Defined.

(** On that run [generate_srt] accepts the text as Latin and
    [apply_subtitles] then raises. *)
Lemma numbers_run_raises :
  @detect_script fragment numbers_then_word = Some LatinCyrillic
  /\ @generate_srt fragment no_translation None [numbers_segment] None
     = (Ok tt, Some numbers_srt)
  /\ @apply_subtitles fragment (Some numbers_srt) = Raise ValueError.
Proof. repeat split; vm_compute; reflexivity. Qed.

(** X6.  When the text of the first segment is wrapped on one line,
    [apply_subtitles] does not raise on the file of a successful
    [generate_srt]: it picks the style of the very class that chose the
    width (no whitespace character being strictly of a category, as in
    the Script table). *)
Theorem one_line_same_style `{Unicode}
  (translate_text : pystr -> pystr -> result pystr)
  (set_language : option pystr) (first : Segment) (rest : list Segment)
  (file : option pystr) (content sample l0 : pystr) (k : Category) :
  strict_not_whitespace ->
  generate_srt translate_text set_language (first :: rest) file
  = (Ok tt, Some content) ->
  shown_text translate_text set_language (seg_text first) = Ok sample ->
  detect_script sample = Some k ->
  wrap (strip sample) (spec_width k) = Ok [l0] ->
  apply_subtitles (Some content) = Ok (style_for k).
Proof.
  intros Hsp Hrun Hs Hk Hw.
  destruct (generate_srt_third_line _ _ _ _ _ Hrun)
    as (sample' & k' & l0' & ls & l1 & l2 & more & Hs' & Hk' & Hw' & Hl).
  rewrite Hs in Hs'. injection Hs' as <-.
  rewrite Hk in Hk'. injection Hk' as <-.
  rewrite Hw in Hw'. injection Hw' as <- <-.
  rewrite (apply_subtitles_third _ Hl).
  rewrite detect_script_snoc_space by reflexivity.
  destruct (wrap_ok _ _ Hw) as (_ & Hn & _).
  simpl in Hn. rewrite app_nil_r in Hn.
  (* the line holds the characters of the text, and its strict one *)
  assert (Hl0 : detect_script l0 = Some k).
  { apply detect_script_some. apply detect_script_some in Hk.
    unfold category_matches in *. fold (allowed_scripts k) in *.
    apply andb_prop in Hk as [Hall Hex]. apply andb_true_intro. split.
    - rewrite forallb_forall in *. intros c Hc%strip_incl.
      destruct (@wrap_chars _ _ _ _ l0 c Hw (or_introl eq_refl) Hc)
        as [-> | Hin]; [now apply common_allowed | now apply Hall].
    - apply existsb_exists in Hex as (c & Hin & Hc).
      apply existsb_exists. exists c. split; [|exact Hc].
      pose proof (Hsp k c Hc) as Hns.
      apply strip_keeps; [|exact Hns].
      assert (Hin' : In c (nonspace (strip sample)))
        by (apply filter_In; split; [exact Hin | now rewrite Hns]).
      rewrite <- Hn in Hin'. now apply filter_In in Hin' as [Hin' _]. }
  now rewrite Hl0.
Qed.

Lemma one_line_same_style_witness :
  @generate_srt fragment no_translation None [hello_segment] None
  = (Ok tt, Some hello_srt)
  /\ @wrap fragment (strip (seg_text hello_segment)) (spec_width LatinCyrillic)
     = Ok [of_string "Hello world"]
  /\ @apply_subtitles fragment (Some hello_srt)
     = Ok (style_for LatinCyrillic).
Proof.
  assert (Hrun : @generate_srt fragment no_translation None [hello_segment]
                   None = (Ok tt, Some hello_srt))
    by (vm_compute; reflexivity).
  assert (Hw : @wrap fragment (strip (seg_text hello_segment))
                 (spec_width LatinCyrillic) = Ok [of_string "Hello world"])
    by (vm_compute; reflexivity).
  split; [exact Hrun|]. split; [exact Hw|].
  apply (@one_line_same_style fragment no_translation None hello_segment []
           None hello_srt (seg_text hello_segment) (of_string "Hello world")
           LatinCyrillic fragment_strict_not_whitespace Hrun eq_refl);
    [vm_compute; reflexivity | exact Hw].
Defined.

(** ** The shape of a timestamp *)

Open Scope Z_scope.

Lemma forallb_below (p : Z -> bool) (n : Z) :
  forallb p (map Z.of_nat (seq 0 (Z.to_nat n))) = true ->
  forall z, 0 <= z < n -> p z = true.
Proof.
  intros Hall z Hz. rewrite forallb_forall in Hall. apply Hall.
  apply in_map_iff. exists (Z.to_nat z). split; [lia|].
  apply in_seq. lia.
Qed.

(** A field of two digits and a field of three read back as written. *)
Lemma format_zero_2 z :
  0 <= z < 100 ->
  exists a b, format_zero 2 z = [a; b] /\ parse_digits 0 [a; b] = Some z.
Proof.
  intros Hz.
  assert (Hall : forallb (fun z => match format_zero 2 z with
                                   | [a; b] =>
                                       match parse_digits 0 [a; b] with
                                       | Some v => v =? z
                                       | None => false
                                       end
                                   | _ => false
                                   end)
                   (map Z.of_nat (seq 0 (Z.to_nat 100))) = true)
    by (vm_compute; reflexivity).
  pose proof (@forallb_below _ _ Hall z Hz) as Hp. cbv beta in Hp.
  destruct (format_zero 2 z) as [|a [|b [|? ?]]]; try discriminate.
  exists a, b. split; [reflexivity|].
  destruct (parse_digits 0 [a; b]); [|discriminate].
  apply Z.eqb_eq in Hp. now subst.
Qed.

Lemma format_zero_3 z :
  0 <= z < 1000 ->
  exists a b c,
    format_zero 3 z = [a; b; c] /\ parse_digits 0 [a; b; c] = Some z.
Proof.
  intros Hz.
  assert (Hall : forallb (fun z => match format_zero 3 z with
                                   | [a; b; c] =>
                                       match parse_digits 0 [a; b; c] with
                                       | Some v => v =? z
                                       | None => false
                                       end
                                   | _ => false
                                   end)
                   (map Z.of_nat (seq 0 (Z.to_nat 1000))) = true)
    by (vm_compute; reflexivity).
  pose proof (@forallb_below _ _ Hall z Hz) as Hp. cbv beta in Hp.
  destruct (format_zero 3 z) as [|a [|b [|c [|? ?]]]]; try discriminate.
  exists a, b, c. split; [reflexivity|].
  destruct (parse_digits 0 [a; b; c]); [|discriminate].
  apply Z.eqb_eq in Hp. now subst.
Qed.

(** X7.  For a time whose rounded milliseconds lie from zero to under a
    hundred hours, the timestamp has the fixed shape HH:MM:SS,mmm of
    twelve characters, and reading it back gives the rounded
    milliseconds. *)
Theorem convert_time_round_trip (time : pyfloat) (total : Z) :
  py_round (float_mul time (float_of_int 1000)) = Ok total ->
  0 <= total < 360000000 ->
  exists code,
    convert_time_to_srt_format time = Ok code
    /\ length code = 12%nat
    /\ parse_srt_code code = Some total.
Proof.
  intros Hr Ht. rewrite (convert_time_fields _ Hr).
  eexists. split; [reflexivity|].
  set (h := total / 3600000). set (m := total / 60000 mod 60).
  set (s := total / 1000 mod 60). set (k := total mod 1000).
  assert (Hh : 0 <= h < 100).
  { unfold h. split; [apply Z.div_pos; lia|].
    apply Z.div_lt_upper_bound; lia. }
  assert (Hm : 0 <= m < 60) by (apply Z.mod_pos_bound; lia).
  assert (Hs : 0 <= s < 60) by (apply Z.mod_pos_bound; lia).
  assert (Hk : 0 <= k < 1000) by (apply Z.mod_pos_bound; lia).
  assert (Hsum : ((h * 60 + m) * 60 + s) * 1000 + k = total).
  { unfold h, m, s, k.
    pose proof (Z.div_mod total 1000 ltac:(lia)).
    pose proof (Z.div_mod (total / 1000) 60 ltac:(lia)).
    pose proof (Z.div_mod (total / 1000 / 60) 60 ltac:(lia)).
    rewrite !Z.div_div in * by lia.
    change (1000 * 60) with 60000 in *.
    change (60000 * 60) with 3600000 in *. lia. }
  destruct (@format_zero_2 h ltac:(lia)) as (h1 & h0 & Eh & Ph).
  destruct (@format_zero_2 m ltac:(lia)) as (m1 & m0 & Em & Pm).
  destruct (@format_zero_2 s ltac:(lia)) as (s1 & s0 & Es & Ps).
  destruct (@format_zero_3 k Hk) as (k2 & k1 & k0 & Ek & Pk).
  unfold srt_code. rewrite Eh, Em, Es, Ek. cbn [app].
  split; [reflexivity|].
  unfold parse_srt_code. cbn [N.eqb Pos.eqb andb].
  rewrite Ph, Pm, Ps, Pk.
  destruct (Z.ltb_spec m 60); [|lia]. destruct (Z.ltb_spec s 60); [|lia].
  cbn [andb]. now rewrite Hsum.
Qed.

Lemma convert_time_round_trip_witness :
  py_round (float_mul float_3599_9995 (float_of_int 1000)) = Ok 3600000
  /\ exists code,
      convert_time_to_srt_format float_3599_9995 = Ok code
      /\ length code = 12%nat
      /\ parse_srt_code code = Some 3600000.
Proof.
  assert (Hr : py_round (float_mul float_3599_9995 (float_of_int 1000))
               = Ok 3600000) by (vm_compute; reflexivity).
  split; [exact Hr|].
  apply (convert_time_round_trip float_3599_9995 Hr). lia.
Defined.

(** X8.  A time whose rounded milliseconds are negative, down to one hour
    before zero, gets the hour -1 and the minutes, seconds and
    milliseconds of the time one hour later: the floor division counts
    the fields up from the hour before. *)
Theorem convert_time_before_zero (time : pyfloat) (total : Z) :
  py_round (float_mul time (float_of_int 1000)) = Ok total ->
  - 3600000 <= total < 0 ->
  convert_time_to_srt_format time
  = Ok (of_string "-1:"
        ++ format_zero 2 ((total + 3600000) / 60000) ++ of_string ":"
        ++ format_zero 2 ((total + 3600000) / 1000 mod 60) ++ of_string ","
        ++ format_zero 3 ((total + 3600000) mod 1000)).
Proof.
  intros Hr Ht. rewrite (convert_time_fields _ Hr). unfold srt_code.
  assert (Hh : total / 3600000 = -1).
  { symmetry. apply (Z.div_unique total 3600000 (-1) (total + 3600000)); lia. }
  assert (Hm : total / 60000 mod 60 = (total + 3600000) / 60000).
  { replace (total + 3600000) with (total + 60 * 60000) by lia.
    rewrite Z.div_add by lia.
    rewrite <- (Z.mod_add (total / 60000) 1 60) by lia.
    apply Z.mod_small.
    pose proof (Z.div_le_lower_bound total 60000 (-60) ltac:(lia) ltac:(lia)).
    pose proof (Z.div_lt_upper_bound total 60000 0 ltac:(lia) ltac:(lia)).
    lia. }
  assert (Hs : total / 1000 mod 60 = (total + 3600000) / 1000 mod 60).
  { replace (total + 3600000) with (total + 3600 * 1000) by lia.
    rewrite Z.div_add by lia.
    replace (total / 1000 + 3600) with (total / 1000 + 60 * 60) by lia.
    now rewrite Z.mod_add by lia. }
  assert (Hk : total mod 1000 = (total + 3600000) mod 1000).
  { replace (total + 3600000) with (total + 3600 * 1000) by lia.
    now rewrite Z.mod_add by lia. }
  rewrite Hh, Hm, Hs, Hk. reflexivity.
Qed.

Lemma convert_time_before_zero_witness :
  py_round (float_mul float_minus_0_5 (float_of_int 1000)) = Ok (-500)
  /\ convert_time_to_srt_format float_minus_0_5
     = Ok (of_string "-1:59:59,500").
Proof.
  assert (Hr : py_round (float_mul float_minus_0_5 (float_of_int 1000))
               = Ok (-500)) by (vm_compute; reflexivity).
  split; [exact Hr|].
  rewrite (convert_time_before_zero float_minus_0_5 Hr) by lia.
  vm_compute. reflexivity.
Defined.

Close Scope Z_scope.

(** ** The output path *)

Lemma rfind_from_last c a b : forall i found,
  ~ In c b ->
  rfind_from c i (a ++ c :: b) found = (i + Z.of_nat (length a))%Z.
Proof.
  induction a as [|x a IH]; intros i found Hb.
  - cbn [app rfind_from length]. rewrite N.eqb_refl.
    rewrite rfind_from_absent by assumption. simpl. lia.
  - cbn [app rfind_from length]. rewrite IH by assumption. lia.
Qed.

Lemma rfind_last c a b :
  ~ In c b -> rfind c (a ++ c :: b) = Z.of_nat (length a).
Proof.
  intros Hb. unfold rfind. now rewrite rfind_from_last.
Qed.

Lemma rfind_absent c s : ~ In c s -> rfind c s = (-1)%Z.
Proof.
  intros Hs. unfold rfind. now apply rfind_from_absent.
Qed.

Lemma upto_app a b : upto (Z.of_nat (length a)) (a ++ b) = a.
Proof.
  unfold upto. rewrite Nat2Z.id, firstn_app, Nat.sub_diag, firstn_all.
  simpl. apply app_nil_r.
Qed.

Lemma from_app a b : from (Z.of_nat (length a)) (a ++ b) = b.
Proof.
  unfold from. rewrite Nat2Z.id, skipn_app, Nat.sub_diag, skipn_all.
  reflexivity.
Qed.

Lemma endswith_snoc c d :
  endswith c d = true -> exists d0, d = d0 ++ [c].
Proof.
  unfold endswith, startswith. intros Hd.
  destruct (rev d) as [|x r] eqn:Hr; [discriminate|].
  apply N.eqb_eq in Hd. subst x. exists (rev r).
  rewrite <- (rev_involutive d), Hr. reflexivity.
Qed.

(** The file name of a path is what follows its last slash. *)
Lemma path_split_tail d tail :
  ~ In slash tail -> d = [] \/ endswith slash d = true ->
  snd (path_split (d ++ tail)) = tail.
Proof.
  intros Ht [-> | Hd]; unfold path_split; cbn [snd].
  - cbn [app]. rewrite rfind_absent by assumption. reflexivity.
  - destruct (@endswith_snoc _ _ Hd) as [d0 ->].
    rewrite <- app_assoc. cbn [app]. rewrite rfind_last by assumption.
    replace (Z.of_nat (length d0) + 1)%Z
      with (Z.of_nat (length (d0 ++ [slash])))
      by (rewrite length_app; simpl; lia).
    change (d0 ++ slash :: tail) with (d0 ++ [slash] ++ tail).
    rewrite app_assoc. apply from_app.
Qed.

(** A file name with a character that is no dot before its last dot
    splits there. *)
Lemma path_splitext_mp4 stem :
  ~ In slash stem ->
  existsb (fun c => negb (N.eqb c dot)) stem = true ->
  path_splitext (stem ++ mp4) = (stem, mp4).
Proof.
  intros Hs Hd. unfold path_splitext.
  assert (Hsl : rfind slash (stem ++ mp4) = (-1)%Z).
  { apply rfind_absent. intros [H | H]%in_app_or; [auto|].
    vm_compute in H. repeat destruct H as [H | H]; try discriminate H; auto. }
  assert (Hdot : rfind dot (stem ++ mp4) = Z.of_nat (length stem)).
  { change mp4 with (dot :: of_string "mp4"). apply rfind_last.
    intros H. vm_compute in H.
    repeat destruct H as [H | H]; try discriminate H; auto. }
  rewrite Hsl, Hdot. rewrite upto_app.
  destruct (Z.ltb_spec (-1) (Z.of_nat (length stem))); [|lia].
  change (from (-1 + 1) stem) with stem. rewrite Hd. cbn [andb].
  now rewrite from_app.
Qed.

(** A file name that is dots and the extension has no extension. *)
Lemma path_splitext_dots dots :
  forallb (N.eqb dot) dots = true ->
  path_splitext (dots ++ mp4) = (dots ++ mp4, []).
Proof.
  intros Hd. unfold path_splitext.
  assert (Hdot : rfind dot (dots ++ mp4) = Z.of_nat (length dots)).
  { change mp4 with (dot :: of_string "mp4"). apply rfind_last.
    intros H. vm_compute in H.
    repeat destruct H as [H | H]; try discriminate H; auto. }
  rewrite Hdot, upto_app.
  assert (Hsl : rfind slash (dots ++ mp4) = (-1)%Z).
  { apply rfind_absent. intros [H | H]%in_app_or.
    - rewrite forallb_forall in Hd. apply Hd in H.
      apply N.eqb_eq in H. discriminate H.
    - vm_compute in H.
      repeat destruct H as [H | H]; try discriminate H; auto. }
  rewrite Hsl. change (from (-1 + 1) dots) with dots.
  replace (existsb (fun c => negb (N.eqb c dot)) dots) with false.
  - now rewrite andb_false_r.
  - symmetry. apply not_true_is_false. intros (c & Hc & Hn)%existsb_exists.
    rewrite forallb_forall in Hd. apply Hd in Hc.
    apply N.eqb_eq in Hc. subst c. discriminate Hn.
Qed.

Lemma has_prefix_app p s : has_prefix p (p ++ s) = true.
Proof.
  induction p as [|x p IH]; [reflexivity|].
  cbn [app has_prefix]. now rewrite N.eqb_refl.
Qed.

Lemma str_endswith_app s suffix : str_endswith (s ++ suffix) suffix = true.
Proof.
  unfold str_endswith. rewrite rev_app_distr. apply has_prefix_app.
Qed.

(** What [get_unique_filename] returns is the path or one of the numbered
    paths, and nothing exists at it. *)
Lemma get_unique_filename_result exists_ fuel path p :
  get_unique_filename exists_ fuel path = Ok p ->
  exists_ p = false
  /\ ((p = path)
      \/ (exists_ path = true
          /\ exists n, (1 <= n)%Z /\ p = candidate path n)).
Proof.
  unfold get_unique_filename, candidate.
  destruct (exists_ path) eqn:He; cbn [negb].
  - destruct (path_split path) as [directory filename].
    destruct (path_splitext filename) as [name ext].
    destruct (unique_loop_cases exists_ directory name ext fuel 1)
      as [(j & Hj & Hr & Hf & Hb) | [Hr _]]; rewrite Hr; [|discriminate].
    intros [= <-]. split; [exact Hf|]. right. split; [reflexivity|].
    exists (1 + Z.of_nat j)%Z. split; [lia | reflexivity].
  - intros [= <-]. split; [exact He | now left].
Qed.

(** X9.  When the file name of the requested path has a character that
    is no dot before its extension .mp4, the path [get_unique_filename]
    returns ends with .mp4 as well. *)
Theorem get_unique_filename_keeps_mp4 (exists_ : pystr -> bool)
  (fuel : nat) (d stem p : pystr) :
  d = [] \/ endswith slash d = true ->
  ~ In slash stem ->
  existsb (fun c => negb (N.eqb c dot)) stem = true ->
  get_unique_filename exists_ fuel (d ++ stem ++ mp4) = Ok p ->
  str_endswith p mp4 = true.
Proof.
  intros Hd Hs Hstem Hp.
  destruct (@get_unique_filename_result _ _ _ _ Hp)
    as [_ [-> | (_ & n & _ & ->)]].
  - rewrite app_assoc. apply str_endswith_app.
  - unfold candidate.
    assert (Htail : ~ In slash (stem ++ mp4)).
    { intros [H | H]%in_app_or; [auto|]. vm_compute in H.
      repeat destruct H as [H | H]; try discriminate H; auto. }
    pose proof (@path_split_tail d _ Htail Hd) as Ht.
    destruct (path_split (d ++ stem ++ mp4)) as [directory filename].
    cbn [snd] in Ht. subst filename.
    rewrite (@path_splitext_mp4 _ Hs Hstem).
    destruct (numbered_prefix directory stem mp4) as [prefix ->].
    rewrite !app_assoc. apply str_endswith_app.
Qed.

Lemma get_unique_filename_keeps_mp4_witness :
  get_unique_filename (exists_in [out_mp4; out_1_mp4]) 3 out_mp4
  = Ok out_2_mp4
  /\ str_endswith out_2_mp4 mp4 = true.
Proof.
  assert (Hr : get_unique_filename (exists_in [out_mp4; out_1_mp4]) 3
                 ([] ++ of_string "out" ++ mp4) = Ok out_2_mp4)
    by (vm_compute; reflexivity).
  split; [exact Hr|].
  apply (@get_unique_filename_keeps_mp4
           (exists_in [out_mp4; out_1_mp4]) 3 [] (of_string "out")
           out_2_mp4).
  - now left.
  - vm_compute. intros H.
    repeat destruct H as [H | H]; try discriminate H; auto.
  - vm_compute. reflexivity.
  - exact Hr.
Defined.

(** X10.  When the file name of the requested path is the extension .mp4
    alone, or dots and the extension, and the path exists, the path
    [get_unique_filename] returns does not end with .mp4: the number is
    put behind the extension. *)
Theorem get_unique_filename_dot_file (exists_ : pystr -> bool)
  (fuel : nat) (d dots p : pystr) :
  d = [] \/ endswith slash d = true ->
  forallb (N.eqb dot) dots = true ->
  exists_ (d ++ dots ++ mp4) = true ->
  get_unique_filename exists_ fuel (d ++ dots ++ mp4) = Ok p ->
  str_endswith p mp4 = false
  /\ exists prefix n, (1 <= n)%Z
       /\ p = prefix ++ dots ++ mp4 ++ of_string " (" ++ str_int n
                ++ of_string ")".
Proof.
  intros Hd Hdots He Hp.
  destruct (@get_unique_filename_result _ _ _ _ Hp)
    as [Hfree [-> | (_ & n & Hn & ->)]]; [congruence|].
  unfold candidate.
  assert (Htail : ~ In slash (dots ++ mp4)).
  { intros [H | H]%in_app_or.
    - rewrite forallb_forall in Hdots. apply Hdots in H.
      apply N.eqb_eq in H. discriminate H.
    - vm_compute in H.
      repeat destruct H as [H | H]; try discriminate H; auto. }
  pose proof (@path_split_tail d _ Htail Hd) as Ht.
  destruct (path_split (d ++ dots ++ mp4)) as [directory filename].
  cbn [snd] in Ht. subst filename.
  rewrite (@path_splitext_dots _ Hdots).
  assert (Hshape : exists prefix,
             numbered directory (dots ++ mp4) [] n
             = prefix ++ dots ++ mp4 ++ of_string " (" ++ str_int n
                 ++ of_string ")").
  { unfold numbered, path_join. rewrite app_nil_r.
    assert (Hs : startswith slash
                   ((dots ++ mp4) ++ of_string " (" ++ str_int n
                      ++ of_string ")") = false).
    { destruct dots as [|x dots']; [reflexivity|].
      cbn [forallb] in Hdots. apply andb_prop in Hdots as [Hx _].
      apply N.eqb_eq in Hx. subst x. reflexivity. }
    rewrite Hs.
    destruct (null directory || endswith slash directory).
    - exists directory. now rewrite <- !app_assoc.
    - exists (directory ++ [slash]). now rewrite <- !app_assoc. }
  destruct Hshape as [prefix ->]. split.
  - unfold str_endswith. rewrite !app_assoc, rev_app_distr. reflexivity.
  - exists prefix, n. split; [exact Hn | reflexivity].
Qed.

Lemma get_unique_filename_dot_file_witness :
  get_unique_filename (exists_in [bare_mp4]) 2 bare_mp4
  = Ok (of_string "videos/.mp4 (1)")
  /\ str_endswith (of_string "videos/.mp4 (1)") mp4 = false.
Proof.
  assert (Hr : get_unique_filename (exists_in [bare_mp4]) 2
                 (of_string "videos/" ++ [] ++ mp4)
               = Ok (of_string "videos/.mp4 (1)"))
    by (vm_compute; reflexivity).
  split; [exact Hr|].
  apply (@get_unique_filename_dot_file (exists_in [bare_mp4]) 2
           (of_string "videos/") [] (of_string "videos/.mp4 (1)")).
  - right. vm_compute. reflexivity.
  - reflexivity.
  - vm_compute. reflexivity.
  - exact Hr.
Defined.

(** X11.  When [get_args] accepts the command line and the generator is
    then made from its tuple, on a file system where the input is still
    there, the input path is the one given, nothing exists at the output
    path, so the two differ, and the output path is the one given when
    nothing exists there. *)
Theorem output_is_a_new_file (exists_ exists_later : pystr -> bool)
  (fuel : nat) (prepare : Generator -> result unit) (args : Namespace)
  (tuple : pystr * pystr * option pystr) (language : option pystr)
  (video : Generator) :
  get_args exists_ args = Return tuple ->
  exists_later (ns_input args) = true ->
  SubtitleGenerator exists_later fuel prepare tuple language = Ok video ->
  input_path video = ns_input args
  /\ exists_ (input_path video) = true
  /\ exists_later (output_path video) = false
  /\ output_path video <> input_path video
  /\ (exists_later (ns_output args) = false ->
      output_path video = ns_output args).
Proof.
  unfold get_args. intros Hargs Hstill Hmake.
  destruct (exists_ (ns_input args)) eqn:Hin; cbn [negb] in Hargs;
    [|discriminate].
  destruct (pystr_eqb (ns_input args) (ns_output args)); [discriminate|].
  destruct (negb (str_endswith (ns_input args) mp4)
            || negb (str_endswith (ns_output args) mp4)); [discriminate|].
  assert (Htuple : exists subs,
             tuple = (ns_input args, ns_output args, subs)).
  { destruct (is_set (ns_subs args)); injection Hargs as <-; eauto. }
  destruct Htuple as [subs ->]. unfold SubtitleGenerator in Hmake.
  assert (Hinit : exists model,
             __init__ exists_later fuel prepare (ns_input args)
               (ns_output args) model language = Ok video).
  { destruct subs; eauto. }
  destruct Hinit as [model Hinit]. unfold __init__ in Hinit.
  destruct (get_unique_filename exists_later fuel (ns_output args))
    as [unique | |] eqn:Hu; cbn [bind] in Hinit; try discriminate.
  destruct (negb (existsb (pystr_eqb model) SUBTITLE_MODELS));
    [discriminate|].
  destruct (prepare _); cbn [bind] in Hinit; try discriminate.
  injection Hinit as <-. cbn [input_path output_path].
  destruct (@get_unique_filename_result _ _ _ _ Hu) as [Hfree Hcases].
  repeat split; auto.
  - intros E. rewrite E in Hfree. congruence.
  - intros Hout. unfold get_unique_filename in Hu. rewrite Hout in Hu.
    cbn [negb] in Hu. now injection Hu as <-.
Qed.

Lemma output_is_a_new_file_witness :
  let exists_ := exists_in [in_mp4; out_mp4] in
  exists video,
    SubtitleGenerator exists_ 2 prepared (in_mp4, out_mp4, None) None
    = Ok video
    /\ output_path video = out_1_mp4
    /\ exists_ (output_path video) = false
    /\ output_path video <> input_path video.
Proof.
  intros exists_.
  assert (Hargs : get_args exists_ in_out_args
                  = Return (in_mp4, out_mp4, None))
    by (vm_compute; reflexivity).
  assert (Hstill : exists_ (ns_input in_out_args) = true)
    by (vm_compute; reflexivity).
  assert (Hmake : SubtitleGenerator exists_ 2 prepared
                    (in_mp4, out_mp4, None) None
                  = Ok {| input_path := in_mp4;
                          output_path := out_1_mp4;
                          subtitle_model := of_string "small";
                          set_language := None |})
    by (vm_compute; reflexivity).
  eexists. split; [exact Hmake|]. split; [reflexivity|].
  pose proof (@output_is_a_new_file exists_ exists_ 2 prepared in_out_args
                _ None _ Hargs Hstill Hmake) as (_ & _ & Hfree & Hne & _).
  split; [exact Hfree | exact Hne].
Defined.

(** ** The loading bar *)

Lemma length_str_mul s n :
  length (LoadingBar.str_mul s n) = length s * Z.to_nat n.
Proof.
  unfold LoadingBar.str_mul. induction (Z.to_nat n) as [|k IH]; simpl.
  - lia.
  - rewrite length_app, IH. lia.
Qed.

Lemma in_range a b i :
  In i (LoadingBar.range a b) <-> (a <= i < b)%Z.
Proof.
  unfold LoadingBar.range. rewrite in_map_iff. split.
  - intros (k & <- & Hk%in_seq). lia.
  - intros Hi. exists (Z.to_nat (i - a)). split; [lia|].
    apply in_seq. lia.
Qed.

Lemma length_range a b : length (LoadingBar.range a b) = Z.to_nat (b - a).
Proof.
  unfold LoadingBar.range. now rewrite length_map, length_seq.
Qed.

Lemma in_style_names name :
  In name LoadingBar.style_names
  <-> pystr_eqb name (of_string "simple")
      || pystr_eqb name (of_string "hash")
      || pystr_eqb name (of_string "blocks")
      || pystr_eqb name (of_string "dots") = true.
Proof.
  rewrite !orb_true_iff, !pystr_eqb_eq. unfold LoadingBar.style_names.
  simpl. intuition auto.
Qed.

(** The frames of a style are at least one and all of one width. *)
Lemma get_style_ok style_name len frames :
  LoadingBar.get_style style_name len = Ok frames ->
  (1 <= len <= 20)%Z
  /\ In style_name LoadingBar.style_names
  /\ frames <> []
  /\ exists width, Forall (fun frame => length frame = width) frames.
Proof.
  rewrite in_style_names. unfold LoadingBar.get_style.
  destruct (Z.gtb_spec len 20); [discriminate|].
  destruct (Z.leb_spec len 0); [discriminate|].
  destruct (pystr_eqb style_name (of_string "simple")).
  { intros [= <-]. repeat split; try lia; [discriminate|].
    exists 1. repeat constructor. }
  destruct (pystr_eqb style_name (of_string "hash")).
  { intros [= <-]. repeat split; try lia.
    - intros E. apply (f_equal (@length pystr)) in E.
      rewrite length_map, length_range in E. simpl in E. lia.
    - exists (Z.to_nat len + 2). apply Forall_forall.
      intros frame (i & <- & Hi%in_range)%in_map_iff.
      cbn [length]. rewrite !length_app, !length_str_mul. simpl. lia. }
  destruct (pystr_eqb style_name (of_string "blocks")).
  { intros [= <-]. repeat split; try lia.
    - intros E. apply (f_equal (@length pystr)) in E.
      rewrite length_map, length_range in E. simpl in E. lia.
    - exists (Z.to_nat len + 4). apply Forall_forall.
      intros frame (i & <- & Hi%in_range)%in_map_iff.
      cbn [length]. rewrite !length_app, !length_str_mul. simpl. lia. }
  destruct (pystr_eqb style_name (of_string "dots")); [|discriminate].
  intros [= <-]. repeat split; try lia; [discriminate|].
  exists 1. repeat constructor.
Qed.

Lemma get_style_total style_name len :
  (exists frames, LoadingBar.get_style style_name len = Ok frames)
  \/ (LoadingBar.get_style style_name len = Raise ValueError
      /\ ~ ((1 <= len <= 20)%Z /\ In style_name LoadingBar.style_names)).
Proof.
  rewrite in_style_names. unfold LoadingBar.get_style.
  destruct (Z.gtb_spec len 20); [right; split; [reflexivity | lia]|].
  destruct (Z.leb_spec len 0); [right; split; [reflexivity | lia]|].
  destruct (pystr_eqb style_name (of_string "simple")); [left; eauto|].
  destruct (pystr_eqb style_name (of_string "hash")); [left; eauto|].
  destruct (pystr_eqb style_name (of_string "blocks")); [left; eauto|].
  destruct (pystr_eqb style_name (of_string "dots")); [left; eauto|].
  right. split; [reflexivity|]. intros [_ Hn]. discriminate Hn.
Qed.

(** X12.  [get_style] returns frames for a length from 1 to 20 and one of
    the four style names, and raises ValueError for every other call; the
    frames it returns are at least one and all have the same number of
    characters. *)
Theorem get_style_frames (style_name : pystr) (len : Z) :
  ((1 <= len <= 20)%Z /\ In style_name LoadingBar.style_names ->
   exists frames width,
     LoadingBar.get_style style_name len = Ok frames
     /\ frames <> []
     /\ Forall (fun frame => length frame = width) frames)
  /\ (~ ((1 <= len <= 20)%Z /\ In style_name LoadingBar.style_names) ->
      LoadingBar.get_style style_name len = Raise ValueError).
Proof.
  destruct (get_style_total style_name len) as [[frames Hf] | [Hr Hn]].
  - destruct (get_style_ok _ _ Hf) as (Hlen & Hname & Hne & width & Hw).
    split.
    + intros _. now exists frames, width.
    + intros Hnot. exfalso. apply Hnot. now split.
  - split; [intros Hv; contradiction | intros _; exact Hr].
Qed.

Lemma get_style_frames_witness :
  exists frames width,
    LoadingBar.get_style (of_string "hash") 20 = Ok frames
    /\ frames <> []
    /\ Forall (fun frame => length frame = width) frames.
Proof.
  apply (proj1 (get_style_frames (of_string "hash") 20)).
  split; [lia|]. right. left. reflexivity.
Defined.

(** The frame of a tick has the width of the frames times [repeat]. *)
Lemma frame_at_width style repeat idx width :
  style <> [] -> Forall (fun frame => length frame = width) style ->
  exists frame,
    LoadingBar.frame_at style repeat idx = Return frame
    /\ length frame = width * Z.to_nat repeat.
Proof.
  intros Hne Hw. unfold LoadingBar.frame_at.
  destruct style as [|f style']; [congruence|].
  eexists. split; [reflexivity|]. rewrite length_str_mul. f_equal.
  rewrite Forall_forall in Hw. apply Hw. apply nth_In.
  assert (Hn : (0 < Z.of_nat (length (f :: style')))%Z) by (simpl; lia).
  apply Nat2Z.inj_lt. rewrite Z2Nat.id; now apply Z.mod_pos_bound.
Qed.

Lemma length_loading_line prefix name frame :
  length (LoadingBar.loading_line prefix name frame)
  = 8 + length prefix + length name + length frame.
Proof.
  unfold LoadingBar.loading_line. rewrite !length_app. simpl. lia.
Qed.

(** The loop writes one line a tick, all of one length, and binds
    [loading_string] from the first tick on. *)
Lemma animate_loop_lines prefix name style repeat width :
  style <> [] -> Forall (fun frame => length frame = width) style ->
  let good := fun line : pystr =>
    length line
    = 8 + length prefix + length name + width * Z.to_nat repeat in
  forall ticks idx loading_string written,
    Forall good written ->
    (forall line, loading_string = Some line -> good line) ->
    exists last written',
      LoadingBar.animate_loop prefix name style repeat ticks idx
        loading_string written = Return (last, written')
      /\ length written' = length written + ticks
      /\ Forall good written'
      /\ (forall line, last = Some line -> good line)
      /\ (ticks = 0 -> last = loading_string /\ written' = written)
      /\ (0 < ticks -> last <> None).
Proof.
  intros Hne Hw good.
  induction ticks as [|ticks IH]; intros idx loading_string written Hwr Hls.
  - exists loading_string, written. cbn [LoadingBar.animate_loop].
    repeat split; auto; lia.
  - cbn [LoadingBar.animate_loop].
    destruct (@frame_at_width style repeat idx width Hne Hw)
      as (frame & -> & Hf).
    set (line := LoadingBar.loading_line prefix name frame).
    assert (Hline : good line).
    { unfold good, line. rewrite length_loading_line. lia. }
    destruct (IH (idx + 1)%Z (Some line) (written ++ [line]))
      as (last & written' & -> & Hlen & Hgood & Hlast & Hzero & Hsome).
    + apply Forall_app. split; [assumption | now constructor].
    + now intros l [= <-].
    + exists last, written'. rewrite length_app in Hlen. simpl in Hlen.
      repeat split; auto; try lia.
      intros _. destruct ticks as [|ticks'].
      * destruct (Hzero eq_refl) as [-> _]. discriminate.
      * apply Hsome. lia.
Qed.

(** X13.  Around a decorated function whose name and style pass the
    checks of the decorator, the animation thread fails with
    UnboundLocalError when the function is over before the first tick;
    after one tick or more it has written one line a tick, all of one
    length, then a blank line of that many spaces and the line that ends
    with Done. *)
Theorem animation_erases_its_line `{Casing} (style_name : pystr) (len : Z)
  (func_name : pystr) (class_name : option pystr) (ticks : nat)
  (out : outcome (list pystr)) :
  LoadingBar.simple_loading style_name len func_name class_name ticks
  = Ok out ->
  (ticks = 0 /\ out = Throw UnboundLocalError)
  \/ (0 < ticks
      /\ exists formatted_name lines width,
          LoadingBar.format_func_name func_name = Ok formatted_name
          /\ out = Return (lines
                           ++ [LoadingBar.blank_line width;
                               LoadingBar.done_line
                                 (LoadingBar.prefix_of class_name)
                                 (strip formatted_name)])
          /\ length lines = ticks
          /\ Forall (fun line => length line = width) lines).
Proof.
  unfold LoadingBar.simple_loading.
  destruct (LoadingBar.format_func_name func_name)
    as [formatted_name | |] eqn:Hname; cbn [bind]; try discriminate.
  destruct (LoadingBar.get_style style_name len)
    as [style | |] eqn:Hstyle; cbn [bind]; try discriminate.
  intros [= <-].
  destruct (get_style_ok _ _ Hstyle) as (_ & _ & Hne & width & Hw).
  set (repeat := if pystr_eqb style_name (of_string "simple")
                 then 5%Z else 1%Z).
  unfold LoadingBar._animate.
  destruct (@animate_loop_lines (LoadingBar.prefix_of class_name)
              (strip formatted_name) style repeat width Hne Hw
              ticks 0%Z None [])
    as (last & written & -> & Hlen & Hgood & Hlast & Hzero & Hsome).
  { constructor. }
  { intros line Hl. discriminate Hl. }
  destruct ticks as [|ticks'].
  - left. destruct (Hzero eq_refl) as [-> ->]. now split.
  - right. split; [lia|].
    destruct last as [line|]; [|exfalso; apply Hsome; [lia | reflexivity]].
    exists formatted_name, written, (length line).
    repeat split; auto.
    rewrite (Hlast line eq_refl). exact Hgood.
Qed.

Lemma animation_erases_its_line_witness :
  exists formatted_name lines width,
    @LoadingBar.format_func_name ascii_casing (of_string "generate_srt")
    = Ok formatted_name
    /\ @LoadingBar.simple_loading ascii_casing (of_string "hash") 20
         (of_string "generate_srt") (Some (of_string "SubtitleGenerator")) 3
       = Ok (Return (lines
                      ++ [LoadingBar.blank_line width;
                          LoadingBar.done_line
                            (LoadingBar.prefix_of
                               (Some (of_string "SubtitleGenerator")))
                            (strip formatted_name)]))
    /\ length lines = 3
    /\ Forall (fun line => length line = width) lines.
Proof.
  destruct (@LoadingBar.simple_loading ascii_casing (of_string "hash") 20
              (of_string "generate_srt")
              (Some (of_string "SubtitleGenerator")) 3)
    as [out | |] eqn:Hrun; try (vm_compute in Hrun; discriminate Hrun).
  destruct (@animation_erases_its_line ascii_casing _ _ _ _ _ _ Hrun)
    as [[Hz _] | (_ & formatted_name & lines & width & Hn & -> & Hl & Hw)];
    [discriminate Hz|].
  now exists formatted_name, lines, width.
Defined.

(** ** The name the loading bar shows *)

Lemma null_rev (s : pystr) : null (rev s) = null s.
Proof.
  destruct s as [|c s]; [reflexivity|]. simpl.
  destruct (rev s); reflexivity.
Qed.

(** The words of a name are the runs between its underscores. *)
Lemma words_of_split_on cur s :
  filter (fun w => negb (null w))
    (LoadingBar.str_split LoadingBar.underscore cur s)
  = split_on is_underscore cur s.
Proof.
  revert cur. induction s as [|c s IH]; intros cur.
  - cbn [LoadingBar.str_split split_on filter]. rewrite null_rev.
    now destruct (null cur).
  - cbn [LoadingBar.str_split split_on]. unfold is_underscore at 1.
    destruct (N.eqb c LoadingBar.underscore).
    + cbn [filter]. rewrite null_rev, IH. now destruct (null cur).
    + apply IH.
Qed.

Lemma words_of_runs s : LoadingBar.words_of s = split_on is_underscore [] s.
Proof. apply words_of_split_on. Qed.

Lemma split_on_nil_inv (sp : N -> bool) s : forall cur,
  split_on sp cur s = [] -> cur = [] /\ forallb sp s = true.
Proof.
  induction s as [|c s IH]; intros cur; cbn [split_on forallb].
  - destruct cur; [auto | discriminate].
  - destruct (sp c).
    + destruct cur; cbn [null]; [|discriminate].
      intros E. destruct (IH [] E). auto.
    + intros E. destruct (IH _ E) as [Hc _]. discriminate Hc.
Qed.

(** X14.  [format_func_name] raises IndexError exactly for the names
    that are underscores only, the empty name among them; every other
    name gets a display name. *)
Theorem format_func_name_raises `{Casing} (func_name : pystr) :
  (forallb is_underscore func_name = true ->
   LoadingBar.format_func_name func_name = Raise IndexError)
  /\ (forallb is_underscore func_name = false ->
      exists name, LoadingBar.format_func_name func_name = Ok name).
Proof.
  unfold LoadingBar.format_func_name. rewrite words_of_runs. split.
  - intros Hall. now rewrite split_on_blank.
  - intros Hsome.
    destruct (split_on is_underscore [] func_name) as [|word rest] eqn:Hw.
    + apply split_on_nil_inv in Hw as [_ Hall]. congruence.
    + eexists. reflexivity.
Qed.

Lemma format_func_name_raises_witness :
  @LoadingBar.format_func_name ascii_casing (of_string "__")
  = Raise IndexError
  /\ exists name,
      @LoadingBar.format_func_name ascii_casing (of_string "__init__")
      = Ok name.
Proof.
  split.
  - apply (proj1 (@format_func_name_raises ascii_casing (of_string "__"))).
    reflexivity.
  - apply (proj2 (@format_func_name_raises ascii_casing
                    (of_string "__init__"))).
    reflexivity.
Defined.

(** X15.  The display name does not change with underscores in front
    of a name or behind it, nor with the number of underscores in a run
    between two words. *)
Theorem format_func_name_runs `{Casing} (a b u : pystr) :
  forallb is_underscore u = true ->
  LoadingBar.format_func_name (u ++ a) = LoadingBar.format_func_name a
  /\ LoadingBar.format_func_name (a ++ u) = LoadingBar.format_func_name a
  /\ (u <> [] ->
      LoadingBar.format_func_name (a ++ u ++ b)
      = LoadingBar.format_func_name (a ++ [LoadingBar.underscore] ++ b)).
Proof.
  intros Hu. unfold LoadingBar.format_func_name. rewrite !words_of_runs.
  split; [|split].
  - now rewrite split_on_leading.
  - now rewrite split_on_trailing.
  - intros Hne. rewrite split_on_gap by assumption.
    now rewrite (@split_on_gap is_underscore a [LoadingBar.underscore] b).
Qed.

Lemma format_func_name_runs_witness :
  @LoadingBar.format_func_name ascii_casing (of_string "__init")
  = Ok (of_string "Initialization")
  /\ @LoadingBar.format_func_name ascii_casing (of_string "init__")
     = Ok (of_string "Initialization")
  /\ @LoadingBar.format_func_name ascii_casing (of_string "generate__srt")
     = Ok (of_string "Generate Srt").
Proof.
  destruct (@format_func_name_runs ascii_casing (of_string "init") []
              (of_string "__") eq_refl) as (Hfront & Hback & _).
  destruct (@format_func_name_runs ascii_casing (of_string "generate")
              (of_string "srt") (of_string "__") eq_refl) as (_ & _ & Hrun).
  split; [|split].
  - change (of_string "__init") with (of_string "__" ++ of_string "init").
    rewrite Hfront. vm_compute. reflexivity.
  - change (of_string "init__") with (of_string "init" ++ of_string "__").
    rewrite Hback. vm_compute. reflexivity.
  - change (of_string "generate__srt")
      with (of_string "generate" ++ of_string "__" ++ of_string "srt").
    rewrite Hrun by discriminate. vm_compute. reflexivity.
Defined.

(** ** Splitting camel case *)

Lemma unspaced_app a b : unspaced (a ++ b) = unspaced a ++ unspaced b.
Proof. apply filter_app. Qed.

Lemma sub_boundary_cons c d s :
  SplitCamel.sub_boundary (c :: d :: s)
  = if SplitCamel.lower c && SplitCamel.upper d
    then c :: space :: d :: SplitCamel.sub_boundary s
    else c :: SplitCamel.sub_boundary (d :: s).
Proof. reflexivity. Qed.

Lemma sub_boundary_unspaced n : forall s,
  length s <= n ->
  unspaced (SplitCamel.sub_boundary s) = unspaced s.
Proof.
  induction n as [|n IH]; intros s Hn.
  - destruct s; [reflexivity | simpl in Hn; lia].
  - destruct s as [|c [|d s'']]; try reflexivity.
    rewrite sub_boundary_cons.
    destruct (SplitCamel.lower c && SplitCamel.upper d).
    + change (c :: space :: d :: SplitCamel.sub_boundary s'')
        with ([c] ++ [space] ++ [d] ++ SplitCamel.sub_boundary s'').
      change (c :: d :: s'') with ([c] ++ [d] ++ s'').
      rewrite !unspaced_app. rewrite IH by (simpl in *; lia).
      reflexivity.
    + change (c :: SplitCamel.sub_boundary (d :: s''))
        with ([c] ++ SplitCamel.sub_boundary (d :: s'')).
      change (c :: d :: s'') with ([c] ++ d :: s'').
      rewrite !unspaced_app. rewrite IH by (simpl in *; lia).
      reflexivity.
Qed.

Lemma sub_acronym_unspaced fuel : forall s,
  unspaced (SplitCamel.sub_acronym fuel s) = unspaced s.
Proof.
  induction fuel as [|fuel IH]; intros s; [reflexivity|].
  cbn [SplitCamel.sub_acronym]. destruct s as [|c s']; [reflexivity|].
  destruct (SplitCamel.match_acronym (c :: s')) as [j|].
  - rewrite !unspaced_app, IH.
    change (unspaced [space]) with (@nil N). cbn [app].
    rewrite <- !unspaced_app. f_equal.
    rewrite Nat.add_comm, <- skipn_skipn.
    now rewrite !firstn_skipn.
  - change (c :: SplitCamel.sub_acronym fuel s')
      with ([c] ++ SplitCamel.sub_acronym fuel s').
    change (c :: s') with ([c] ++ s').
    now rewrite !unspaced_app, IH.
Qed.

(** X16.  [split_camel] puts spaces in and changes nothing else: without
    its spaces the result is the argument without its spaces. *)
Theorem split_camel_only_spaces (s : pystr) :
  unspaced (SplitCamel.split_camel s) = unspaced s.
Proof.
  unfold SplitCamel.split_camel.
  rewrite (@sub_boundary_unspaced _ _ (le_n _)).
  apply sub_acronym_unspaced.
Qed.

Lemma sub_boundary_head c s :
  exists r, SplitCamel.sub_boundary (c :: s) = c :: r.
Proof.
  cbn [SplitCamel.sub_boundary]. destruct s as [|d s']; [eauto|].
  destruct (SplitCamel.lower c && SplitCamel.upper d); eauto.
Qed.

Lemma upper_not_lower c :
  SplitCamel.upper c = true -> SplitCamel.lower c = false.
Proof.
  unfold SplitCamel.upper, SplitCamel.lower, between.
  intros [_ H]%andb_prop. apply N.leb_le in H.
  apply andb_false_intro1. apply N.leb_gt. lia.
Qed.

Lemma sub_boundary_split n : forall s,
  length s <= n -> boundaries_split (SplitCamel.sub_boundary s).
Proof.
  induction n as [|n IH]; intros s Hn.
  - destruct s; [exact I | simpl in Hn; lia].
  - destruct s as [|c [|d s'']]; [exact I | split; exact I |].
    rewrite sub_boundary_cons.
    destruct (SplitCamel.lower c && SplitCamel.upper d) eqn:Hcd.
    + apply andb_prop in Hcd as [_ Hd].
      split; [apply andb_false_r|]. split; [reflexivity|]. split.
      * destruct s'' as [|e s3]; [exact I|].
        destruct (sub_boundary_head e s3) as [r ->].
        now rewrite (upper_not_lower _ Hd).
      * apply IH. simpl in *. lia.
    + destruct (sub_boundary_head d s'') as [r Hr].
      split.
      * now rewrite Hr.
      * apply IH. simpl in *. lia.
Qed.

(** X17.  In what [split_camel] returns no small letter stands right
    before a capital. *)
Theorem split_camel_boundaries (s : pystr) :
  boundaries_split (SplitCamel.split_camel s).
Proof.
  unfold SplitCamel.split_camel. apply (@sub_boundary_split _ _ (le_n _)).
Qed.

(** ** The menu *)

Section MenuFacts.
Variable World : Type.
Variable run : option pystr -> World -> result unit * World.
Variable supported : list pystr.

Lemma checked_cons line inputs language :
  checked supported inputs language ->
  checked supported (line :: inputs) language.
Proof.
  destruct language as [code|]; [|trivial].
  intros [Hv (l & Hl & ->)]. split; [assumption|].
  exists l. split; [now right | reflexivity].
Qed.

Lemma menu_loop_checked inputs : forall at_ world,
  snd (menu_loop run supported at_ inputs world) <> Return tt
  /\ Forall (checked supported inputs)
       (fst (menu_loop run supported at_ inputs world)).
Proof.
  induction inputs as [|line rest IH]; intros at_ world.
  - cbn. split; [discriminate | constructor].
  - assert (Hrest : forall at' world',
               snd (menu_loop run supported at' rest world') <> Return tt
               /\ Forall (checked supported (line :: rest))
                    (fst (menu_loop run supported at' rest world'))).
    { intros at' world'. destruct (IH at' world') as [Hout Hran].
      split; [assumption|].
      eapply Forall_impl; [|exact Hran]. apply checked_cons. }
    assert (Hmake : forall language,
               checked supported (line :: rest) language ->
               let r := match run language world with
                        | (Ok _, world') =>
                            let '(ran, out) :=
                              menu_loop run supported PressEnter rest world'
                            in (language :: ran, out)
                        | (Raise e, _) => ([language], Throw (Builtin e))
                        | (Loops, _) => ([language], Diverges)
                        end in
               snd r <> Return tt
               /\ Forall (checked supported (line :: rest)) (fst r)).
    { intros language Hl. cbv zeta.
      destruct (run language world) as [[[] | e |] world'].
      - destruct (Hrest PressEnter world') as [Hout Hran].
        destruct (menu_loop run supported PressEnter rest world')
          as [ran out].
        cbn [fst snd] in *. split; [assumption | now constructor].
      - cbn [fst snd]. split; [discriminate | now repeat constructor].
      - cbn [fst snd]. split; [discriminate | now repeat constructor]. }
    cbn [menu_loop]. destruct at_.
    + destruct (pystr_eqb line (of_string "1")); [now apply Hmake|].
      destruct (pystr_eqb line (of_string "2")); [apply Hrest|].
      destruct (pystr_eqb line (of_string "3")); [|apply Hrest].
      cbn. split; [discriminate | constructor].
    + destruct (is_valid_language supported (strip line)) eqn:Hv;
        [|apply Hrest].
      apply Hmake. split; [assumption|].
      exists line. split; [now left | reflexivity].
    + apply Hrest.
Qed.

End MenuFacts.

(** X18.  Whatever is typed, [start_menu] does not return normally, and
    every language it starts a run with is a supported code: one of the
    lines typed, with the whitespace around it taken off. *)
Theorem start_menu_checks_language (World : Type)
  (run : option pystr -> World -> result unit * World)
  (supported inputs : list pystr) (world : World) :
  snd (start_menu run supported inputs world) <> Return tt
  /\ Forall (fun language =>
               match language with
               | None => True
               | Some code =>
                   is_valid_language supported code = true
                   /\ exists line, In line inputs /\ code = strip line
               end)
       (fst (start_menu run supported inputs world)).
Proof.
  apply menu_loop_checked.
Qed.

(** The session of the example makes one run, in Spanish, and exits. *)
Lemma session_runs_spanish :
  start_menu every_run_returns two_codes session tt
  = ([Some (of_string "es")], Throw (Builtin SystemExit)).
Proof. vm_compute. reflexivity. Qed.
